(** * a-i18n: the translation state engine

  A shallow embedding of [src/@src/Utils.js]: the string helpers of
  [Utils.js] and the [I18n] class (state, line parser, update engine,
  optimizer, load, save and the structural key operations).

  JavaScript strings are sequences of UTF-16 code units, modelled as
  [list N].  Objects used as dictionaries ([state.original],
  [state.updated], [updates.before], [updates.after]) are [gmap]s keyed
  by the full key string.  Methods of the class are computations in a
  small state-and-exception monad over the engine state, the directory
  contents and a trace of the calls made to collaborators. *)

From stdpp Require Import gmap list strings.
From Stdlib Require Import NArith ZArith.

Local Open Scope Z_scope.

(** ** JavaScript strings *)

Module JS.

(** A string literal of the development, as code units. *)
Definition lit (s : string) : list N :=
  map (fun a => Ascii.N_of_ascii a) (String.list_ascii_of_string s).

(** [WhiteSpace] and [LineTerminator] code points of ECMAScript, the
    characters [String.prototype.trim] strips. *)
Definition isWhiteSpace (c : N) : bool :=
  ((9 <=? c) && (c <=? 13) || (c =? 32) || (c =? 160) || (c =? 5760)
   || (8192 <=? c) && (c <=? 8202) || (c =? 8232) || (c =? 8233)
   || (c =? 8239) || (c =? 8287) || (c =? 12288) || (c =? 65279))%N.

Fixpoint trimStart (s : list N) : list N :=
  match s with
  | c :: r => if isWhiteSpace c then trimStart r else s
  | [] => []
  end.

Definition trimEnd (s : list N) : list N := reverse (trimStart (reverse s)).

Definition trim (s : list N) : list N := trimEnd (trimStart s).

(** A string with no white space at either end. *)
Definition edgeFree (s : list N) : bool :=
  match head s with Some c => negb (isWhiteSpace c) | None => true end
  && match last s with Some c => negb (isWhiteSpace c) | None => true end.

(** [s.replace(/c/g, d)] for a one-character pattern. *)
Definition replaceAll (c d : N) (s : list N) : list N :=
  map (fun x => if (x =? c)%N then d else x) s.

Fixpoint find (c : N) (s : list N) : option nat :=
  match s with
  | [] => None
  | x :: r => if (x =? c)%N then Some O else S <$> find c r
  end.

(** [s.indexOf(c)]: the first position of [c], or [-1]. *)
Definition indexOf (c : N) (s : list N) : Z :=
  match find c s with
  | Some i => Z.of_nat i
  | None => -1
  end.

(** [s.substring(a, b)] for [0 <= a <= b], and [s.substring(a)]. *)
Definition substring (a b : nat) (s : list N) : list N := take (b - a) (drop a s).
Definition substringFrom (a : nat) (s : list N) : list N := drop a s.

(** [s.split(c)] for a one-character separator. *)
Fixpoint split (c : N) (s : list N) : list (list N) :=
  match s with
  | [] => [[]]
  | x :: r =>
      if (x =? c)%N then [] :: split c r
      else match split c r with
           | p :: ps => (x :: p) :: ps
           | [] => [[x]]
           end
  end.

(** [a < b] on strings: lexicographic on code units. *)
Fixpoint ltb (a b : list N) : bool :=
  match a, b with
  | _, [] => false
  | [], _ :: _ => true
  | x :: a', y :: b' => (x <? y)%N || (x =? y)%N && ltb a' b'
  end.

(** The line-feed character. *)
Definition LF : N := 10%N.

End JS.

(** ** Constants

  Modelled from the spec: [Constants.js] is not part of the sources.
  Section 4.3 of the specification describes the four line kinds as
  one-character markers, the update prefix as a marker, the key/value
  separator as a character and the newline placeholder as a single
  character; section 4.2 describes the full-key separator as a fixed
  separator.  Each is a code unit here and the development is
  parametric in their values.  [FileNameRegExp] is the naming
  convention of locale files, given by its [test] function, and
  [I18nJs] is the name of the generated export module. *)

Record Constants := {
  CommentLine : N;
  ApprovedLine : N;
  NotApprovedLine : N;
  DeleteKeyLine : N;
  UpdateLine : N;
  KeyValueSeparator : N;
  NewLineSymbol : N;
  FullKeySeparator : N;
  FileNameRegExp : list N -> bool;
  I18nJs : list N
}.

(** One concrete choice, used to run the engine on examples.  The
  scenario of section 8 of the specification writes an approved value
  line as [+hello=Hi] and names its locale files [app.en] and
  [app.fr]; the other characters are distinct printable characters,
  and every file but the export module counts as a locale file. *)
Definition sample : Constants := {|
  CommentLine := 35;       (* # *)
  ApprovedLine := 43;      (* + *)
  NotApprovedLine := 45;   (* - *)
  DeleteKeyLine := 33;     (* ! *)
  UpdateLine := 126;       (* ~ *)
  KeyValueSeparator := 61; (* = *)
  NewLineSymbol := 8629;   (* U+21B5 *)
  FullKeySeparator := 58;  (* : *)
  FileNameRegExp := fun name => negb (bool_decide (name = JS.lit "i18n.js"));
  I18nJs := JS.lit "i18n.js"
|}%N.

(** ** Utils.js *)

Section Utils.

Context (K : Constants).

(** [safeValue$ = (value = '') => value.trim().replace(/\n/g, NewLineSymbol)] *)
Definition safeValue (value : option (list N)) : list N :=
  JS.replaceAll JS.LF (NewLineSymbol K) (JS.trim (default [] value)).

(** [unsafeValue$ = (value = '') => value.replace(NewLineSymbolRegEx, '\n')];
    [NewLineSymbolRegEx] matches every occurrence of the placeholder. *)
Definition unsafeValue (value : option (list N)) : list N :=
  JS.replaceAll (NewLineSymbol K) JS.LF (default [] value).

Definition commentLine (key : list N) (comment : option (list N)) : list N :=
  CommentLine K :: key ++ KeyValueSeparator K :: safeValue comment.

Definition valueLine (approved : bool) (key : list N) (value : option (list N)) : list N :=
  (if approved then ApprovedLine K else NotApprovedLine K)
    :: key ++ KeyValueSeparator K :: safeValue value.

Definition deleteLine (key : list N) : list N := DeleteKeyLine K :: key.

(** [buildFK$] and [splitFK$]; the class calls them [FullKey] and
    [FullKey.split]. *)
Definition buildFK (fileName key : list N) : list N :=
  fileName ++ FullKeySeparator K :: key.

Definition splitFK (fullKey : list N) : list (list N) :=
  JS.split (FullKeySeparator K) fullKey.

End Utils.

(** *** Paths *)

(** [s.endsWith(search)] *)
Definition endsWith (search s : list N) : bool :=
  bool_decide (drop (List.length s - List.length search) s = search).

Definition slash : N := 47%N.
Definition backslash : N := 92%N.

(** [endWithSlash$ = (path = '') => path.endsWith('/') ? path :
    (path.endsWith('\\') ? path.substring(0, path.length - 1) + '/' : path + '/')] *)
Definition endWithSlash (path : option (list N)) : list N :=
  let path := default [] path in
  if endsWith [slash] path then path
  else if endsWith [backslash] path
       then JS.substring 0 (List.length path - 1) path ++ [slash]
       else path ++ [slash].

(** ** Errors.js

    Modelled from the spec: [Errors.js] is not part of the sources.
    Section 7 of the specification sorts the failures in two tiers: a
    malformed line and a duplicate key carry [stateError] and are
    captured by [load]; every other failure is thrown to the caller. *)

Inductive Cause :=
| InvalidLineError (line : list N)
| DuplicateKeyError (what : list N).

(** An error that carries [stateError].  [location] is the prefix
    [[file:lineNumber]] that [load] adds to the message. *)
Record StateError := {
  cause : Cause;
  location : option (list N * nat)
}.

Inductive Error :=
| StateErr (e : StateError)
| NotLoadedError
| NotResolvedError (e : StateError)
| InvalidKeyError (key : option (list N))
| KeyExistError (key : list N)
| KeyNotExistError (key : list N)
| NoI18nFilesError
| UnappliedChangesError
| InvalidFileEmpty
| InvalidFileExists (fileName : list N)
| TypeError.

(** ** SortedArray.js

    Modelled from the spec: [SortedArray.js] is not part of the sources.
    Section 4.1 of the specification: [sortedIndexOf] is the position for
    insertion or a sentinel when the key is present, [insert] puts a key
    at a position, [remove] answers whether the key was present and
    removed, [indexOf] is the position or a sentinel.  The sentinel is
    [-1], as the callers test. *)

Module SortedArray.

Fixpoint lowerBound (key : list N) (array : list (list N)) : nat :=
  match array with
  | k :: r => if JS.ltb k key then S (lowerBound key r) else O
  | [] => O
  end.

Definition sortedIndexOf (key : list N) (array : list (list N)) : Z :=
  if bool_decide (key ∈ array) then -1 else Z.of_nat (lowerBound key array).

Definition insert (position : nat) (key : list N) (array : list (list N)) : list (list N) :=
  take position array ++ key :: drop position array.

Fixpoint removeFirst (key : list N) (array : list (list N)) : list (list N) :=
  match array with
  | k :: r => if bool_decide (k = key) then r else k :: removeFirst key r
  | [] => []
  end.

Definition remove (key : list N) (array : list (list N)) : bool * list (list N) :=
  if bool_decide (key ∈ array) then (true, removeFirst key array) else (false, array).

Fixpoint position (key : list N) (array : list (list N)) : option nat :=
  match array with
  | k :: r => if bool_decide (k = key) then Some O else S <$> position key r
  | [] => None
  end.

Definition indexOf (key : list N) (array : list (list N)) : Z :=
  match position key array with
  | Some i => Z.of_nat i
  | None => -1
  end.

End SortedArray.

(** ** The data model of the class *)

(** A translation object [{ key, value, comment, approved }]; a property
    that is not set is [None]. *)
Module Tr.
Record t := {
  key : list N;
  value : option (list N);
  comment : option (list N);
  approved : option bool
}.
Definition new (k : list N) : t :=
  {| key := k; value := None; comment := None; approved := None |}.
Definition setComment (c : list N) (x : t) : t :=
  {| key := key x; value := value x; comment := Some c; approved := approved x |}.
Definition setValue (v : list N) (a : bool) (x : t) : t :=
  {| key := key x; value := Some v; comment := comment x; approved := Some a |}.
End Tr.

(** [state.updates].  [before] keeps the property even when the value
    stored is [undefined] ([Some None]). *)
Record Updates := {
  length : nat;
  before : gmap (list N) (option Tr.t);
  after : gmap (list N) Tr.t
}.

(** [this.state].  [keys] is the array of the [SortedArray]. *)
Record State := {
  keys : list (list N);
  updates : Updates;
  original : gmap (list N) Tr.t;
  updated : gmap (list N) Tr.t;
  error : option StateError;
  loaded : bool
}.

Definition setKeys (f : list (list N) -> list (list N)) (s : State) : State :=
  {| keys := f (keys s); updates := updates s; original := original s;
     updated := updated s; error := error s; loaded := loaded s |}.
Definition setUpdates (f : Updates -> Updates) (s : State) : State :=
  {| keys := keys s; updates := f (updates s); original := original s;
     updated := updated s; error := error s; loaded := loaded s |}.
Definition setOriginal (f : gmap (list N) Tr.t -> gmap (list N) Tr.t) (s : State) : State :=
  {| keys := keys s; updates := updates s; original := f (original s);
     updated := updated s; error := error s; loaded := loaded s |}.
Definition setUpdated (f : gmap (list N) Tr.t -> gmap (list N) Tr.t) (s : State) : State :=
  {| keys := keys s; updates := updates s; original := original s;
     updated := f (updated s); error := error s; loaded := loaded s |}.
Definition setError (e : option StateError) (s : State) : State :=
  {| keys := keys s; updates := updates s; original := original s;
     updated := updated s; error := e; loaded := loaded s |}.
Definition setLoaded (b : bool) (s : State) : State :=
  {| keys := keys s; updates := updates s; original := original s;
     updated := updated s; error := error s; loaded := b |}.

Definition setLength (n : nat) (u : Updates) : Updates :=
  {| length := n; before := before u; after := after u |}.
Definition setBefore (f : gmap (list N) (option Tr.t) -> gmap (list N) (option Tr.t))
  (u : Updates) : Updates :=
  {| length := length u; before := f (before u); after := after u |}.
Definition setAfter (f : gmap (list N) Tr.t -> gmap (list N) Tr.t) (u : Updates) : Updates :=
  {| length := length u; before := before u; after := f (after u) |}.

(** The options object of a public function.  A property the caller
    did not pass is [None]. *)
Module Opt.
Record t := {
  fileName : option (list N);
  key : option (list N);
  value : option (list N);
  comment : option (list N);
  approved : option bool;
  fromKey : option (list N);
  toKey : option (list N);
  auto : bool
}.
(** [{}], and also any string passed where an options object is
    expected: destructuring a string finds none of these properties. *)
Definition none : t :=
  {| fileName := None; key := None; value := None; comment := None;
     approved := None; fromKey := None; toKey := None; auto := false |}.
End Opt.

(** Calls to the collaborators, in the order they are made. *)
Inductive Event :=
| SaveEv
| AppendLineEv (fileName line : list N)
| CreateFileEv (fileName : list N)
| DeleteFileEv (fileName : list N)
| TriggerChangeEv
| AutoExportEv
| ExportEv
| WatchEv.

(** The engine with its surroundings: the state, the files of the
    configured directory (name and lines, in listing order; names are
    distinct in a directory), the trace, and whether the configuration
    has an exporter.  The configured directory exists, so that
    [_findFiles] does not throw.  The storage primitives of the
    configuration ([filesIn], [lineReader], [lineWriter]) are not part
    of the sources: a file is read line by line and written line by
    line, as section 6 of the specification describes them. *)
Record World := {
  state : State;
  disk : list (list N * list (list N));
  trace : list Event;
  exporter : bool
}.

(** ** The monad of the methods

    A method runs on the world and either returns or throws; the world
    it leaves behind is kept in both cases, as the mutations made before
    a [throw] stay. *)

Inductive Result (A : Type) :=
| Return (a : A)
| Throw (e : Error).
Arguments Return {A} a.
Arguments Throw {A} e.

Definition M (A : Type) : Type := World -> Result A * World.

Definition ret {A} (a : A) : M A := fun w => (Return a, w).
Definition throw {A} (e : Error) : M A := fun w => (Throw e, w).
Definition bind {A B} (m : M A) (k : A -> M B) : M B :=
  fun w => match m w with
           | (Return a, w') => k a w'
           | (Throw e, w') => (Throw e, w')
           end.

Notation "x <- m ;; k" := (bind m (fun x => k))
  (at level 100, m at next level, right associativity).
Notation "m ;;; k" := (bind m (fun _ => k))
  (at level 100, right associativity).

Definition withState (s : State) (w : World) : World :=
  {| state := s; disk := disk w; trace := trace w; exporter := exporter w |}.

Definition getState : M State := fun w => (Return (state w), w).
Definition getDisk : M (list (list N * list (list N))) := fun w => (Return (disk w), w).
Definition modify (f : State -> State) : M unit :=
  fun w => (Return tt, {| state := f (state w); disk := disk w;
                          trace := trace w; exporter := exporter w |}).
Definition setDisk (f : list (list N * list (list N)) -> list (list N * list (list N))) : M unit :=
  fun w => (Return tt, {| state := state w; disk := f (disk w);
                          trace := trace w; exporter := exporter w |}).
Definition emit (e : Event) : M unit :=
  fun w => (Return tt, {| state := state w; disk := disk w;
                          trace := trace w ++ [e]; exporter := exporter w |}).

(** [for (const x of l) body(x)] *)
Fixpoint forOf {A} (l : list A) (body : A -> M unit) : M unit :=
  match l with
  | [] => ret tt
  | x :: r => body x ;;; forOf r body
  end.

(** [try { m } catch (e) { handler(e) }] *)
Definition tryCatch {A} (m : M A) (handler : Error -> M A) : M A :=
  fun w => match m w with
           | (Return a, w') => (Return a, w')
           | (Throw e, w') => handler e w'
           end.

(** [try { m } finally { f }] for a [finally] block that cannot throw. *)
Definition tryFinally {A} (m : M A) (f : State -> State) : M A :=
  fun w => match m w with
           | (r, w') => (r, {| state := f (state w'); disk := disk w';
                               trace := trace w'; exporter := exporter w' |})
           end.

(** ** The class I18n *)

Section I18n.

Context (K : Constants).

(** The names of the public functions, as [getPublicFunctions] lists
    them for the wrapper installed by [initialize]. *)
Inductive FnName :=
| fn_connect | fn_load | fn_save | fn_export | fn_addFile | fn_deleteFile
| fn_addKey | fn_copyKey | fn_renameKey | fn_deleteKey
| fn_updateValue | fn_updateApproved | fn_updateComment | fn_updateTranslation
| fn_revert.

(** [FullKey(fileName, key)]: string concatenation, where [undefined]
    prints as its name. *)
Definition toString (o : option (list N)) : list N := default (JS.lit "undefined") o.
Definition FullKey (fileName key : list N) : list N := buildFK K fileName key.

Definition emptyUpdates : Updates := {| length := 0; before := ∅; after := ∅ |}.

Definition resetUpdates (s : State) : State :=
  {| keys := keys s; updates := emptyUpdates; original := updated s;
     updated := ∅; error := error s; loaded := loaded s |}.

Definition resetState : State :=
  resetUpdates {| keys := []; updates := emptyUpdates; original := ∅;
                  updated := ∅; error := None; loaded := false |}.

(** The options of the model are records, never functions, so the first
    test of [_validateAction] does not fire. *)
Definition validateAction (fnName : FnName) : M unit :=
  match fnName with
  | fn_load | fn_connect | fn_export => ret tt
  | _ =>
      s <- getState ;;
      if negb (loaded s) then throw NotLoadedError
      else match error s with
           | Some e => throw (NotResolvedError e)
           | None => ret tt
           end
  end.

(** The object [{ type, key, value }] that [_parseLine] returns. *)
Record ParsedLine := {
  type : N;
  pkey : list N;
  pvalue : list N
}.

Definition isLineType (c : N) : bool :=
  ((c =? CommentLine K) || (c =? ApprovedLine K) || (c =? NotApprovedLine K)
   || (c =? DeleteKeyLine K))%N.

Definition parseLine (line : list N) (typeIndex : nat) : Cause + ParsedLine :=
  match line !! typeIndex with
  | None => inl (InvalidLineError line)
  | Some ty =>
      if negb (isLineType ty) then inl (InvalidLineError line)
      else
        let separatorIndex := JS.indexOf (KeyValueSeparator K) line in
        if separatorIndex <=? Z.of_nat typeIndex then inl (InvalidLineError line)
        else inr {| type := ty;
                    pkey := JS.substring (typeIndex + 1) (Z.to_nat separatorIndex) line;
                    pvalue := JS.substringFrom (Z.to_nat separatorIndex + 1) line |}
  end.

Definition throwState {A} (c : Cause) : M A :=
  throw (StateErr {| cause := c; location := None |}).

(** The object [targetObject] of [_resolveTranslation] is either
    [state.original] or [state.updates.after]. *)
Inductive Target := TOriginal | TAfter.

Definition target (tg : Target) (s : State) : gmap (list N) Tr.t :=
  match tg with
  | TOriginal => original s
  | TAfter => after (updates s)
  end.

Definition setTarget (tg : Target) (f : gmap (list N) Tr.t -> gmap (list N) Tr.t)
  (s : State) : State :=
  match tg with
  | TOriginal => setOriginal f s
  | TAfter => setUpdates (setAfter f) s
  end.

(** [_resolveTranslation].  The translation object found in the target
    is changed in place and then also stored in [state.updated]: both
    slots hold the changed entry afterwards.  No other slot holds that
    object: an object of [updates.after] was created there and is shared
    with [state.updated] only, and an object of [state.original] is
    changed only while [load] reads the baseline lines of its file,
    before any update line of that file sets [updates.before] (the full
    keys of two files differ when file names are free of the full-key
    separator). *)
Definition resolveTranslation (fullKey : list N) (parsedLine : ParsedLine)
  (tg : Target) (s : State) : State :=
  let translation := default (Tr.new (pkey parsedLine)) (target tg s !! fullKey) in
  let translation :=
    if (type parsedLine =? CommentLine K)%N
    then Tr.setComment (pvalue parsedLine) translation
    else Tr.setValue (pvalue parsedLine) (type parsedLine =? ApprovedLine K)%N translation in
  setUpdated (insert fullKey translation) (setTarget tg (insert fullKey translation) s).

Definition updateState (fileName line : list N) : M unit :=
  if 0 <=? JS.indexOf JS.LF line then throwState (InvalidLineError line)
  else match parseLine line 1 with
       | inl c => throwState c
       | inr parsedLine =>
           let fullKey := FullKey fileName (pkey parsedLine) in
           modify (fun s =>
             setUpdates (fun u => setBefore (insert fullKey (original s !! fullKey))
                                    (setLength (S (length u)) u)) s) ;;;
           if (type parsedLine =? DeleteKeyLine K)%N then
             modify (fun s =>
               setKeys (fun a => (SortedArray.remove (pkey parsedLine) a).2)
                 (setUpdated (delete fullKey)
                    (setUpdates (setAfter (delete fullKey)) s)))
           else modify (resolveTranslation fullKey parsedLine TAfter)
       end.

(** [_updateKeys]: the full keys of [updates.before] and [updates.after]. *)
Definition updateKeys (s : State) : gset (list N) :=
  dom (before (updates s)) ∪ dom (after (updates s)).

(** [_findI18nFiles]: the files of the directory whose name matches
    [FileNameRegExp]. *)
Definition findI18nFiles (d : list (list N * list (list N))) : list (list N * list (list N)) :=
  filter (fun f => FileNameRegExp K f.1 = true) d.

(** [_triggerChange] and [_autoExport] are throttled: the call only
    schedules the notification and the export. *)
Definition triggerChange : M unit := emit TriggerChangeEv.
Definition autoExport : M unit := emit AutoExportEv.

(** [t.comment && t.comment.trim().length > 0] *)
Definition nonBlank (o : option (list N)) : bool :=
  match o with
  | Some s => negb (bool_decide (s = [])) && negb (bool_decide (JS.trim s = []))
  | None => false
  end.

(** The lines [save] writes to one file for one key. *)
Definition saveKeyLines (s : State) (files : list (list N)) (fileName key : list N)
  : list (list N) :=
  let t f := updated s !! FullKey f key in
  let hasComment := existsb (fun f => nonBlank (t f ≫= Tr.comment)) files in
  let hasValue := existsb (fun f => nonBlank (t f ≫= Tr.value)) files in
  let approved := default false (t fileName ≫= Tr.approved) in
  let value := default [] (t fileName ≫= Tr.value) in
  let comment := default [] (t fileName ≫= Tr.comment) in
  (if hasComment then [CommentLine K :: key ++ KeyValueSeparator K :: comment] else [])
  ++ (if hasComment || hasValue
      then [(if approved then ApprovedLine K else NotApprovedLine K)
              :: key ++ KeyValueSeparator K :: value]
      else []).

(** What the writer of one file receives in [save]. *)
Definition saveFile (s : State) (files : list (list N)) (fileName : list N)
  : list (list N) :=
  flat_map (saveKeyLines s files fileName) (keys s).

(** The body of [save]: every locale file is rewritten. *)
Definition save_body : M unit :=
  emit SaveEv ;;;
  s <- getState ;;
  d <- getDisk ;;
  let files := (findI18nFiles d).*1 in
  setDisk (map (fun f => if FileNameRegExp K f.1 then (f.1, saveFile s files f.1) else f)) ;;;
  modify resetUpdates ;;;
  triggerChange ;;;
  autoExport.

(** [this.save()], through the wrapper of [initialize]. *)
Definition save : M unit := validateAction fn_save ;;; save_body.

(** [updateKeys.forEach(fn)].  The callbacks of the class touch only
    the entries at the full key they are given, so the order in which
    the set is traversed does not show in the result. *)
Definition forEachKey (fn : list N -> State -> State) (updateKeys : gset (list N))
  (s : State) : State :=
  foldl (fun s fullKey => fn fullKey s) s (elements updateKeys).

(** [_changeUpdates] *)
Definition changeUpdates (fn : list N -> State -> State) : M unit :=
  s <- getState ;;
  let updateKeys0 := updateKeys s in
  if bool_decide (size updateKeys0 = 0%nat) then ret tt
  else
    modify (forEachKey fn updateKeys0) ;;;
    s <- getState ;;
    let optimizedKeys := updateKeys s in
    modify (setUpdates (setLength (size optimizedKeys))) ;;;
    if bool_decide (0 < size updateKeys0)%nat && bool_decide (size optimizedKeys = 0%nat)
    then save
    else ret tt.

(** The test of [_optimizeUpdates] on one full key. *)
Definition sameTranslation (o u : Tr.t) : bool :=
  bool_decide (safeValue K (Tr.comment o) = safeValue K (Tr.comment u))
  && bool_decide (safeValue K (Tr.value o) = safeValue K (Tr.value u))
  && bool_decide (default false (Tr.approved o) = default false (Tr.approved u)).

Definition optimizeKey (fullKey : list N) (s : State) : State :=
  match original s !! fullKey, updated s !! fullKey with
  | Some o, Some u =>
      if sameTranslation o u
      then setUpdates (fun x => setAfter (delete fullKey) (setBefore (delete fullKey) x)) s
      else s
  | _, _ => s
  end.

Definition optimizeUpdates : M unit := changeUpdates optimizeKey.

(** Modelled from the spec: the storage primitive [appendLine] of the
    configuration is not part of the sources.  Section 4.5: the encoded
    line is physically appended to the target file.  The file is
    created when it does not exist. *)
Fixpoint appendTo (fileName line : list N) (d : list (list N * list (list N)))
  : list (list N * list (list N)) :=
  match d with
  | [] => [(fileName, [line])]
  | f :: r => if bool_decide (f.1 = fileName) then (f.1, f.2 ++ [line]) :: r
              else f :: appendTo fileName line r
  end.

(** [_appendUpdate].  [_pathTo] joins the directory and the file name
    and throws a [TypeError] on a name that is not a string. *)
Definition appendUpdate (fileName : option (list N)) (line : list N) : M unit :=
  let updateLine := UpdateLine K :: line in
  updateState (toString fileName) updateLine ;;;
  optimizeUpdates ;;;
  match fileName with
  | None => throw TypeError
  | Some name => setDisk (appendTo name updateLine) ;;; emit (AppendLineEv name updateLine)
  end.

Definition validateKey (key : option (list N)) : M (list N) :=
  match key with
  | Some k =>
      if negb (bool_decide (k = [])) && (0 <? Z.of_nat (List.length k))
         && (JS.indexOf (KeyValueSeparator K) k =? -1)
      then ret k
      else throw (InvalidKeyError key)
  | None => throw (InvalidKeyError key)
  end.

(** *** The edit operations *)

(** The wrapper that [initialize] puts around every public function:
    [this[fnName] = (options = {}) => { this._validateAction(fnName,
    options); fn.call(this, options); }].  Calls made through [this]
    inside the class go through it as well. *)
Definition wrapped (fnName : FnName) (fn : Opt.t -> M unit) (options : Opt.t) : M unit :=
  validateAction fnName ;;; fn options.

Definition markerOf (approved : bool) : N :=
  if approved then ApprovedLine K else NotApprovedLine K.

Definition updateValue_body (o : Opt.t) : M unit :=
  key <- validateKey (Opt.key o) ;;
  let line := NotApprovedLine K :: key ++ KeyValueSeparator K :: safeValue K (Opt.value o) in
  appendUpdate (Opt.fileName o) line ;;;
  triggerChange.
Definition updateValue : Opt.t -> M unit := wrapped fn_updateValue updateValue_body.

Definition updateApproved_body (o : Opt.t) : M unit :=
  key <- validateKey (Opt.key o) ;;
  s <- getState ;;
  let approved := default false (Opt.approved o) in
  let value := updated s !! FullKey (toString (Opt.fileName o)) key ≫= Tr.value in
  let line := markerOf approved :: key ++ KeyValueSeparator K :: safeValue K value in
  appendUpdate (Opt.fileName o) line ;;;
  triggerChange.
Definition updateApproved : Opt.t -> M unit := wrapped fn_updateApproved updateApproved_body.

Definition updateComment_body (o : Opt.t) : M unit :=
  key <- validateKey (Opt.key o) ;;
  let line := CommentLine K :: key ++ KeyValueSeparator K :: safeValue K (Opt.comment o) in
  appendUpdate (Opt.fileName o) line ;;;
  triggerChange.
Definition updateComment : Opt.t -> M unit := wrapped fn_updateComment updateComment_body.

Definition updateTranslation_body (o : Opt.t) : M unit :=
  key <- validateKey (Opt.key o) ;;
  let approved := default false (Opt.approved o) in
  let commentLine := CommentLine K :: key ++ KeyValueSeparator K :: safeValue K (Opt.comment o) in
  let valueLine := markerOf approved :: key ++ KeyValueSeparator K :: safeValue K (Opt.value o) in
  appendUpdate (Opt.fileName o) commentLine ;;;
  appendUpdate (Opt.fileName o) valueLine ;;;
  triggerChange.
Definition updateTranslation : Opt.t -> M unit :=
  wrapped fn_updateTranslation updateTranslation_body.

(** A string is truthy when it is defined and not empty. *)
Definition truthy (o : option (list N)) : bool :=
  match o with
  | Some s => negb (bool_decide (s = []))
  | None => false
  end.

(** The callback of [revert]. *)
Definition revertKey (fileName key : option (list N)) (fullKey : list N) (s : State) : State :=
  let splitKey := splitFK K fullKey in
  if truthy fileName && negb (bool_decide (fileName = splitKey !! 0%nat))
     || truthy key && negb (bool_decide (key = splitKey !! 1%nat))
  then s
  else
    let s :=
      match original s !! fullKey with
      | Some o => setUpdated (insert fullKey o) s
      | None => setUpdated (delete fullKey) s
      end in
    setUpdates (fun u => setBefore (delete fullKey) (setAfter (delete fullKey) u)) s.

Definition revert_body (o : Opt.t) : M unit :=
  changeUpdates (revertKey (Opt.fileName o) (Opt.key o)).
Definition revert : Opt.t -> M unit := wrapped fn_revert revert_body.

(** *** The structural operations *)

Definition deleteKey_body (o : Opt.t) : M unit :=
  key <- validateKey (Opt.key o) ;;
  s <- getState ;;
  let removed := SortedArray.remove key (keys s) in
  modify (setKeys (fun _ => removed.2)) ;;;
  if removed.1 then
    d <- getDisk ;;
    forOf (findI18nFiles d).*1
      (fun name => appendUpdate (Some name) (DeleteKeyLine K :: key)) ;;;
    triggerChange
  else ret tt.
Definition deleteKey : Opt.t -> M unit := wrapped fn_deleteKey deleteKey_body.

(** [Object.assign({ fileName, key: toKey }, translation)]: the
    properties of the translation, its [key] among them, overwrite those
    of the first object. *)
Definition assign (fileName toKey : list N) (translation : option Tr.t) : Opt.t :=
  match translation with
  | Some t =>
      {| Opt.fileName := Some fileName; Opt.key := Some (Tr.key t);
         Opt.value := Tr.value t; Opt.comment := Tr.comment t;
         Opt.approved := Tr.approved t;
         Opt.fromKey := None; Opt.toKey := None; Opt.auto := false |}
  | None =>
      {| Opt.fileName := Some fileName; Opt.key := Some toKey;
         Opt.value := None; Opt.comment := None; Opt.approved := None;
         Opt.fromKey := None; Opt.toKey := None; Opt.auto := false |}
  end.

Definition copyKey_body (o : Opt.t) : M unit :=
  if bool_decide (Opt.fromKey o = Opt.toKey o) then ret tt
  else
    fromKey <- validateKey (Opt.fromKey o) ;;
    toKey <- validateKey (Opt.toKey o) ;;
    d <- getDisk ;;
    let files := (findI18nFiles d).*1 in
    if bool_decide (List.length files = 0%nat) then throw NoI18nFilesError
    else
      s <- getState ;;
      if SortedArray.indexOf fromKey (keys s) =? -1 then throw (KeyNotExistError fromKey)
      else
        let sortedIndex := SortedArray.sortedIndexOf toKey (keys s) in
        if sortedIndex =? -1 then throw (KeyExistError toKey)
        else
          modify (setKeys (SortedArray.insert (Z.to_nat sortedIndex) toKey)) ;;;
          forOf files (fun name =>
            s <- getState ;;
            let fullKey := FullKey name fromKey in
            updateTranslation (assign name toKey (updated s !! fullKey))).
Definition copyKey : Opt.t -> M unit := wrapped fn_copyKey copyKey_body.

(** [this.deleteKey({ fromKey })] passes an object whose only property
    is [fromKey]. *)
Definition onlyFromKey (fromKey : list N) : Opt.t :=
  {| Opt.fileName := None; Opt.key := None; Opt.value := None; Opt.comment := None;
     Opt.approved := None; Opt.fromKey := Some fromKey; Opt.toKey := None;
     Opt.auto := false |}.

Definition fromTo (fromKey toKey : list N) : Opt.t :=
  {| Opt.fileName := None; Opt.key := None; Opt.value := None; Opt.comment := None;
     Opt.approved := None; Opt.fromKey := Some fromKey; Opt.toKey := Some toKey;
     Opt.auto := false |}.

Definition renameKey_body (o : Opt.t) : M unit :=
  if bool_decide (Opt.fromKey o = Opt.toKey o) then ret tt
  else
    fromKey <- validateKey (Opt.fromKey o) ;;
    toKey <- validateKey (Opt.toKey o) ;;
    copyKey (fromTo fromKey toKey) ;;;
    deleteKey (onlyFromKey fromKey).
Definition renameKey : Opt.t -> M unit := wrapped fn_renameKey renameKey_body.

(** [this.updateValue(file.name, key)] passes the file name, a string,
    as the options. *)
Definition addKey_body (o : Opt.t) : M unit :=
  key <- validateKey (Opt.key o) ;;
  s <- getState ;;
  let sortedIndex := SortedArray.sortedIndexOf key (keys s) in
  if sortedIndex =? -1 then throw (KeyExistError key)
  else
    d <- getDisk ;;
    let files := (findI18nFiles d).*1 in
    if bool_decide (List.length files = 0%nat) then throw NoI18nFilesError
    else
      modify (setKeys (SortedArray.insert (Z.to_nat sortedIndex) key)) ;;;
      forOf files (fun name => updateValue Opt.none).
Definition addKey : Opt.t -> M unit := wrapped fn_addKey addKey_body.

(** Modelled from the spec: the storage primitives [createFile] and
    [deleteFile] of the configuration are not part of the sources.
    Section 4.6: they create and delete the physical file. *)
Definition createFile (fileName : list N) (d : list (list N * list (list N)))
  : list (list N * list (list N)) :=
  filter (fun f => f.1 ≠ fileName) d ++ [(fileName, [])].
Definition removeFile (fileName : list N) (d : list (list N * list (list N)))
  : list (list N * list (list N)) :=
  filter (fun f => f.1 ≠ fileName) d.

Definition addFile_body (o : Opt.t) : M unit :=
  let fileName := default [] (Opt.fileName o) in
  s <- getState ;;
  if negb (bool_decide (length (updates s) = 0%nat)) then throw UnappliedChangesError
  else if Z.of_nat (List.length fileName) <=? 0 then throw InvalidFileEmpty
  else
    d <- getDisk ;;
    if bool_decide (fileName ∈ (findI18nFiles d).*1) then throw (InvalidFileExists fileName)
    else
      setDisk (createFile fileName) ;;;
      emit (CreateFileEv fileName) ;;;
      save.
Definition addFile : Opt.t -> M unit := wrapped fn_addFile addFile_body.

Definition deleteFile_body (o : Opt.t) : M unit :=
  let fileName := default [] (Opt.fileName o) in
  s <- getState ;;
  if negb (bool_decide (length (updates s) = 0%nat)) then throw UnappliedChangesError
  else
    d <- getDisk ;;
    if negb (bool_decide (fileName ∈ (findI18nFiles d).*1)) then ret tt
    else
      setDisk (removeFile fileName) ;;;
      emit (DeleteFileEv fileName) ;;;
      save.
Definition deleteFile : Opt.t -> M unit := wrapped fn_deleteFile deleteFile_body.

(** *** load *)

(** The sets [load] keeps while it reads: [keys] over all files, in
    insertion order; [valueKeys] and [commentKeys] per file. *)
Record ReadSets := {
  seenKeys : list (list N);
  valueKeys : gset (list N);
  commentKeys : gset (list N)
}.

(** [Set.prototype.add] on a set kept in insertion order. *)
Definition setAdd (k : list N) (l : list (list N)) : list (list N) :=
  if bool_decide (k ∈ l) then l else l ++ [k].

(** The [try] block for one baseline line; the [catch] adds the file
    name and the line number to an error that carries [stateError]. *)
Definition readBaseline (fileName : list N) (lineNumber : nat) (line : list N)
  (sets : ReadSets) : M ReadSets :=
  let rethrow {A} (c : Cause) : M A :=
    throw (StateErr {| cause := c; location := Some (fileName, lineNumber) |}) in
  match parseLine line 0 with
  | inl c => rethrow c
  | inr parsedLine =>
      let fullKey := FullKey fileName (pkey parsedLine) in
      modify (resolveTranslation fullKey parsedLine TOriginal) ;;;
      if (type parsedLine =? CommentLine K)%N then
        if bool_decide (pkey parsedLine ∈ commentKeys sets)
        then rethrow (DuplicateKeyError (type parsedLine :: pkey parsedLine))
        else ret {| seenKeys := setAdd (pkey parsedLine) (seenKeys sets);
                    valueKeys := valueKeys sets;
                    commentKeys := {[pkey parsedLine]} ∪ commentKeys sets |}
      else
        if bool_decide (pkey parsedLine ∈ valueKeys sets)
        then rethrow (DuplicateKeyError (type parsedLine :: pkey parsedLine))
        else ret {| seenKeys := setAdd (pkey parsedLine) (seenKeys sets);
                    valueKeys := {[pkey parsedLine]} ∪ valueKeys sets;
                    commentKeys := commentKeys sets |}
  end.

(** [while (line = reader.next())]: the loop ends at the end of the
    file and also at the first empty line, which is falsy.  Returns the
    sets and the update lines put aside. *)
Fixpoint readLines (fileName : list N) (lineNumber : nat) (lines : list (list N))
  (sets : ReadSets) (updateLines : list (list N)) : M (ReadSets * list (list N)) :=
  match lines with
  | [] => ret (sets, updateLines)
  | [] :: _ => ret (sets, updateLines)
  | line :: rest =>
      let lineNumber := S lineNumber in
      if bool_decide (line !! 0%nat = Some (UpdateLine K))
      then readLines fileName lineNumber rest sets (updateLines ++ [line])
      else
        sets <- readBaseline fileName lineNumber line sets ;;
        readLines fileName lineNumber rest sets updateLines
  end.

(** The body of the loop over the files; returns the set [keys]. *)
Fixpoint loadFiles (files : list (list N * list (list N))) (keys : list (list N))
  : M (list (list N)) :=
  match files with
  | [] => ret keys
  | file :: rest =>
      r <- readLines file.1 0 file.2
             {| seenKeys := keys; valueKeys := ∅; commentKeys := ∅ |} [] ;;
      forOf r.2 (fun line => updateState file.1 line) ;;;
      loadFiles rest (seenKeys r.1)
  end.

Definition load_body (o : Opt.t) : M unit :=
  modify (fun _ => resetState) ;;;
  tryFinally
    (tryCatch
       (d <- getDisk ;;
        keys <- loadFiles (findI18nFiles d) [] ;;
        optimizeUpdates ;;;
        modify (setKeys (fun _ => keys)))
       (fun e => match e with
                 | StateErr se => modify (setError (Some se))
                 | _ => throw e
                 end))
    (setLoaded true) ;;;
  triggerChange ;;;
  autoExport.
Definition load : Opt.t -> M unit := wrapped fn_load load_body.

Definition save_public : Opt.t -> M unit := wrapped fn_save (fun _ => save_body).

(** *** connect and export

    The watcher, the exporter and the dynamic import are collaborators:
    the model keeps what these functions do to the state and records
    the call.  The configured directory exists. *)
Definition connect_body (o : Opt.t) : M unit :=
  s <- getState ;;
  (if negb (loaded s) then load Opt.none else ret tt) ;;;
  emit WatchEv.
Definition connect : Opt.t -> M unit := wrapped fn_connect connect_body.

Definition export_body (o : Opt.t) : M unit :=
  d <- getDisk ;;
  w <- (fun w => (Return (exporter w), w)) ;;
  let exportFile := bool_decide (I18nJs K ∈ d.*1) in
  if negb exportFile && negb w then ret tt
  else
    s <- getState ;;
    (if Opt.auto o
     then (if negb (loaded s) then throw NotLoadedError else ret tt)
     else (if negb (loaded s) then load Opt.none else ret tt)) ;;;
    s <- getState ;;
    match error s with
    | Some e => throw (NotResolvedError e)
    | None => emit ExportEv
    end.
Definition export : Opt.t -> M unit := wrapped fn_export export_body.

(** The public functions, as a caller of the engine sees them. *)
Definition call (fnName : FnName) : Opt.t -> M unit :=
  match fnName with
  | fn_connect => connect
  | fn_load => load
  | fn_save => save_public
  | fn_export => export
  | fn_addFile => addFile
  | fn_deleteFile => deleteFile
  | fn_addKey => addKey
  | fn_copyKey => copyKey
  | fn_renameKey => renameKey
  | fn_deleteKey => deleteKey
  | fn_updateValue => updateValue
  | fn_updateApproved => updateApproved
  | fn_updateComment => updateComment
  | fn_updateTranslation => updateTranslation
  | fn_revert => revert
  end.

End I18n.

(** The engine as [initialize] leaves it, over a directory. *)
Definition initialize (d : list (list N * list (list N))) : World :=
  {| state := resetState; disk := d; trace := []; exporter := false |}.

(** ** Notions used in the statements *)

(** The directory after [save] has rewritten the locale files from the
    state [s]. *)
Definition savedDisk (K : Constants) (s : State) (d : list (list N * list (list N)))
  : list (list N * list (list N)) :=
  map (fun f : list N * list (list N) =>
         if FileNameRegExp K f.1 then (f.1, saveFile K s (findI18nFiles K d).*1 f.1) else f) d.

(** The world a successful [save] leaves. *)
Definition saved (K : Constants) (w : World) : World :=
  {| state := resetUpdates (state w);
     disk := savedDisk K (state w) (disk w);
     trace := trace w ++ [SaveEv; TriggerChangeEv; AutoExportEv];
     exporter := exporter w |}.

(** The state transition of [_updateState] for a parsed line. *)
Definition applyLine (K : Constants) (fileName : list N) (p : ParsedLine) (s : State) : State :=
  let fullKey := FullKey K fileName (pkey p) in
  let s1 := setUpdates (fun u => setBefore (insert fullKey (original s !! fullKey))
                                   (setLength (S (length u)) u)) s in
  if (type p =? DeleteKeyLine K)%N then
    setKeys (fun a => (SortedArray.remove (pkey p) a).2)
      (setUpdated (delete fullKey) (setUpdates (setAfter (delete fullKey)) s1))
  else resolveTranslation K fullKey p TAfter s1.

(** A map without the keys that satisfy [p], and a map that takes the
    entries of [o] at those keys and of [u] elsewhere. *)
Definition dropKeys {V} (p : list N -> bool) (m : gmap (list N) V) : gmap (list N) V :=
  filter (fun kv => p kv.1 = false) m.
Definition restoreKeys {V} (p : list N -> bool) (o u : gmap (list N) V) : gmap (list N) V :=
  filter (fun kv => p kv.1 = true) o ∪ dropKeys p u.

(** The test of the optimizer at a full key: both entries exist and
    agree on comment, value and approval. *)
Definition optimizable (K : Constants) (s : State) (fullKey : list N) : bool :=
  match original s !! fullKey, updated s !! fullKey with
  | Some o, Some u => sameTranslation K o u
  | _, _ => false
  end.

(** The state after the traversal of the optimizer. *)
Definition optimized (K : Constants) (s : State) : State :=
  setUpdates (fun u => setAfter (dropKeys (optimizable K s))
                         (setBefore (dropKeys (optimizable K s)) u)) s.

(** The scope test of [revert] at a full key. *)
Definition reverts (K : Constants) (fileName key : option (list N)) (fullKey : list N) : bool :=
  negb (truthy fileName && negb (bool_decide (fileName = splitFK K fullKey !! 0%nat))
        || truthy key && negb (bool_decide (key = splitFK K fullKey !! 1%nat))).

(** The state after the traversal of [revert]. *)
Definition reverted (K : Constants) (fileName key : option (list N)) (s : State) : State :=
  let p fullKey := reverts K fileName key fullKey && bool_decide (fullKey ∈ updateKeys s) in
  setUpdates (fun u => setAfter (dropKeys p) (setBefore (dropKeys p) u))
    (setUpdated (restoreKeys p (original s)) s).

(** [updates.length] is the number of full keys of the log. *)
Definition lengthAgrees (s : State) : Prop :=
  length (updates s) = size (updateKeys s).

(** A caller's step: a call of a public function, or a change of the
    files made outside the engine. *)
Inductive Step :=
| Call (fnName : FnName) (options : Opt.t)
| Outside (d : list (list N * list (list N))).

Definition runStep (K : Constants) (st : Step) (w : World) : World :=
  match st with
  | Call fnName options => (call K fnName options w).2
  | Outside d => {| state := state w; disk := d; trace := trace w; exporter := exporter w |}
  end.

Definition runSteps (K : Constants) (sts : list Step) (w : World) : World :=
  foldl (fun w st => runStep K st w) w sts.

(** The four edit operations. *)
Definition isEdit (fnName : FnName) : bool :=
  match fnName with
  | fn_updateValue | fn_updateApproved | fn_updateComment | fn_updateTranslation => true
  | _ => false
  end.

(** The public functions behind the validation gate. *)
Definition gated (fnName : FnName) : bool :=
  match fnName with
  | fn_load | fn_connect | fn_export => false
  | _ => true
  end.

(** A string free of white space at its ends and of line feeds. *)
Definition normalized (s : list N) : Prop :=
  JS.edgeFree s = true /\ JS.LF ∉ s.

(** Where the entry stored by an edit is found afterwards: in the
    working map, or in the baseline when the edit made the log empty
    and [save] turned the working map into the baseline. *)
Definition storedAt (s : State) (fullKey : list N) (e : Tr.t) : Prop :=
  updated s !! fullKey = Some e
  \/ (updated s = ∅ /\ original s !! fullKey = Some e).

(** The four line kinds have different markers. *)
Definition distinctMarkers (K : Constants) : Prop :=
  NoDup [CommentLine K; ApprovedLine K; NotApprovedLine K; DeleteKeyLine K].

(** What an edit operation called with the options [o] in the state
    [s0] has put in the entry [e] at its full key. *)
Definition written (K : Constants) (fnName : FnName) (o : Opt.t) (s0 : State)
  (fullKey : list N) (e : Tr.t) : Prop :=
  match fnName with
  | fn_updateValue =>
      Tr.value e = Some (safeValue K (Opt.value o))
      /\ normalized (safeValue K (Opt.value o))
  | fn_updateApproved =>
      Tr.value e = Some (safeValue K (updated s0 !! fullKey ≫= Tr.value))
      /\ normalized (safeValue K (updated s0 !! fullKey ≫= Tr.value))
  | fn_updateComment =>
      Tr.comment e = Some (safeValue K (Opt.comment o))
      /\ normalized (safeValue K (Opt.comment o))
  | fn_updateTranslation =>
      Tr.value e = Some (safeValue K (Opt.value o))
      /\ normalized (safeValue K (Opt.value o))
      /\ (Tr.comment e = Some (safeValue K (Opt.comment o)) \/ Tr.comment e = None)
      /\ normalized (safeValue K (Opt.comment o))
  | _ => False
  end.

(** Invariants of a computation: [keeps I m] when [m] leaves a state
    that satisfies [I] whenever it starts in one, whether it returns or
    throws; [throwsStateErr m] when every error [m] throws carries
    [stateError]. *)
Definition keeps {A} (I : State -> Prop) (m : M A) : Prop :=
  forall w, I (state w) -> I (state (m w).2).

Definition throwsStateErr {A} (m : M A) : Prop :=
  forall w e w', m w = (Throw e, w') -> exists se, e = StateErr se.

(** The state inside a gated function, and between two calls. *)
Definition opened (s : State) : Prop := loaded s = true /\ error s = None.
Definition ready (s : State) : Prop :=
  loaded s = true /\ error s = None /\ lengthAgrees s.
Definition settled (s : State) : Prop := error s = None -> lengthAgrees s.

(** The state while [load] reads the files. *)
Definition unloaded (s : State) : Prop := loaded s = false /\ error s = None.
Definition reading (s : State) : Prop :=
  loaded s = false /\ error s = None
  /\ (updateKeys s = ∅ -> length (updates s) = 0%nat).

(** The set [load] checks a parsed baseline line against. *)
Definition kindKeys (K : Constants) (p : ParsedLine) (sets : ReadSets) : gset (list N) :=
  if (type p =? CommentLine K)%N then commentKeys sets else valueKeys sets.

(** An entry whose value and comment, when set, are normalized, and a
    log whose entries are. *)
Definition normalizedEntry (e : Tr.t) : Prop :=
  (forall x, Tr.value e = Some x -> normalized x)
  /\ (forall x, Tr.comment e = Some x -> normalized x).

Definition normalizedLog (s : State) : Prop :=
  forall fullKey e, after (updates s) !! fullKey = Some e -> normalizedEntry e.

(** ** Locale files in the form [save] writes

    A sheet gives, for the keys in their order, whether the key carries
    comment lines, and for each file and key the comment, the value and
    the approval.  [sheetLines] is the content of one file: for each
    key the comment line, when the key is commented, and the value
    line. *)
Record Sheet := {
  sheetKeys : list (list N);
  commented : list N -> bool;
  commentOf : list N -> list N -> list N;
  valueOf : list N -> list N -> list N;
  approvedOf : list N -> list N -> bool
}.

Definition sheetKeyLines (K : Constants) (sh : Sheet) (fileName key : list N)
  : list (list N) :=
  (if commented sh key
   then [CommentLine K :: key ++ KeyValueSeparator K :: commentOf sh fileName key]
   else [])
  ++ [markerOf K (approvedOf sh fileName key)
        :: key ++ KeyValueSeparator K :: valueOf sh fileName key].

Definition sheetLines (K : Constants) (sh : Sheet) (fileName : list N) : list (list N) :=
  flat_map (sheetKeyLines K sh fileName) (sheetKeys sh).

Definition sheetEntry (sh : Sheet) (fileName key : list N) : Tr.t :=
  {| Tr.key := key;
     Tr.value := Some (valueOf sh fileName key);
     Tr.comment := if commented sh key then Some (commentOf sh fileName key) else None;
     Tr.approved := Some (approvedOf sh fileName key) |}.

(** The locale files of a directory follow a sheet: distinct file names
    without the full-key separator, distinct keys without the key/value
    separator, every locale file made of the lines of the sheet, and
    for every key a file whose comment (for a commented key) or value
    (for the others) is not blank. *)
Record canonical (K : Constants) (sh : Sheet) (d : list (list N * list (list N))) : Prop := {
  canonical_names : NoDup (findI18nFiles K d).*1;
  canonical_names_sep : forall n, n ∈ (findI18nFiles K d).*1 -> FullKeySeparator K ∉ n;
  canonical_keys : NoDup (sheetKeys sh);
  canonical_keys_sep : forall k, k ∈ sheetKeys sh -> KeyValueSeparator K ∉ k;
  canonical_lines : forall f, f ∈ findI18nFiles K d -> f.2 = sheetLines K sh f.1;
  canonical_shown : forall k, k ∈ sheetKeys sh ->
    exists n, n ∈ (findI18nFiles K d).*1
              /\ nonBlank (Some (if commented sh k then commentOf sh n k else valueOf sh n k)) = true
}.

(** The markers of comment and value lines are neither the update
    prefix nor the key/value separator, and the four markers differ. *)
Definition plainMarkers (K : Constants) : Prop :=
  distinctMarkers K
  /\ Forall (fun m => m <> UpdateLine K /\ m <> KeyValueSeparator K)
       [CommentLine K; ApprovedLine K; NotApprovedLine K].

(** The entry of a sheet put in the baseline and in the working map,
    as [load] does for a baseline line. *)
Definition putEntry (fullKey : list N) (e : Tr.t) (s : State) : State :=
  setUpdated (insert fullKey e) (setOriginal (insert fullKey e) s).

Definition putSheet (K : Constants) (sh : Sheet) (fileName : list N) (s : State) : State :=
  foldl (fun s k => putEntry (FullKey K fileName k) (sheetEntry sh fileName k) s) s
    (sheetKeys sh).

Definition readKey (sh : Sheet) (k : list N) (sets : ReadSets) : ReadSets :=
  {| seenKeys := setAdd k (seenKeys sets);
     valueKeys := {[k]} ∪ valueKeys sets;
     commentKeys := if commented sh k then {[k]} ∪ commentKeys sets else commentKeys sets |}.

(** [keys.add] for every key of a list. *)
Definition addKeys (l ks : list (list N)) : list (list N) :=
  foldl (fun l k => setAdd k l) l ks.

(** ** Examples

    The scenario of section 8 of the specification: two locale files,
    each with the approved line [+hello=Hi], loaded by a fresh engine. *)
Definition exampleDisk : list (list N * list (list N)) :=
  [(JS.lit "app.en", [JS.lit "+hello=Hi"]); (JS.lit "app.fr", [JS.lit "+hello=Hi"])].

Definition exampleWorld : World :=
  (load sample Opt.none (initialize exampleDisk)).2.

Definition exampleSheet : Sheet :=
  {| sheetKeys := [JS.lit "hello"];
     commented := fun _ => false;
     commentOf := fun _ _ => [];
     valueOf := fun _ _ => JS.lit "Hi";
     approvedOf := fun _ _ => true |}.

(** Options objects of the examples. *)
Definition options (fileName key value : option (list N)) : Opt.t :=
  {| Opt.fileName := fileName; Opt.key := key; Opt.value := value; Opt.comment := None;
     Opt.approved := None; Opt.fromKey := None; Opt.toKey := None; Opt.auto := false |}.

(** A file with a comment line and no value line, a file with the same
    value line twice, and a file whose log holds two updates of one key
    and a malformed line. *)
Definition commentOnlyDisk : list (list N * list (list N)) :=
  [(JS.lit "app.en", [JS.lit "#k=c"])].
Definition duplicateDisk : list (list N * list (list N)) :=
  [(JS.lit "app.en", [JS.lit "+k=a"; JS.lit "+k=b"])].
Definition brokenLogDisk : list (list N * list (list N)) :=
  [(JS.lit "app.en", [JS.lit "~-k=a"; JS.lit "~-k=b"; JS.lit "~?"])].

(** A file whose log holds a comment written with spaces around it,
    as an editor outside the engine can leave it. *)
Definition paddedLogDisk : list (list N * list (list N)) :=
  [(JS.lit "app.en", [JS.lit "+k=v"; JS.lit "~#k= c "])].

(** ** The diff of words

    [diffWords] and the [Diff] object behind it, in the synchronous mode
    (options without [callback]).  Tokens are strings; a position in a
    list of tokens is an integer, [-1] before the first token, as in
    the source. *)

Module Diff.

(** A change object [{ count, added, removed, value }].  [added] and
    [removed] are [true] or not set; [value] is set by [buildValues]. *)
Record Component := {
  count : nat;
  added : bool;
  removed : bool;
  value : option (list N)
}.

(** A path [{ newPos, components }]. *)
Record Path := {
  newPos : Z;
  components : list Component
}.

(** The options of the caller.  [maxEditLength] is a number; [0] also
    stands for an option that is not given, both being falsy. *)
Record Options := {
  ignoreCase : bool;
  maxEditLength : Z
}.

(** [array[i]] for an integer index: [undefined] out of range. *)
Definition at_ {A} (array : list A) (i : Z) : option A :=
  if i <? 0 then None else array !! Z.to_nat i.

(** [removeEmpty]: the tokens that are not the empty string. *)
Definition removeEmpty (array : list (list N)) : list (list N) :=
  filter (fun t => t <> []) array.

(** [join]: [chars.join('')]. *)
Definition join (chars : list (list N)) : list N := concat chars.

(** [pushComponent].  The last component is replaced by a new object
    when it has the same flags. *)
Definition pushComponent (components : list Component) (added removed : bool)
  : list Component :=
  match last components with
  | Some l =>
      if bool_decide (Diff.added l = added) && bool_decide (Diff.removed l = removed)
      then <[(List.length components - 1)%nat :=
               {| count := count l + 1; added := added; removed := removed; value := None |}]>
             components
      else components ++ [{| count := 1; added := added; removed := removed; value := None |}]
  | None => components ++ [{| count := 1; added := added; removed := removed; value := None |}]
  end.

(** [clonePath] copies the array of components; the change objects are
    shared, and no function changes one in place before [buildValues]. *)
Definition clonePath (path : Path) : Path :=
  {| newPos := newPos path; components := components path |}.

(** *** The tokens of [wordDiff] *)

(** [\w] of a regular expression without the [u] and [i] flags. *)
Definition isWordChar (c : N) : bool :=
  ((48 <=? c) && (c <=? 57) || (65 <=? c) && (c <=? 90) || (c =? 95)
   || (97 <=? c) && (c <=? 122))%N.

(** The class of the separator expression: white space, the round,
    square and curly brackets, the single and the double quote, the
    carriage return, the line feed and the underscore. *)
Definition isSeparator (c : N) : bool :=
  (JS.isWhiteSpace c || (c =? 40) || (c =? 41) || (c =? 91) || (c =? 93) || (c =? 123)
   || (c =? 125) || (c =? 39) || (c =? 34) || (c =? 13) || (c =? 10) || (c =? 95))%N.

(** [\b] between the character [prev] (none at the start) and [c]. *)
Definition boundary (prev : option N) (c : N) : bool :=
  xorb (match prev with Some p => isWordChar p | None => false end) (isWordChar c).

(** [value.split(separator)], where the separator expression is one
    capture group: a character of the class or, if there is none, a
    word boundary [\b].  The expression is tried
    at every position [q] after the end [p] of the last match: a
    character of the class is a match of length one; otherwise a word
    boundary is an empty match, which [split] takes only when [q] is
    not [p].  A match ends the current piece, and its text, captured by
    the group, follows the piece in the result.  [cur] is the piece
    from [p] to [q] and [prev] the character before [q]. *)
Fixpoint split (prev : option N) (cur : list N) (s : list N) : list (list N) :=
  match s with
  | [] => [cur]
  | c :: r =>
      if isSeparator c then cur :: [c] :: split (Some c) [] r
      else if boundary prev c && negb (bool_decide (cur = []))
           then cur :: [] :: split (Some c) [c] r
           else split (Some c) (cur ++ [c]) r
  end.

(** [extendedWordChars.test(token)]: a token that is not empty and made
    of letters of the ranges of the expression.  With the [u] flag the
    expression reads code points; every range lies below the
    surrogates, so the test is the same on code units. *)
Definition isExtendedWordChar (c : N) : bool :=
  ((97 <=? c) && (c <=? 122) || (65 <=? c) && (c <=? 90) || (192 <=? c) && (c <=? 255)
   || (216 <=? c) && (c <=? 246) || (248 <=? c) && (c <=? 710)
   || (712 <=? c) && (c <=? 727) || (734 <=? c) && (c <=? 767)
   || (7680 <=? c) && (c <=? 7935))%N.

Definition extendedWordChars (token : list N) : bool :=
  negb (bool_decide (token = [])) && forallb isExtendedWordChar token.

(** The loop of [wordDiff.tokenize], at the index of the token [t]
    followed by [rest]: when the next token is empty and the one after
    it is not, and both [t] and that one are words, they are joined
    and the loop stays at the same index. *)
Fixpoint mergeWords (t : list N) (rest : list (list N)) : list (list N) :=
  match rest with
  | [] => [t]
  | t1 :: rest1 =>
      match rest1 with
      | [] => [t; t1]
      | t2 :: rest2 =>
          if bool_decide (t1 = []) && negb (bool_decide (t2 = []))
             && extendedWordChars t && extendedWordChars t2
          then mergeWords (t ++ t2) rest2
          else t :: mergeWords t1 rest1
      end
  end.

(** [wordDiff.tokenize] *)
Definition tokenize (value : list N) : list (list N) :=
  match split None [] value with
  | t :: rest => mergeWords t rest
  | [] => []
  end.

Section Differ.

(** [String.prototype.toLowerCase], which follows the case mappings of
    Unicode, is a parameter. *)
Context (toLowerCase : list N -> list N).
Context (options : Options).

(** [wordDiff.equals] *)
Definition equals (left right : list N) : bool :=
  if ignoreCase options
  then bool_decide (toLowerCase left = toLowerCase right)
  else bool_decide (left = right).

Context (newString oldString : list (list N)).

Definition newLen : Z := Z.of_nat (List.length newString).
Definition oldLen : Z := Z.of_nat (List.length oldString).

(** The condition of the loop of [extractCommon].  Both tokens compared
    are in range: the guards bound the indices from above, and
    positions start at [-1] and only grow. *)
Definition sameNext (newPos oldPos : Z) : bool :=
  (newPos + 1 <? newLen) && (oldPos + 1 <? oldLen)
  && match at_ newString (newPos + 1), at_ oldString (oldPos + 1) with
     | Some l, Some r => equals l r
     | _, _ => false
     end.

(** The loop of [extractCommon].  It runs while [newPos + 1 < newLen],
    so at most [newLen - 1 - newPos] times. *)
Fixpoint commonRun (fuel : nat) (newPos oldPos : Z) (commonCount : nat) : Z * Z * nat :=
  match fuel with
  | O => (newPos, oldPos, commonCount)
  | S fuel' =>
      if sameNext newPos oldPos
      then commonRun fuel' (newPos + 1) (oldPos + 1) (S commonCount)
      else (newPos, oldPos, commonCount)
  end.

(** [extractCommon]: the path it leaves and the [oldPos] it returns. *)
Definition extractCommon (basePath : Path) (diagonalPath : Z) : Path * Z :=
  let newPos := Diff.newPos basePath in
  let oldPos := newPos - diagonalPath in
  let '(newPos, oldPos, commonCount) :=
    commonRun (Z.to_nat (newLen - 1 - newPos)) newPos oldPos 0 in
  ({| newPos := newPos;
      components :=
        if bool_decide (commonCount = 0%nat) then components basePath
        else components basePath
             ++ [{| count := commonCount; added := false; removed := false; value := None |}] |},
   oldPos).

(** [buildValues].  [useLongestToken] is read from the [Diff] object,
    where nothing sets it: its branch is not taken.  [done] holds the
    components before [componentPos], which have their value. *)
Fixpoint buildLoop (components done : list Component) (newPos oldPos : nat)
  : list Component :=
  match components with
  | [] => done
  | component :: rest =>
      if negb (removed component) then
        let valued :=
          {| count := count component; added := added component;
             removed := removed component;
             value := Some (join (take (count component) (drop newPos newString))) |} in
        buildLoop rest (done ++ [valued]) (newPos + count component)
          (if negb (added component) then oldPos + count component else oldPos)
      else
        let valued :=
          {| count := count component; added := added component;
             removed := removed component;
             value := Some (join (take (count component) (drop oldPos oldString))) |} in
        let done :=
          match last done with
          | Some previous =>
              if added previous
              then take (List.length done - 1) done ++ [valued; previous]
              else done ++ [valued]
          | None => done ++ [valued]
          end in
        buildLoop rest done newPos (oldPos + count component)
  end.

Definition buildValues (components : list Component) : list Component :=
  let components := buildLoop components [] 0 0 in
  match last components, last (take (List.length components - 1) components) with
  | Some lastComponent, Some previous =>
      if (added lastComponent || removed lastComponent)
         && match value lastComponent with Some v => equals [] v | None => false end
      then take (List.length components - 2) components
           ++ [{| count := count previous; added := added previous;
                  removed := removed previous;
                  value := Some (default [] (value previous)
                                 ++ default [] (value lastComponent)) |}]
      else components
  | _, _ => components
  end.

(** The two ways of [execEditLength] to start the path of a diagonal:
    from the path [removePath], cloned, with one more token removed;
    from the path [addPath] itself, moved by one token that is added. *)
Definition removeStep (removePath : Path) : Path :=
  let basePath := clonePath removePath in
  {| newPos := newPos basePath;
     components := pushComponent (components basePath) false true |}.

Definition addStep (addPath : Path) : Path :=
  {| newPos := newPos addPath + 1;
     components := pushComponent (components addPath) true false |}.

(** The end of a turn, once [basePath] is chosen: the common tokens are
    stepped over, and the path either has reached both ends, and its
    components are returned with their values, or is kept. *)
Definition advance (bestPath : gmap Z Path) (diagonalPath : Z) (basePath : Path)
  : list Component + gmap Z Path :=
  let '(basePath, oldPos) := extractCommon basePath diagonalPath in
  if (newLen <=? newPos basePath + 1) && (oldLen <=? oldPos + 1)
  then inl (buildValues (components basePath))
  else inr (<[diagonalPath := basePath]> bestPath).

(** One turn of the loop of [execEditLength], for the diagonal
    [diagonalPath]: the components to return, or the paths kept.
    [canAdd] and [canRemove] hold the path they were computed from when
    they are true. *)
Definition execDiagonal (bestPath : gmap Z Path) (diagonalPath : Z)
  : list Component + gmap Z Path :=
  let addPath := bestPath !! (diagonalPath - 1) in
  let removePath := bestPath !! (diagonalPath + 1) in
  let oldPos := match removePath with Some p => newPos p | None => 0 end - diagonalPath in
  let bestPath := match addPath with
                  | Some _ => delete (diagonalPath - 1) bestPath
                  | None => bestPath
                  end in
  let canAdd := addPath ≫= fun p => if newPos p + 1 <? newLen then Some p else None in
  let canRemove :=
    removePath ≫= fun p => if (0 <=? oldPos) && (oldPos <? oldLen) then Some p else None in
  match canAdd, canRemove with
  | None, None => inr (delete diagonalPath bestPath)
  | None, Some r => advance bestPath diagonalPath (removeStep r)
  | Some a, None => advance bestPath diagonalPath (addStep a)
  | Some a, Some r =>
      if newPos a <? newPos r
      then advance bestPath diagonalPath (removeStep r)
      else advance bestPath diagonalPath (addStep a)
  end.

(** The diagonals of [execEditLength]: [for (d = -editLength;
    d <= editLength; d += 2)], which are [editLength + 1] turns. *)
Fixpoint diagonalsFrom (diagonalPath : Z) (turns : nat) : list Z :=
  match turns with
  | O => []
  | S turns' => diagonalPath :: diagonalsFrom (diagonalPath + 2) turns'
  end.

Definition diagonals (editLength : Z) : list Z :=
  diagonalsFrom (- editLength) (Z.to_nat editLength + 1).

Fixpoint execDiagonals (ds : list Z) (bestPath : gmap Z Path)
  : list Component + gmap Z Path :=
  match ds with
  | [] => inr bestPath
  | d :: ds' =>
      match execDiagonal bestPath d with
      | inl r => inl r
      | inr bestPath' => execDiagonals ds' bestPath'
      end
  end.

(** [while (editLength <= maxEditLength)], which runs at most
    [maxEditLength] times from [editLength = 1]; [None] is the
    [undefined] returned when the loop ends. *)
Fixpoint editLoop (fuel : nat) (editLength : Z) (bestPath : gmap Z Path)
  : option (list Component) :=
  match fuel with
  | O => None
  | S fuel' =>
      match execDiagonals (diagonals editLength) bestPath with
      | inl r => Some r
      | inr bestPath' => editLoop fuel' (editLength + 1) bestPath'
      end
  end.

(** [diff] after the two strings are cut in tokens. *)
Definition diffTokens : option (list Component) :=
  let maxEditLength :=
    if maxEditLength options =? 0 then newLen + oldLen
    else Z.min (newLen + oldLen) (maxEditLength options) in
  let '(path0, oldPos) := extractCommon {| newPos := -1; components := [] |} 0 in
  if (newLen <=? newPos path0 + 1) && (oldLen <=? oldPos + 1)
  then Some [{| count := List.length newString; added := false; removed := false;
                value := Some (join newString) |}]
  else editLoop (Z.to_nat maxEditLength) 1 {[ 0 := path0 ]}.

End Differ.

(** [diffWords(oldStr, newStr, options)] *)
Definition diffWords (toLowerCase : list N -> list N) (oldStr newStr : list N)
  (options : Options) : option (list Component) :=
  diffTokens toLowerCase options
    (removeEmpty (tokenize newStr)) (removeEmpty (tokenize oldStr)).

(** The options [{}]. *)
Definition noOptions : Options := {| ignoreCase := false; maxEditLength := 0 |}.

End Diff.

(** The text that the components of a diff give to the new string (the
    values of those not removed) and to the old string (the values of
    those not added). *)
Definition newText (cs : list Diff.Component) : list N :=
  concat ((fun c => default [] (Diff.value c)) <$> filter (fun c => Diff.removed c = false) cs).
Definition oldText (cs : list Diff.Component) : list N :=
  concat ((fun c => default [] (Diff.value c)) <$> filter (fun c => Diff.added c = false) cs).

(** The number of tokens that components take from the new string and
    from the old string. *)
Definition newCount (cs : list Diff.Component) : nat :=
  sum_list (Diff.count <$> filter (fun c => Diff.removed c = false) cs).
Definition oldCount (cs : list Diff.Component) : nat :=
  sum_list (Diff.count <$> filter (fun c => Diff.added c = false) cs).

(** The components, read from the positions [np] and [op] of the two
    lists of tokens, put the same tokens side by side where they are
    neither added nor removed; no component is both added and removed. *)
Fixpoint aligned (newString oldString : list (list N)) (cs : list Diff.Component)
  (np op : nat) : Prop :=
  match cs with
  | [] => True
  | c :: r =>
      (Diff.added c && Diff.removed c = false)
      /\ (Diff.added c || Diff.removed c = false ->
          take (Diff.count c) (drop np newString) = take (Diff.count c) (drop op oldString))
      /\ aligned newString oldString r
           (if Diff.removed c then np else np + Diff.count c)
           (if Diff.added c then op else op + Diff.count c)
  end.

(** A path kept for the diagonal [d]: its components are aligned and
    take from the two strings the tokens up to its positions, which
    are within the strings. *)
Definition validPath (newString oldString : list (list N)) (d : Z) (p : Diff.Path) : Prop :=
  aligned newString oldString (Diff.components p) 0 0
  /\ Z.of_nat (newCount (Diff.components p)) = Diff.newPos p + 1
  /\ Z.of_nat (oldCount (Diff.components p)) = Diff.newPos p - d + 1
  /\ Diff.newPos p + 1 <= Z.of_nat (List.length newString)
  /\ Diff.newPos p - d + 1 <= Z.of_nat (List.length oldString).

(** Components that are aligned and take all the tokens of the two
    strings: the components of a path that has reached both ends. *)
Definition completeScript (newString oldString : list (list N)) (cs : list Diff.Component)
  : Prop :=
  aligned newString oldString cs 0 0
  /\ newCount cs = List.length newString
  /\ oldCount cs = List.length oldString.

(** What one turn, one edit length or the whole loop of the diff
    yields when every path it starts from is valid: the values built
    for a complete script, or valid paths again. *)
Definition validPaths (newString oldString : list (list N)) (bestPath : gmap Z Diff.Path)
  : Prop :=
  forall d p, bestPath !! d = Some p -> validPath newString oldString d p.

Definition validTurn (lc : list N -> list N) (o : Diff.Options)
  (newString oldString : list (list N)) (r : list Diff.Component + gmap Z Diff.Path)
  : Prop :=
  match r with
  | inl values =>
      exists cs, values = Diff.buildValues lc o newString oldString cs
                 /\ completeScript newString oldString cs
  | inr bestPath => validPaths newString oldString bestPath
  end.





(** ** Notions used in the further properties *)

(** The characters of the line format are told apart: the markers are
    plain, neither the delete marker nor the update prefix is the
    key/value separator, and no character of the format is the line
    feed. *)
Definition plainFormat (K : Constants) : Prop :=
  plainMarkers K
  /\ DeleteKeyLine K <> KeyValueSeparator K
  /\ UpdateLine K <> KeyValueSeparator K
  /\ Forall (fun c => c <> JS.LF)
       [CommentLine K; ApprovedLine K; NotApprovedLine K; DeleteKeyLine K;
        UpdateLine K; KeyValueSeparator K; NewLineSymbol K].

(** A computation that touches nothing but the state of the engine. *)
Definition stateOnly {A} (m : M A) : Prop :=
  forall w, exists s, (m w).2 = withState s w.

(** The registry of keys is empty. *)
Definition unregistered (s : State) : Prop := keys s = [].

(** The options [{ fileName, key, approved: true }]. *)
Definition approve (fileName key : list N) : Opt.t :=
  {| Opt.fileName := Some fileName; Opt.key := Some key; Opt.value := None;
     Opt.comment := None; Opt.approved := Some true; Opt.fromKey := None;
     Opt.toKey := None; Opt.auto := false |}.

(** The options [{ fileName, key, comment }]. *)
Definition annotate (fileName key comment : list N) : Opt.t :=
  {| Opt.fileName := Some fileName; Opt.key := Some key; Opt.value := None;
     Opt.comment := Some comment; Opt.approved := None; Opt.fromKey := None;
     Opt.toKey := None; Opt.auto := false |}.

(** The loaded example after a comment was put on [hello] in [app.fr]:
    the log holds one entry. *)
Definition annotatedWorld : World :=
  (updateComment sample (annotate (JS.lit "app.fr") (JS.lit "hello") (JS.lit " note "))
     exampleWorld).2.

(** The example directory with the update line of an edit that
    restored the baseline, left behind the files that [save] rewrote. *)
Definition restoredDisk : list (list N * list (list N)) :=
  [(JS.lit "app.en", [JS.lit "+hello=Hi"]);
   (JS.lit "app.fr", [JS.lit "+hello=Hi"; JS.lit "~+hello=Hi"])].

(** ** Tactics

    [munfold] unfolds the operations of the monad; [absent_by_computation]
    proves that a character does not occur in a closed string. *)
Ltac munfold :=
  cbv [bind ret throw modify getState getDisk setDisk emit tryCatch tryFinally
       throwState wrapped withState].

Ltac absent_by_computation :=
  let H := fresh in
  intros H; apply list_elem_of_In in H; vm_compute in H; intuition discriminate.

(** * Properties of the engine *)

(** ** Strings, maps and the traversals of the log *)

Section StringFacts.

Implicit Types (s r : list N) (c d : N).

Lemma trimStart_suffix s : JS.trimStart s `suffix_of` s.
Proof.
  induction s as [|x s IH]; simpl; [done|].
  destruct (JS.isWhiteSpace x); [by apply suffix_cons_r | done].
Qed.

Lemma trimStart_head s c : head (JS.trimStart s) = Some c -> JS.isWhiteSpace c = false.
Proof.
  induction s as [|x s IH]; simpl; [done|].
  destruct (JS.isWhiteSpace x) eqn:E; [done|]. simpl. by intros [= <-].
Qed.

Lemma trimStart_id s :
  match head s with Some c => negb (JS.isWhiteSpace c) | None => true end = true ->
  JS.trimStart s = s.
Proof. destruct s as [|c r]; simpl; [done|]. by destruct (JS.isWhiteSpace c). Qed.

Lemma trimEnd_prefix s : JS.trimEnd s `prefix_of` s.
Proof.
  unfold JS.trimEnd. apply prefix_suffix_reverse. rewrite reverse_involutive.
  apply trimStart_suffix.
Qed.

Lemma trimEnd_last s c : last (JS.trimEnd s) = Some c -> JS.isWhiteSpace c = false.
Proof. unfold JS.trimEnd. rewrite last_reverse. apply trimStart_head. Qed.

Lemma trimEnd_id s :
  match last s with Some c => negb (JS.isWhiteSpace c) | None => true end = true ->
  JS.trimEnd s = s.
Proof.
  intros H. unfold JS.trimEnd. rewrite trimStart_id.
  - apply reverse_involutive.
  - by rewrite head_reverse.
Qed.

Lemma trim_edgeFree s : JS.edgeFree s = true -> JS.trim s = s.
Proof.
  unfold JS.edgeFree, JS.trim. intros [H1 H2]%andb_true_iff.
  rewrite (trimStart_id s H1). by apply trimEnd_id.
Qed.

Lemma edgeFree_trim s : JS.edgeFree (JS.trim s) = true.
Proof.
  unfold JS.edgeFree, JS.trim. apply andb_true_iff. split.
  - destruct (head (JS.trimEnd (JS.trimStart s))) as [c|] eqn:E; [|done].
    destruct (trimEnd_prefix (JS.trimStart s)) as [k Hk].
    destruct (JS.trimEnd (JS.trimStart s)) as [|x t] eqn:E2; [done|].
    simpl in E. injection E as ->.
    rewrite (trimStart_head s c); [done|]. by rewrite Hk.
  - destruct (last (JS.trimEnd (JS.trimStart s))) as [c|] eqn:E; [|done].
    by rewrite (trimEnd_last _ _ E).
Qed.

Lemma replaceAll_inverse c d s : d ∉ s -> JS.replaceAll d c (JS.replaceAll c d s) = s.
Proof.
  unfold JS.replaceAll. induction s as [|x s IH]; simpl; [done|].
  intros H. apply not_elem_of_cons in H as [Hx Hs]. rewrite (IH Hs). f_equal.
  destruct (N.eqb_spec x c) as [->|Hxc].
  - by rewrite N.eqb_refl.
  - destruct (N.eqb_spec x d); congruence.
Qed.

End StringFacts.

(** Claim C1, amended.  For a string with no white space at its ends
    and without the placeholder character, [unsafeValue] gives back
    what [safeValue] was given, line feeds included. *)
Theorem safeValue_roundtrip K v :
  JS.edgeFree v = true -> NewLineSymbol K ∉ v ->
  unsafeValue K (Some (safeValue K (Some v))) = v.
Proof.
  intros He Hn. unfold unsafeValue, safeValue. simpl.
  rewrite (trim_edgeFree v He). by apply replaceAll_inverse.
Qed.

(** A string that starts with a space never comes back: [safeValue]
    strips the space and [unsafeValue] keeps the length. *)
Lemma roundtrip_drops_leading_space K v :
  unsafeValue K (Some (safeValue K (Some (32%N :: v)))) <> 32%N :: v.
Proof.
  intros E. apply (f_equal List.length) in E. revert E.
  unfold unsafeValue, safeValue, JS.replaceAll. simpl.
  rewrite !length_map. unfold JS.trim. simpl.
  pose proof (prefix_length _ _ (trimEnd_prefix (JS.trimStart v))).
  pose proof (suffix_length _ _ (trimStart_suffix v)). lia.
Qed.

Section Maps.
Context {V : Type}.
Implicit Types (m : gmap (list N) V) (p : list N -> bool).

Lemma lookup_dropKeys p m k : dropKeys p m !! k = if p k then None else m !! k.
Proof.
  unfold dropKeys. destruct (p k) eqn:E.
  - apply map_lookup_filter_None. right. intros x _. simpl. congruence.
  - destruct (m !! k) as [x|] eqn:Em.
    + apply map_lookup_filter_Some. done.
    + apply map_lookup_filter_None. by left.
Qed.

Lemma lookup_restoreKeys p (o u : gmap (list N) V) k :
  restoreKeys p o u !! k = if p k then o !! k else u !! k.
Proof.
  unfold restoreKeys. rewrite lookup_union, lookup_dropKeys.
  destruct (p k) eqn:E.
  - destruct (o !! k) as [x|] eqn:Eo.
    + rewrite (proj2 (map_lookup_filter_Some _ o k x)); [done|]. done.
    + rewrite (proj2 (map_lookup_filter_None _ o k)); [done|]. by left.
  - rewrite (proj2 (map_lookup_filter_None _ o k)).
    + by destruct (u !! k).
    + right. intros x _. simpl. congruence.
Qed.

Lemma dropKeys_none p m : (forall k, is_Some (m !! k) -> p k = false) -> dropKeys p m = m.
Proof.
  intros H. apply map_eq. intros k. rewrite lookup_dropKeys.
  destruct (p k) eqn:E; [|done]. destruct (m !! k) eqn:Em; [|done].
  rewrite H in E; [done|]. by rewrite Em.
Qed.

Lemma delete_dropKeys p m k :
  delete k (dropKeys p m) = dropKeys (fun x => p x || bool_decide (x = k)) m.
Proof.
  apply map_eq. intros x. rewrite lookup_delete, !lookup_dropKeys.
  case_decide as Hx.
  - subst. rewrite bool_decide_eq_true_2 by done. by rewrite orb_true_r.
  - rewrite (bool_decide_eq_false_2 (x = k)) by done. by rewrite orb_false_r.
Qed.

Lemma dropKeys_ext p q m : (forall k, is_Some (m !! k) -> p k = q k) -> dropKeys p m = dropKeys q m.
Proof.
  intros H. apply map_eq. intros k. rewrite !lookup_dropKeys.
  destruct (m !! k) eqn:E.
  - rewrite <- H; [done|]. by rewrite E.
  - by destruct (p k), (q k).
Qed.

Lemma elem_of_dom_dropKeys p m k : k ∈ dom (dropKeys p m) <-> k ∈ dom m /\ p k = false.
Proof.
  rewrite !elem_of_dom, lookup_dropKeys. destruct (p k).
  - split; [intros [? ?]; done | intros [_ ?]; done].
  - split; [done | by intros [? _]].
Qed.

End Maps.

Section Traverse.
Context (K : Constants).

Lemma optimizeKey_eq fullKey s :
  optimizeKey K fullKey s =
    if optimizable K s fullKey
    then setUpdates (fun x => setAfter (delete fullKey) (setBefore (delete fullKey) x)) s
    else s.
Proof.
  unfold optimizeKey, optimizable.
  destruct (original s !! fullKey), (updated s !! fullKey); done.
Qed.

Lemma optimizable_setUpdates f s k :
  optimizable K (setUpdates f s) k = optimizable K s k.
Proof. done. Qed.

Lemma foldl_optimizeKey l s :
  foldl (fun s fullKey => optimizeKey K fullKey s) s l =
    setUpdates (fun u =>
      setAfter (dropKeys (fun k => optimizable K s k && bool_decide (k ∈ l)))
        (setBefore (dropKeys (fun k => optimizable K s k && bool_decide (k ∈ l))) u)) s.
Proof.
  induction l as [|x l IH] using rev_ind.
  - destruct s as [ks [n b a] o u e ld]. unfold setUpdates, setAfter, setBefore. simpl.
    rewrite !dropKeys_none; [done | |]; intros k _; apply andb_false_r.
  - rewrite foldl_app. simpl. rewrite IH, optimizeKey_eq, optimizable_setUpdates.
    destruct s as [ks [n b a] o u e ld].
    unfold setUpdates, setAfter, setBefore. simpl.
    destruct (optimizable K _ x) eqn:Ex; simpl.
    + rewrite !delete_dropKeys. f_equal. f_equal; apply dropKeys_ext; intros k _; cbv beta.
      all: destruct (optimizable K _ k) eqn:Ek; simpl;
        [|destruct (decide (k = x)) as [->|]; [rewrite Ex in Ek; done | by rewrite bool_decide_eq_false_2]].
      all: destruct (decide (k = x)) as [->|];
        [ rewrite (bool_decide_eq_true_2 (x = x)) by done;
          rewrite (bool_decide_eq_true_2 (x ∈ l ++ [x]))
            by (apply elem_of_app; right; by apply list_elem_of_singleton);
          by rewrite orb_true_r |].
      all: rewrite (bool_decide_eq_false_2 (k = x)) by done; rewrite orb_false_r.
      all: apply bool_decide_ext; rewrite elem_of_app, list_elem_of_singleton; tauto.
    + f_equal. f_equal; apply dropKeys_ext; intros k _; cbv beta.
      all: destruct (optimizable K _ k) eqn:Ek; simpl; [|done].
      all: apply bool_decide_ext; rewrite elem_of_app, list_elem_of_singleton.
      all: split; [tauto | intros [? | ->]; [done | congruence]].
Qed.

Lemma forEachKey_optimizeKey s :
  forEachKey (optimizeKey K) (updateKeys s) s = optimized K s.
Proof.
  unfold forEachKey, optimized. rewrite foldl_optimizeKey.
  destruct s as [ks [n b a] o u e ld]. unfold setUpdates, setAfter, setBefore, updateKeys. simpl.
  f_equal. f_equal.
  - apply dropKeys_ext. intros k Hk.
    rewrite bool_decide_eq_true_2; [by rewrite andb_true_r|].
    apply elem_of_elements, elem_of_union. left. by apply elem_of_dom.
  - apply dropKeys_ext. intros k Hk.
    rewrite bool_decide_eq_true_2; [by rewrite andb_true_r|].
    apply elem_of_elements, elem_of_union. right. by apply elem_of_dom.
Qed.

End Traverse.


Section Engine.
Context (K : Constants).

Lemma gate_pass fn w :
  loaded (state w) = true -> error (state w) = None ->
  validateAction fn w = (Return tt, w).
Proof.
  intros Hl He. destruct fn; munfold; simpl; try done; munfold; rewrite Hl, He; done.
Qed.

Lemma save_run w :
  loaded (state w) = true -> error (state w) = None ->
  save K w = (Return tt, saved K w).
Proof.
  intros Hl He. unfold save. munfold. rewrite (gate_pass fn_save w Hl He).
  unfold save_body, triggerChange, autoExport. munfold. simpl.
  unfold saved, savedDisk. simpl. rewrite <- !app_assoc. done.
Qed.

Lemma save_notLoaded w :
  loaded (state w) = false -> save K w = (Throw NotLoadedError, w).
Proof. intros Hl. unfold save, validateAction. munfold. by rewrite Hl. Qed.

Lemma updateState_run fileName line w :
  updateState K fileName line w =
    if 0 <=? JS.indexOf JS.LF line
    then (Throw (StateErr {| cause := InvalidLineError line; location := None |}), w)
    else match parseLine K line 1 with
         | inl c => (Throw (StateErr {| cause := c; location := None |}), w)
         | inr p => (Return tt, withState (applyLine K fileName p (state w)) w)
         end.
Proof.
  unfold updateState. destruct (0 <=? JS.indexOf JS.LF line); [done|].
  destruct (parseLine K line 1) as [c|p]; [done|].
  unfold applyLine. munfold. simpl. destruct (type p =? DeleteKeyLine K)%N; done.
Qed.

Lemma changeUpdates_run fn w :
  changeUpdates K fn w =
    if bool_decide (size (updateKeys (state w)) = 0%nat) then (Return tt, w)
    else
      let s1 := forEachKey fn (updateKeys (state w)) (state w) in
      let s2 := setUpdates (setLength (size (updateKeys s1))) s1 in
      if bool_decide (size (updateKeys s1) = 0%nat)
      then save K (withState s2 w)
      else (Return tt, withState s2 w).
Proof.
  unfold changeUpdates. munfold. simpl.
  destruct (bool_decide (size (updateKeys (state w)) = 0%nat)) eqn:E; [done|].
  simpl. apply bool_decide_eq_false in E.
  rewrite (bool_decide_eq_true_2 (0 < _)%nat) by lia. simpl.
  destruct (bool_decide (size (updateKeys (forEachKey fn (updateKeys (state w)) (state w))) = 0%nat)); done.
Qed.

End Engine.

Section Maps2.
Context {V : Type}.
Implicit Types (m o u : gmap (list N) V) (p q : list N -> bool).

Lemma restoreKeys_ext p q o u : (forall k, p k = q k) -> restoreKeys p o u = restoreKeys q o u.
Proof. intros H. apply map_eq. intros k. by rewrite !lookup_restoreKeys, H. Qed.

Lemma restoreKeys_none p o u : (forall k, p k = false) -> restoreKeys p o u = u.
Proof. intros H. apply map_eq. intros k. by rewrite lookup_restoreKeys, H. Qed.

Lemma restoreKeys_step p o u x :
  match o !! x with
  | Some e => <[x:=e]> (restoreKeys p o u)
  | None => delete x (restoreKeys p o u)
  end = restoreKeys (fun k => p k || bool_decide (k = x)) o u.
Proof.
  apply map_eq. intros k. rewrite lookup_restoreKeys.
  destruct (decide (k = x)) as [->|Hk].
  - rewrite (bool_decide_eq_true_2 (x = x)) by done. rewrite orb_true_r.
    destruct (o !! x) eqn:E; [by rewrite lookup_insert_eq | by rewrite lookup_delete_eq].
  - rewrite (bool_decide_eq_false_2 (k = x)) by done. rewrite orb_false_r.
    destruct (o !! x) eqn:E.
    + rewrite lookup_insert_ne by done. apply lookup_restoreKeys.
    + rewrite lookup_delete_ne by done. apply lookup_restoreKeys.
Qed.

Lemma dropKeys_ext_all p q m : (forall k, p k = q k) -> dropKeys p m = dropKeys q m.
Proof. intros H. apply dropKeys_ext. auto. Qed.

End Maps2.

Section Revert.
Context (K : Constants).

Lemma revertKey_eq fileName key fullKey s :
  revertKey K fileName key fullKey s =
    if reverts K fileName key fullKey
    then setUpdates (fun u => setBefore (delete fullKey) (setAfter (delete fullKey) u))
           (setUpdated (fun u => match original s !! fullKey with
                                 | Some o => <[fullKey:=o]> u
                                 | None => delete fullKey u
                                 end) s)
    else s.
Proof.
  unfold revertKey, reverts.
  destruct (_ || _); simpl; [done|]. by destruct (original s !! fullKey).
Qed.

Lemma foldl_revertKey fileName key l s :
  foldl (fun s fullKey => revertKey K fileName key fullKey s) s l =
    let p k := reverts K fileName key k && bool_decide (k ∈ l) in
    setUpdates (fun u => setAfter (dropKeys p) (setBefore (dropKeys p) u))
      (setUpdated (restoreKeys p (original s)) s).
Proof.
  induction l as [|x l IH] using rev_ind; simpl.
  - destruct s as [ks [n b a] o u e ld]. unfold setUpdates, setAfter, setBefore, setUpdated. simpl.
    rewrite restoreKeys_none by (intros; apply andb_false_r).
    rewrite !dropKeys_none; [done | |]; intros k _; apply andb_false_r.
  - rewrite foldl_app. simpl. rewrite IH, revertKey_eq. simpl.
    destruct s as [ks [n b a] o u e ld].
    unfold setUpdates, setAfter, setBefore, setUpdated. simpl.
    destruct (reverts K fileName key x) eqn:Ex; simpl.
    + rewrite restoreKeys_step, !delete_dropKeys. f_equal; [f_equal|].
      1,2: apply dropKeys_ext_all. 3: apply restoreKeys_ext.
      all: intros k; cbv beta.
      all: destruct (decide (k = x)) as [->|Hk];
        [ rewrite Ex, (bool_decide_eq_true_2 (x = x)) by done;
          rewrite (bool_decide_eq_true_2 (x ∈ l ++ [x])); [by rewrite orb_true_r|];
          apply elem_of_app; right; by apply list_elem_of_singleton |].
      all: rewrite (bool_decide_eq_false_2 (k = x)) by done; rewrite orb_false_r.
      all: f_equal; apply bool_decide_ext; rewrite elem_of_app, list_elem_of_singleton; tauto.
    + f_equal; [f_equal|].
      1,2: apply dropKeys_ext_all. 3: apply restoreKeys_ext.
      all: intros k; cbv beta.
      all: destruct (reverts K fileName key k) eqn:Ek; simpl; [|done].
      all: apply bool_decide_ext; rewrite elem_of_app, list_elem_of_singleton.
      all: split; [tauto | intros [? | ->]; [done | congruence]].
Qed.

Lemma forEachKey_revertKey fileName key s :
  forEachKey (revertKey K fileName key) (updateKeys s) s = reverted K fileName key s.
Proof.
  unfold forEachKey, reverted. rewrite foldl_revertKey. simpl.
  destruct s as [ks [n b a] o u e ld]. unfold setUpdates, setAfter, setBefore, setUpdated. simpl.
  f_equal; [f_equal|].
  1,2: apply dropKeys_ext_all. 3: apply restoreKeys_ext.
  all: intros k; f_equal; apply bool_decide_ext; apply elem_of_elements.
Qed.

End Revert.

(** ** The optimizer *)

Section Engine2.
Context (K : Constants).

Lemma save_cases w :
  save K w = (Return tt, saved K w) \/ exists e, save K w = (Throw e, w).
Proof.
  destruct (loaded (state w)) eqn:Hl.
  - destruct (error (state w)) as [se|] eqn:He.
    + right. exists (NotResolvedError se). unfold save, validateAction. munfold. by rewrite Hl, He.
    + left. by apply save_run.
  - right. exists NotLoadedError. by apply save_notLoaded.
Qed.

Lemma applyLine_loaded fileName p s : loaded (applyLine K fileName p s) = loaded s.
Proof. unfold applyLine. by destruct (type p =? DeleteKeyLine K)%N. Qed.

Lemma applyLine_error fileName p s : error (applyLine K fileName p s) = error s.
Proof. unfold applyLine. by destruct (type p =? DeleteKeyLine K)%N. Qed.

Lemma size_updateKeys_0 s : size (updateKeys s) = 0%nat <-> updateKeys s = ∅.
Proof. rewrite size_empty_iff. by unfold_leibniz. Qed.

Lemma updateState_Return fileName line w w1 :
  updateState K fileName line w = (Return tt, w1) ->
  exists p, parseLine K line 1 = inr p /\ JS.indexOf JS.LF line < 0
            /\ w1 = withState (applyLine K fileName p (state w)) w.
Proof.
  rewrite updateState_run. destruct (0 <=? JS.indexOf JS.LF line) eqn:E; [done|].
  destruct (parseLine K line 1) as [c|p]; [done|]. intros [= <-]. exists p.
  split; [done|]. split; [lia | done].
Qed.

End Engine2.

(** Claim C5.  For a full key of the log whose baseline entry and
    working entry both exist and agree on comment and value after
    [safeValue] and on approval with a missing flag read as [false], the
    optimizer leaves the key in neither [updates.before] nor
    [updates.after]. *)
Theorem optimizer_deletes_unchanged_key K w fullKey o u :
  fullKey ∈ updateKeys (state w) ->
  original (state w) !! fullKey = Some o ->
  updated (state w) !! fullKey = Some u ->
  sameTranslation K o u = true ->
  (fullKey ∉ dom (before (updates (state (optimizeUpdates K w).2))))
  /\ (fullKey ∉ dom (after (updates (state (optimizeUpdates K w).2)))).
Proof.
  intros Hin Ho Hu Hsame. unfold optimizeUpdates. rewrite changeUpdates_run.
  rewrite bool_decide_eq_false_2.
  2: { rewrite size_updateKeys_0. intros E. rewrite E in Hin. by apply not_elem_of_empty in Hin. }
  cbv zeta. rewrite forEachKey_optimizeKey.
  assert (Hopt : optimizable K (state w) fullKey = true).
  { unfold optimizable. by rewrite Ho, Hu. }
  assert (Hgone : (fullKey ∉ dom (before (updates (optimized K (state w)))))
                  /\ (fullKey ∉ dom (after (updates (optimized K (state w)))))).
  { unfold optimized. simpl. rewrite !elem_of_dom_dropKeys, Hopt. split; intros [_ ?]; done. }
  case_bool_decide as Hsz; [|exact Hgone].
  destruct (save_cases K (withState (setUpdates (setLength (size (updateKeys (optimized K (state w)))))
                                       (optimized K (state w))) w)) as [-> | [e ->]].
  - simpl. rewrite dom_empty_L. split; apply not_elem_of_empty.
  - exact Hgone.
Qed.


(** The optimizer keeps a full key of [updates.after] whose entries
    differ or are not both present. *)
Lemma optimizer_keeps_changed_key K w fullKey :
  fullKey ∈ dom (after (updates (state w))) ->
  optimizable K (state w) fullKey = false ->
  fullKey ∈ dom (after (updates (state (optimizeUpdates K w).2))).
Proof.
  intros Hin Hopt. unfold optimizeUpdates. rewrite changeUpdates_run.
  assert (Hk : fullKey ∈ updateKeys (state w)) by (apply elem_of_union; by right).
  rewrite bool_decide_eq_false_2.
  2: { rewrite size_updateKeys_0. intros E. rewrite E in Hk. by apply not_elem_of_empty in Hk. }
  cbv zeta. rewrite forEachKey_optimizeKey.
  assert (Hstay : fullKey ∈ dom (after (updates (optimized K (state w))))).
  { unfold optimized. simpl. by apply elem_of_dom_dropKeys. }
  rewrite bool_decide_eq_false_2; [exact Hstay|].
  rewrite size_updateKeys_0. intros E.
  assert (Hk' : fullKey ∈ updateKeys (optimized K (state w))) by (apply elem_of_union; by right).
  rewrite E in Hk'. by apply not_elem_of_empty in Hk'.
Qed.

(** The compaction trigger in memory.  An edit applied by
    [_appendUpdate] on a loaded engine without captured error: when the
    log has a full key after [_updateState] and none after the
    traversal of the optimizer, [save] runs (its call is the next event
    of the trace) and the log in memory is left empty. *)
Lemma compaction_trigger K w fileName line w1 :
  loaded (state w) = true -> error (state w) = None ->
  updateState K (toString fileName) (UpdateLine K :: line) w = (Return tt, w1) ->
  updateKeys (state w1) <> ∅ ->
  updateKeys (forEachKey (optimizeKey K) (updateKeys (state w1)) (state w1)) = ∅ ->
  (exists tl, trace (appendUpdate K fileName line w).2 = trace w ++ SaveEv :: tl)
  /\ updates (state (appendUpdate K fileName line w).2) = emptyUpdates.
Proof.
  intros Hl He Hup Hne Hemp.
  destruct (updateState_Return K _ _ _ _ Hup) as (p & Hp & Hlf & ->).
  unfold appendUpdate. munfold. rewrite Hup. unfold optimizeUpdates.
  rewrite changeUpdates_run. simpl in *.
  rewrite bool_decide_eq_false_2 by (by rewrite size_updateKeys_0).
  rewrite (bool_decide_eq_true_2 (size _ = 0%nat)) by (by rewrite size_updateKeys_0).
  rewrite save_run.
  2: { simpl. rewrite forEachKey_optimizeKey. simpl. by rewrite applyLine_loaded. }
  2: { simpl. rewrite forEachKey_optimizeKey. simpl. by rewrite applyLine_error. }
  destruct fileName as [name|]; simpl.
  - split; [|done]. eexists. rewrite <- !app_assoc. simpl. reflexivity.
  - split; [|done]. eexists. simpl. reflexivity.
Qed.

(** ** The length of the log: the gated functions *)

Section Keeps.
Context {A B : Type} (I : State -> Prop).

Lemma keeps_ret (a : A) : keeps I (ret a).
Proof. by intros w. Qed.
Lemma keeps_throw e : keeps I (throw (A:=A) e).
Proof. by intros w. Qed.
Lemma keeps_emit e : keeps I (emit e).
Proof. by intros w. Qed.
Lemma keeps_setDisk f : keeps I (setDisk f).
Proof. by intros w. Qed.
Lemma keeps_getState : keeps I getState.
Proof. by intros w. Qed.
Lemma keeps_getDisk : keeps I getDisk.
Proof. by intros w. Qed.
Lemma keeps_modify f : (forall s, I s -> I (f s)) -> keeps I (modify f).
Proof. intros H w. apply H. Qed.
Lemma keeps_bind (m : M A) (k : A -> M B) :
  keeps I m -> (forall a, keeps I (k a)) -> keeps I (bind m k).
Proof.
  intros Hm Hk w HI. unfold bind. specialize (Hm w HI).
  destruct (m w) as [[a|e] w']; simpl in *; [by apply Hk | done].
Qed.
End Keeps.

Lemma keeps_forOf {A} (I : State -> Prop) (l : list A) (body : A -> M unit) :
  (forall x, keeps I (body x)) -> keeps I (forOf l body).
Proof.
  intros H. induction l as [|x l IH]; simpl; [by intros w|].
  apply keeps_bind; [apply H | by intros _].
Qed.



Section Invariant.
Context (K : Constants).

Lemma keeps_validateAction I fn : keeps I (validateAction fn).
Proof.
  intros w HI. unfold validateAction. destruct fn; try done.
  all: munfold; simpl; destruct (negb (loaded (state w))); [done|];
    by destruct (error (state w)).
Qed.

Lemma keeps_wrapped I fn body o : keeps I (body o) -> keeps I (wrapped fn body o).
Proof. intros H. unfold wrapped. apply keeps_bind; [apply keeps_validateAction | done]. Qed.

Lemma keeps_validateKey I key : keeps I (validateKey K key).
Proof.
  unfold validateKey. destruct key; [|apply keeps_throw].
  destruct (_ && _); [apply keeps_ret | apply keeps_throw].
Qed.

Lemma foldl_loaded_error (fn : list N -> State -> State) l s :
  (forall k s, loaded (fn k s) = loaded s /\ error (fn k s) = error s) ->
  loaded (foldl (fun s k => fn k s) s l) = loaded s
  /\ error (foldl (fun s k => fn k s) s l) = error s.
Proof.
  intros H. revert s. induction l as [|x l IH]; intros s; simpl; [done|].
  destruct (IH (fn x s)) as [-> ->]. apply H.
Qed.

Lemma ready_saved w : loaded (state w) = true -> error (state w) = None -> ready (state (saved K w)).
Proof. intros Hl He. repeat split; simpl; try done. Qed.

Lemma changeUpdates_ready fn w :
  (forall k s, loaded (fn k s) = loaded s /\ error (fn k s) = error s) ->
  loaded (state w) = true -> error (state w) = None ->
  updateKeys (state w) <> ∅ \/ lengthAgrees (state w) ->
  ready (state (changeUpdates K fn w).2).
Proof.
  intros Hfn Hl He Hor. rewrite changeUpdates_run.
  case_bool_decide as Hsz.
  - apply size_updateKeys_0 in Hsz. destruct Hor as [?|?]; done.
  - cbv zeta. destruct (foldl_loaded_error fn (elements (updateKeys (state w))) (state w) Hfn)
      as [Hl' He']. fold (forEachKey fn (updateKeys (state w)) (state w)) in Hl', He'.
    set (s1 := forEachKey fn (updateKeys (state w)) (state w)) in *.
    case_bool_decide as Hsz1.
    + rewrite save_run; simpl; [|congruence|congruence].
      repeat split; simpl; try congruence; done.
    + simpl. repeat split; simpl; try congruence.
Qed.

Lemma optimizeKey_frame k s :
  loaded (optimizeKey K k s) = loaded s /\ error (optimizeKey K k s) = error s.
Proof. rewrite optimizeKey_eq. by destruct (optimizable K s k). Qed.

Lemma revertKey_frame f key k s :
  loaded (revertKey K f key k s) = loaded s /\ error (revertKey K f key k s) = error s.
Proof. rewrite revertKey_eq. by destruct (reverts K f key k). Qed.

Lemma applyLine_pending fileName p s : updateKeys (applyLine K fileName p s) <> ∅.
Proof.
  assert (H : FullKey K fileName (pkey p) ∈ updateKeys (applyLine K fileName p s)).
  { unfold applyLine, updateKeys. apply elem_of_union. left. apply elem_of_dom.
    destruct (type p =? DeleteKeyLine K)%N; simpl; rewrite lookup_insert_eq; eauto. }
  intros E. rewrite E in H. by apply not_elem_of_empty in H.
Qed.

Lemma keeps_appendUpdate fileName line : keeps ready (appendUpdate K fileName line).
Proof.
  intros w (Hl & He & Hag). unfold appendUpdate. munfold.
  rewrite updateState_run.
  destruct (0 <=? JS.indexOf JS.LF (UpdateLine K :: line)); [done|].
  destruct (parseLine K (UpdateLine K :: line) 1) as [c|p]; [done|].
  unfold optimizeUpdates.
  pose proof (changeUpdates_ready (optimizeKey K)
    (withState (applyLine K (toString fileName) p (state w)) w) optimizeKey_frame) as H.
  simpl in H. rewrite applyLine_loaded, applyLine_error in H.
  specialize (H Hl He (or_introl (applyLine_pending _ _ _))).
  destruct (changeUpdates K (optimizeKey K) _) as [[[]|e] w2]; simpl in *; [|done].
  destruct fileName; simpl; done.
Qed.

Lemma keeps_save_body : keeps ready (save_body K).
Proof.
  intros w (Hl & He & Hag). unfold save_body, triggerChange, autoExport. munfold. simpl.
  repeat split; done.
Qed.

Lemma keeps_save : keeps ready (save K).
Proof. unfold save. apply keeps_bind; [apply keeps_validateAction | intros _; apply keeps_save_body]. Qed.

Lemma ready_setKeys f s : ready s -> ready (setKeys f s).
Proof. by intros (? & ? & ?). Qed.

Lemma keeps_updateValue o : keeps ready (updateValue K o).
Proof.
  apply keeps_wrapped. unfold updateValue_body.
  apply keeps_bind; [apply keeps_validateKey | intros key].
  apply keeps_bind; [apply keeps_appendUpdate | intros _; apply keeps_emit].
Qed.

Lemma keeps_updateApproved o : keeps ready (updateApproved K o).
Proof.
  apply keeps_wrapped. unfold updateApproved_body.
  apply keeps_bind; [apply keeps_validateKey | intros key].
  apply keeps_bind; [apply keeps_getState | intros s].
  apply keeps_bind; [apply keeps_appendUpdate | intros _; apply keeps_emit].
Qed.

Lemma keeps_updateComment o : keeps ready (updateComment K o).
Proof.
  apply keeps_wrapped. unfold updateComment_body.
  apply keeps_bind; [apply keeps_validateKey | intros key].
  apply keeps_bind; [apply keeps_appendUpdate | intros _; apply keeps_emit].
Qed.

Lemma keeps_updateTranslation o : keeps ready (updateTranslation K o).
Proof.
  apply keeps_wrapped. unfold updateTranslation_body.
  apply keeps_bind; [apply keeps_validateKey | intros key].
  apply keeps_bind; [apply keeps_appendUpdate | intros _].
  apply keeps_bind; [apply keeps_appendUpdate | intros _; apply keeps_emit].
Qed.

Lemma keeps_revert o : keeps ready (revert K o).
Proof.
  apply keeps_wrapped. unfold revert_body. intros w (Hl & He & Hag).
  apply changeUpdates_ready; auto using revertKey_frame.
Qed.

Lemma keeps_deleteKey o : keeps ready (deleteKey K o).
Proof.
  apply keeps_wrapped. unfold deleteKey_body.
  apply keeps_bind; [apply keeps_validateKey | intros key].
  apply keeps_bind; [apply keeps_getState | intros s].
  apply keeps_bind; [apply keeps_modify; intros; by apply ready_setKeys | intros _].
  destruct (SortedArray.remove key (keys s)).1; [|apply keeps_ret].
  apply keeps_bind; [apply keeps_getDisk | intros d].
  apply keeps_bind; [|intros _; apply keeps_emit].
  apply keeps_forOf. intros name. apply keeps_appendUpdate.
Qed.

Lemma keeps_copyKey o : keeps ready (copyKey K o).
Proof.
  apply keeps_wrapped. unfold copyKey_body.
  destruct (bool_decide _); [apply keeps_ret|].
  apply keeps_bind; [apply keeps_validateKey | intros fromKey].
  apply keeps_bind; [apply keeps_validateKey | intros toKey].
  apply keeps_bind; [apply keeps_getDisk | intros d].
  destruct (bool_decide _); [apply keeps_throw|].
  apply keeps_bind; [apply keeps_getState | intros s].
  destruct (_ =? _); [apply keeps_throw|].
  destruct (_ =? _); [apply keeps_throw|].
  apply keeps_bind; [apply keeps_modify; intros; by apply ready_setKeys | intros _].
  apply keeps_forOf. intros name.
  apply keeps_bind; [apply keeps_getState | intros s']. apply keeps_updateTranslation.
Qed.

Lemma keeps_renameKey o : keeps ready (renameKey K o).
Proof.
  apply keeps_wrapped. unfold renameKey_body.
  destruct (bool_decide _); [apply keeps_ret|].
  apply keeps_bind; [apply keeps_validateKey | intros fromKey].
  apply keeps_bind; [apply keeps_validateKey | intros toKey].
  apply keeps_bind; [apply keeps_copyKey | intros _; apply keeps_deleteKey].
Qed.

Lemma keeps_addKey o : keeps ready (addKey K o).
Proof.
  apply keeps_wrapped. unfold addKey_body.
  apply keeps_bind; [apply keeps_validateKey | intros key].
  apply keeps_bind; [apply keeps_getState | intros s].
  destruct (_ =? _); [apply keeps_throw|].
  apply keeps_bind; [apply keeps_getDisk | intros d].
  destruct (bool_decide _); [apply keeps_throw|].
  apply keeps_bind; [apply keeps_modify; intros; by apply ready_setKeys | intros _].
  apply keeps_forOf. intros name. apply keeps_updateValue.
Qed.

Lemma keeps_addFile o : keeps ready (addFile K o).
Proof.
  apply keeps_wrapped. unfold addFile_body.
  apply keeps_bind; [apply keeps_getState | intros s].
  destruct (negb _); [apply keeps_throw|].
  destruct (_ <=? _); [apply keeps_throw|].
  apply keeps_bind; [apply keeps_getDisk | intros d].
  destruct (bool_decide _); [apply keeps_throw|].
  apply keeps_bind; [apply keeps_setDisk | intros _].
  apply keeps_bind; [apply keeps_emit | intros _]. apply keeps_save.
Qed.

Lemma keeps_deleteFile o : keeps ready (deleteFile K o).
Proof.
  apply keeps_wrapped. unfold deleteFile_body.
  apply keeps_bind; [apply keeps_getState | intros s].
  destruct (negb _); [apply keeps_throw|].
  apply keeps_bind; [apply keeps_getDisk | intros d].
  destruct (negb _); [apply keeps_ret|].
  apply keeps_bind; [apply keeps_setDisk | intros _].
  apply keeps_bind; [apply keeps_emit | intros _]. apply keeps_save.
Qed.

End Invariant.

(** ** The length of the log: load, connect, export *)

Lemma throwsStateErr_bind {A B} (m : M A) (k : A -> M B) :
  throwsStateErr m -> (forall a, throwsStateErr (k a)) -> throwsStateErr (bind m k).
Proof.
  intros Hm Hk w e w'. unfold bind. destruct (m w) as [[a|e0] w0] eqn:E.
  - apply Hk.
  - intros [= <- <-]. by eapply Hm.
Qed.

Lemma throwsStateErr_ret {A} (a : A) : throwsStateErr (ret a).
Proof. by intros w e w'. Qed.

Lemma throwsStateErr_modify f : throwsStateErr (modify f).
Proof. by intros w e w'. Qed.

Lemma throwsStateErr_forOf {A} (l : list A) (body : A -> M unit) :
  (forall x, throwsStateErr (body x)) -> throwsStateErr (forOf l body).
Proof.
  intros H. induction l as [|x l IH]; simpl; [apply throwsStateErr_ret|].
  apply throwsStateErr_bind; [apply H | by intros _].
Qed.

Section Loading.
Context (K : Constants).

Lemma updates_resolve_original fullKey p s :
  updates (resolveTranslation K fullKey p TOriginal s) = updates s.
Proof. done. Qed.

Lemma keeps_readBaseline fileName n line sets :
  keeps reading (readBaseline K fileName n line sets).
Proof.
  unfold readBaseline. destruct (parseLine K line 0) as [c|p]; [apply keeps_throw|].
  apply keeps_bind; [|intros _].
  - apply keeps_modify. intros s (? & ? & ?). done.
  - destruct (_ =? _)%N; destruct (bool_decide _);
      first [apply keeps_throw | apply keeps_ret].
Qed.

Lemma throws_readBaseline fileName n line sets :
  throwsStateErr (readBaseline K fileName n line sets).
Proof.
  unfold readBaseline. destruct (parseLine K line 0) as [c|p].
  - intros w e w' [= <- _]. eauto.
  - apply throwsStateErr_bind; [apply throwsStateErr_modify | intros _].
    destruct (_ =? _)%N; destruct (bool_decide _);
      first [apply throwsStateErr_ret | intros w e w' [= <- _]; eauto].
Qed.

Lemma keeps_readLines fileName lines : forall n sets ups,
  keeps reading (readLines K fileName n lines sets ups).
Proof.
  induction lines as [|line rest IH]; intros n sets ups; simpl; [apply keeps_ret|].
  destruct line as [|c line]; [apply keeps_ret|].
  destruct (bool_decide _); [apply IH|].
  apply keeps_bind; [apply keeps_readBaseline | intros sets'; apply IH].
Qed.

Lemma throws_readLines fileName lines : forall n sets ups,
  throwsStateErr (readLines K fileName n lines sets ups).
Proof.
  induction lines as [|line rest IH]; intros n sets ups; simpl; [apply throwsStateErr_ret|].
  destruct line as [|c line]; [apply throwsStateErr_ret|].
  destruct (bool_decide _); [apply IH|].
  apply throwsStateErr_bind; [apply throws_readBaseline | intros sets'; apply IH].
Qed.

Lemma keeps_updateState_reading fileName line : keeps reading (updateState K fileName line).
Proof.
  intros w (Hl & He & H0). rewrite updateState_run.
  destruct (0 <=? _); [done|]. destruct (parseLine K line 1) as [c|p]; [done|].
  simpl. split; [by rewrite applyLine_loaded|]. split; [by rewrite applyLine_error|].
  intros E. by apply applyLine_pending in E.
Qed.

Lemma throws_updateState fileName line : throwsStateErr (updateState K fileName line).
Proof.
  intros w e w'. rewrite updateState_run.
  destruct (0 <=? _); [intros [= <- _]; eauto|].
  destruct (parseLine K line 1) as [c|p]; [intros [= <- _]; eauto | done].
Qed.

Lemma keeps_loadFiles files : forall keys, keeps reading (loadFiles K files keys).
Proof.
  induction files as [|file rest IH]; intros keys; simpl; [apply keeps_ret|].
  apply keeps_bind; [apply keeps_readLines | intros r].
  apply keeps_bind; [|intros _; apply IH].
  apply keeps_forOf. intros line. apply keeps_updateState_reading.
Qed.

Lemma throws_loadFiles files : forall keys, throwsStateErr (loadFiles K files keys).
Proof.
  induction files as [|file rest IH]; intros keys; simpl; [apply throwsStateErr_ret|].
  apply throwsStateErr_bind; [apply throws_readLines | intros r].
  apply throwsStateErr_bind; [|intros _; apply IH].
  apply throwsStateErr_forOf. intros line. apply throws_updateState.
Qed.

Lemma reading_resetState : reading resetState.
Proof. repeat split. Qed.

Lemma load_settled o w : settled (state (load K o w).2).
Proof.
  unfold load, wrapped, load_body, validateAction, triggerChange, autoExport.
  munfold. simpl.
  pose proof (keeps_loadFiles (findI18nFiles K (disk w)) []
                (withState resetState w) reading_resetState) as Hr.
  pose proof (throws_loadFiles (findI18nFiles K (disk w)) [] (withState resetState w)) as Ht.
  unfold withState in *. simpl in *.
  destruct (loadFiles K _ _ _) as [[ks|e] w1] eqn:E; simpl in *.
  - destruct Hr as (Hl & He & H0). unfold optimizeUpdates. rewrite changeUpdates_run.
    case_bool_decide as Hsz; simpl.
    + intros _. unfold lengthAgrees. simpl. apply size_updateKeys_0 in Hsz.
      rewrite H0 by done.
      change (updateKeys (setLoaded true (setKeys (fun _ => ks) (state w1))))
        with (updateKeys (state w1)). by rewrite Hsz, size_empty.
    + destruct (foldl_loaded_error (optimizeKey K) (elements (updateKeys (state w1))) (state w1)
                  (optimizeKey_frame K)) as [Hl' He'].
      fold (forEachKey (optimizeKey K) (updateKeys (state w1)) (state w1)) in Hl', He'.
      set (s1 := forEachKey (optimizeKey K) (updateKeys (state w1)) (state w1)) in *.
      case_bool_decide as Hsz1.
      * rewrite save_notLoaded by (simpl; congruence). simpl. intros _. done.
      * simpl. intros _. done.
  - destruct (Ht e w1 eq_refl) as [se ->]. simpl. intros ?. done.
Qed.

Lemma keeps_load I o : (forall s, settled s -> I s) -> keeps I (load K o).
Proof. intros H w _. apply H, load_settled. Qed.

Lemma keeps_connect o : keeps settled (connect K o).
Proof.
  apply keeps_wrapped. unfold connect_body.
  apply keeps_bind; [apply keeps_getState | intros s].
  apply keeps_bind; [|intros _; apply keeps_emit].
  destruct (negb _); [by apply keeps_load | apply keeps_ret].
Qed.

Lemma keeps_export o : keeps settled (export K o).
Proof.
  apply keeps_wrapped. unfold export_body.
  apply keeps_bind; [apply keeps_getDisk | intros d].
  apply keeps_bind; [by intros w | intros x].
  destruct (_ && _); [apply keeps_ret|].
  apply keeps_bind; [apply keeps_getState | intros s].
  apply keeps_bind; [|intros _].
  - destruct (Opt.auto o); destruct (negb _);
      first [apply keeps_throw | apply keeps_ret | by apply keeps_load].
  - apply keeps_bind; [apply keeps_getState | intros s'].
    destruct (error s'); [apply keeps_throw | apply keeps_emit].
Qed.

Lemma settled_of_ready fn body o :
  gated fn = true -> keeps ready (wrapped fn body o) -> keeps settled (wrapped fn body o).
Proof.
  intros Hg H w Hs.
  destruct (loaded (state w)) eqn:Hl; [destruct (error (state w)) as [se|] eqn:He|].
  - unfold wrapped, validateAction. destruct fn; try done; munfold; by rewrite Hl, He.
  - destruct (H w) as (_ & He' & Hag); [by repeat split; auto|]. by intros _.
  - unfold wrapped, validateAction. destruct fn; try done; munfold; by rewrite Hl.
Qed.

Lemma keeps_call fn o : keeps settled (call K fn o).
Proof.
  destruct fn; simpl.
  - apply keeps_connect.
  - by apply keeps_load.
  - apply settled_of_ready; [done|]. apply keeps_wrapped, keeps_save_body.
  - apply keeps_export.
  - apply settled_of_ready; [done | apply keeps_addFile].
  - apply settled_of_ready; [done | apply keeps_deleteFile].
  - apply settled_of_ready; [done | apply keeps_addKey].
  - apply settled_of_ready; [done | apply keeps_copyKey].
  - apply settled_of_ready; [done | apply keeps_renameKey].
  - apply settled_of_ready; [done | apply keeps_deleteKey].
  - apply settled_of_ready; [done | apply keeps_updateValue].
  - apply settled_of_ready; [done | apply keeps_updateApproved].
  - apply settled_of_ready; [done | apply keeps_updateComment].
  - apply settled_of_ready; [done | apply keeps_updateTranslation].
  - apply settled_of_ready; [done | apply keeps_revert].
Qed.

Lemma runSteps_settled sts : forall w, settled (state w) -> settled (state (runSteps K sts w)).
Proof.
  induction sts as [|st sts IH]; intros w Hs; simpl; [done|].
  apply IH. destruct st as [fn o|d]; simpl; [by apply keeps_call | done].
Qed.

End Loading.

(** Claim C4, amended.  After any sequence of calls of public
    functions and of changes of the files from outside, on an engine
    fresh from [initialize]: when [state.error] is unset,
    [updates.length] is the number of full keys of [updates.before] and
    [updates.after] together. *)
Theorem updates_length_when_no_error K d x sts :
  let w := runSteps K sts {| state := resetState; disk := d; trace := []; exporter := x |} in
  error (state w) = None ->
  length (updates (state w)) = size (updateKeys (state w)).
Proof.
  intros w He. apply (runSteps_settled K sts); [|exact He]. intros _. done.
Qed.

(** ** revert *)

Section SplitFacts.
Implicit Types (s a b : list N) (c : N).

Lemma split_absent c s : c ∉ s -> JS.split c s = [s].
Proof.
  induction s as [|x s IH]; simpl; [done|].
  intros [Hx Hs]%not_elem_of_cons. rewrite (IH Hs).
  destruct (N.eqb_spec x c); [congruence | done].
Qed.

Lemma split_first c a b : c ∉ a -> JS.split c (a ++ c :: b) = a :: JS.split c b.
Proof.
  induction a as [|x a IH]; simpl.
  - intros _. by rewrite N.eqb_refl.
  - intros [Hx Ha]%not_elem_of_cons. rewrite (IH Ha).
    destruct (N.eqb_spec x c); [congruence | done].
Qed.

Lemma find_absent c s : c ∉ s -> JS.find c s = None.
Proof.
  induction s as [|x s IH]; simpl; [done|].
  intros [Hx Hs]%not_elem_of_cons. rewrite (IH Hs).
  destruct (N.eqb_spec x c); [congruence | done].
Qed.

Lemma find_None c s : JS.find c s = None -> c ∉ s.
Proof.
  induction s as [|x s IH]; simpl; [intros _; apply not_elem_of_nil|].
  destruct (N.eqb_spec x c); [done|].
  destruct (JS.find c s); [done|]. intros _. apply not_elem_of_cons. auto.
Qed.

Lemma find_first c a b : c ∉ a -> JS.find c (a ++ c :: b) = Some (List.length a).
Proof.
  induction a as [|x a IH]; simpl.
  - intros _. by rewrite N.eqb_refl.
  - intros [Hx Ha]%not_elem_of_cons. rewrite (IH Ha).
    destruct (N.eqb_spec x c); [congruence | done].
Qed.

Lemma indexOf_negative c s : JS.indexOf c s < 0 -> c ∉ s.
Proof.
  unfold JS.indexOf. destruct (JS.find c s) eqn:E; [lia|]. intros _. by apply find_None.
Qed.

Lemma indexOf_absent c s : c ∉ s -> JS.indexOf c s = -1.
Proof. intros H. unfold JS.indexOf. by rewrite find_absent. Qed.

End SplitFacts.

Section RevertTheorem.
Context (K : Constants).

Lemma keeps_opened_changeUpdates fn :
  (forall k s, loaded (fn k s) = loaded s /\ error (fn k s) = error s) ->
  keeps opened (changeUpdates K fn).
Proof.
  intros Hfn w [Hl He]. rewrite changeUpdates_run.
  case_bool_decide; [by split|]. cbv zeta.
  destruct (foldl_loaded_error fn (elements (updateKeys (state w))) (state w) Hfn) as [Hl' He'].
  fold (forEachKey fn (updateKeys (state w)) (state w)) in Hl', He'.
  case_bool_decide.
  - rewrite save_run; simpl; [|congruence|congruence]. split; simpl; congruence.
  - split; simpl; congruence.
Qed.

Lemma keeps_opened_appendUpdate fileName line : keeps opened (appendUpdate K fileName line).
Proof.
  unfold appendUpdate. apply keeps_bind; [|intros _; apply keeps_bind; [|intros _]].
  - intros w H. rewrite updateState_run. destruct (0 <=? _); [exact H|].
    destruct (parseLine _ _ _); [exact H|]. destruct H as [Hl He].
    split; simpl; by rewrite ?applyLine_loaded, ?applyLine_error.
  - apply keeps_opened_changeUpdates, optimizeKey_frame.
  - destruct fileName; [|apply keeps_throw].
    apply keeps_bind; [apply keeps_setDisk | intros _; apply keeps_emit].
Qed.

Lemma wrapped_Return fn body o w r w' :
  gated fn = true -> wrapped fn body o w = (Return r, w') ->
  opened (state w) /\ body o w = (Return r, w').
Proof.
  intros Hg. unfold wrapped, validateAction, opened. destruct fn; try done; munfold.
  all: destruct (loaded (state w)); simpl; [|done].
  all: destruct (error (state w)); simpl; [done|]. all: done.
Qed.

Lemma updateValue_opened o w w' :
  updateValue K o w = (Return tt, w') -> opened (state w').
Proof.
  intros H. pose proof (wrapped_Return fn_updateValue _ o w tt w' eq_refl H) as [Hop Hb].
  assert (Hk : keeps opened (updateValue_body K o)).
  { unfold updateValue_body. apply keeps_bind; [apply keeps_validateKey | intros k].
    apply keeps_bind; [apply keeps_opened_appendUpdate | intros _; apply keeps_emit]. }
  specialize (Hk w Hop). by rewrite Hb in Hk.
Qed.

Lemma reverts_own fileName key :
  FullKeySeparator K ∉ fileName -> FullKeySeparator K ∉ key ->
  reverts K (Some fileName) (Some key) (FullKey K fileName key) = true.
Proof.
  intros Hf Hk. unfold reverts, FullKey, buildFK, splitFK.
  rewrite split_first, split_absent by done.
  change ((fileName :: [key]) !! 0%nat) with (Some fileName).
  change ((fileName :: [key]) !! 1%nat) with (Some key).
  rewrite !bool_decide_eq_true_2 by done. simpl. by rewrite !andb_false_r.
Qed.

End RevertTheorem.

(** Claim C3, amended.  File name and key free of the full-key
    separator, [updateValue] returned and left the full key in the log.
    Then [revert] for that file and key returns, the full key is in
    neither side of the log, and its baseline entry is the one it was.
    When no full key stays in the log, [save] has run once; when one
    stays, [save] has not run and [updated] holds at the full key what
    [original] holds (nothing, when there is no baseline entry). *)
Theorem revert_after_updateValue K o o' w0 w1 fileName key :
  Opt.fileName o = Some fileName -> Opt.key o = Some key ->
  Opt.fileName o' = Some fileName -> Opt.key o' = Some key ->
  FullKeySeparator K ∉ fileName -> FullKeySeparator K ∉ key ->
  updateValue K o w0 = (Return tt, w1) ->
  FullKey K fileName key ∈ updateKeys (state w1) ->
  exists w2, revert K o' w1 = (Return tt, w2)
    /\ (FullKey K fileName key ∉ dom (before (updates (state w2))))
    /\ (FullKey K fileName key ∉ dom (after (updates (state w2))))
    /\ original (state w2) !! FullKey K fileName key
       = original (state w1) !! FullKey K fileName key
    /\ (updateKeys (state w2) = ∅ ->
        trace w2 = trace w1 ++ [SaveEv; TriggerChangeEv; AutoExportEv])
    /\ (updateKeys (state w2) <> ∅ ->
        trace w2 = trace w1
        /\ updated (state w2) !! FullKey K fileName key
           = original (state w1) !! FullKey K fileName key).
Proof.
  intros Hf Hk Hf' Hk' Hsf Hsk Hup Hin.
  destruct (updateValue_opened K o w0 w1 Hup) as [Hl He].
  set (fk := FullKey K fileName key) in *.
  unfold revert, wrapped. munfold. rewrite (gate_pass fn_revert w1 Hl He).
  unfold revert_body. rewrite Hf', Hk', changeUpdates_run.
  rewrite bool_decide_eq_false_2.
  2: { rewrite size_updateKeys_0. intros E. rewrite E in Hin. by apply not_elem_of_empty in Hin. }
  cbv zeta. rewrite forEachKey_revertKey.
  assert (Hp : reverts K (Some fileName) (Some key) fk
               && bool_decide (fk ∈ updateKeys (state w1)) = true).
  { unfold fk. rewrite reverts_own by done. by rewrite bool_decide_eq_true_2. }
  set (s1 := reverted K (Some fileName) (Some key) (state w1)).
  assert (Hb : fk ∉ dom (before (updates s1))).
  { unfold s1, reverted. simpl. rewrite elem_of_dom_dropKeys. intros [_ E]. rewrite E in Hp. done. }
  assert (Ha : fk ∉ dom (after (updates s1))).
  { unfold s1, reverted. simpl. rewrite elem_of_dom_dropKeys. intros [_ E]. rewrite E in Hp. done. }
  assert (Hu : updated s1 !! fk = original (state w1) !! fk).
  { unfold s1, reverted. simpl. by rewrite lookup_restoreKeys, Hp. }
  destruct (bool_decide (size (updateKeys s1) = 0%nat)) eqn:Hsz.
  - rewrite save_run; [|done|done]. eexists. split; [reflexivity|]. simpl.
    rewrite dom_empty_L. repeat split; try apply not_elem_of_empty; try done.
  - apply bool_decide_eq_false in Hsz.
    eexists. split; [reflexivity|]. simpl. repeat split; try done.
    intros E. exfalso. apply Hsz. apply size_updateKeys_0. exact E.
Qed.

(** ** The edit operations *)

Section EditFacts.
Context (K : Constants).

Lemma last_map_list {A B} (f : A -> B) (l : list A) : last (map f l) = f <$> last l.
Proof.
  induction l as [|x l IH]; [done|]. destruct l as [|y l]; [done|].
  change (last (f x :: map f (y :: l)) = f <$> last (y :: l)). rewrite <- IH. done.
Qed.

Lemma edgeFree_replaceAll c s :
  JS.edgeFree s = true -> JS.edgeFree (JS.replaceAll JS.LF c s) = true.
Proof.
  unfold JS.edgeFree, JS.replaceAll. intros [H1 H2]%andb_true_iff.
  assert (Hf : forall x, negb (JS.isWhiteSpace x) = true ->
                         (if (x =? JS.LF)%N then c else x) = x).
  { intros x Hx. destruct (N.eqb_spec x JS.LF) as [->|]; [done|done]. }
  apply andb_true_iff. split.
  - destruct s as [|x s]; [done|]. simpl in *. by rewrite Hf.
  - rewrite last_map_list. destruct (last s) as [x|]; [|done]. simpl. by rewrite Hf.
Qed.

Lemma edgeFree_safeValue v : JS.edgeFree (safeValue K v) = true.
Proof. unfold safeValue. apply edgeFree_replaceAll, edgeFree_trim. Qed.

Lemma parse_updateLine m key payload p :
  KeyValueSeparator K ∉ key ->
  parseLine K (UpdateLine K :: m :: key ++ KeyValueSeparator K :: payload) 1 = inr p ->
  p = {| type := m; pkey := key; pvalue := payload |}.
Proof.
  intros Hk. unfold parseLine. simpl.
  destruct (negb (isLineType K m)); [done|].
  unfold JS.indexOf. simpl.
  destruct (UpdateLine K =? KeyValueSeparator K)%N; [done|].
  destruct (m =? KeyValueSeparator K)%N; [done|].
  rewrite find_first by done. cbn [fmap option_fmap option_map].
  destruct (Z.of_nat _ <=? Z.of_nat 1) eqn:E; [done|]. intros [= <-]. f_equal.
  - unfold JS.substring. rewrite Nat2Z.id.
    replace (S (S (List.length key)) - 2)%nat with (List.length key) by lia.
    change (drop 2 (UpdateLine K :: m :: key ++ KeyValueSeparator K :: payload))
      with (key ++ KeyValueSeparator K :: payload).
    by rewrite take_app_length.
  - unfold JS.substringFrom. rewrite Nat2Z.id.
    replace (S (S (List.length key)) + 1)%nat with (S (S (S (List.length key)))) by lia.
    change (drop (S (S (S (List.length key))))
              (UpdateLine K :: m :: key ++ KeyValueSeparator K :: payload))
      with (drop (S (List.length key)) (key ++ KeyValueSeparator K :: payload)).
    rewrite drop_app_ge by lia.
    by replace (S (List.length key) - List.length key)%nat with 1%nat by lia.
Qed.

Lemma validateKey_Return key k w w' :
  validateKey K key w = (Return k, w') ->
  key = Some k /\ w' = w /\ KeyValueSeparator K ∉ k.
Proof.
  unfold validateKey. destruct key as [x|]; [|done].
  destruct (negb _ && _ && _) eqn:E; [|done]. intros [= <- <-].
  apply andb_true_iff in E as [_ E]. apply Z.eqb_eq in E.
  repeat split. apply indexOf_negative. lia.
Qed.

Lemma optimize_stored w w2 fullKey e :
  optimizeUpdates K w = (Return tt, w2) ->
  updated (state w) !! fullKey = Some e ->
  storedAt (state w2) fullKey e.
Proof.
  unfold optimizeUpdates. rewrite changeUpdates_run.
  destruct (bool_decide (size (updateKeys (state w)) = 0%nat)).
  { intros [= <-] H. by left. }
  cbv zeta. rewrite forEachKey_optimizeKey.
  destruct (bool_decide _).
  - destruct (save_cases K (withState (setUpdates (setLength (size (updateKeys (optimized K (state w)))))
                                         (optimized K (state w))) w)) as [-> | [e' ->]]; [|done].
    intros [= <-] H. right. simpl. done.
  - intros [= <-] H. by left.
Qed.

Lemma optimize_after w w2 fullKey :
  optimizeUpdates K w = (Return tt, w2) ->
  after (updates (state w2)) !! fullKey = None
  \/ after (updates (state w2)) !! fullKey = after (updates (state w)) !! fullKey.
Proof.
  unfold optimizeUpdates. rewrite changeUpdates_run.
  destruct (bool_decide (size (updateKeys (state w)) = 0%nat)).
  { intros [= <-]. by right. }
  cbv zeta. rewrite forEachKey_optimizeKey.
  assert (H : after (updates (optimized K (state w))) !! fullKey = None
              \/ after (updates (optimized K (state w))) !! fullKey
                 = after (updates (state w)) !! fullKey).
  { unfold optimized. simpl. rewrite lookup_dropKeys. destruct (optimizable _ _ _); auto. }
  destruct (bool_decide _).
  - destruct (save_cases K (withState (setUpdates (setLength (size (updateKeys (optimized K (state w)))))
                                         (optimized K (state w))) w)) as [-> | [e' ->]]; [|done].
    intros [= <-]. by left.
  - intros [= <-]. exact H.
Qed.

(** What [_appendUpdate] leaves when it returns, for a line built by an
    edit operation. *)
Lemma appendUpdate_Return fileName m key payload w w' :
  KeyValueSeparator K ∉ key ->
  m <> DeleteKeyLine K ->
  appendUpdate K fileName (m :: key ++ KeyValueSeparator K :: payload) w = (Return tt, w') ->
  exists name,
    fileName = Some name
    /\ (JS.LF ∉ payload)
    /\ let fullKey := FullKey K name key in
       let e0 := default (Tr.new key) (after (updates (state w)) !! fullKey) in
       let e := if (m =? CommentLine K)%N then Tr.setComment payload e0
                else Tr.setValue payload (m =? ApprovedLine K)%N e0 in
       storedAt (state w') fullKey e
       /\ (after (updates (state w')) !! fullKey = None
           \/ after (updates (state w')) !! fullKey = Some e).
Proof.
  intros Hk Hm. unfold appendUpdate. munfold.
  destruct (updateState K _ _ w) as [[[]|e1] w1] eqn:E1; [|done].
  apply updateState_Return in E1 as (p & Hp & Hlf & ->).
  apply parse_updateLine in Hp; [|done]. subst p.
  destruct (optimizeUpdates K _) as [[[]|e2] w2] eqn:E2; [|done].
  destruct fileName as [name|]; [|done]. simpl. intros [= <-]. exists name. split; [done|].
  split.
  { apply indexOf_negative in Hlf. intros Hin. apply Hlf.
    apply elem_of_cons. right. apply elem_of_cons. right.
    apply elem_of_app. right. apply elem_of_cons. by right. }
  simpl. unfold applyLine in E2. simpl in E2.
  rewrite (proj2 (N.eqb_neq m (DeleteKeyLine K)) Hm) in E2.
  split.
  - apply (optimize_stored _ _ _ _ E2). simpl. unfold resolveTranslation. simpl.
    by rewrite lookup_insert_eq.
  - destruct (optimize_after _ _ (FullKey K name key) E2) as [H|H]; [by left|right].
    rewrite H. simpl. unfold resolveTranslation. simpl. by rewrite lookup_insert_eq.
Qed.

End EditFacts.

Section EditTheorem.
Context (K : Constants).

Lemma distinctMarkers_ne :
  distinctMarkers K ->
  NotApprovedLine K <> DeleteKeyLine K /\ ApprovedLine K <> DeleteKeyLine K
  /\ CommentLine K <> DeleteKeyLine K /\ NotApprovedLine K <> CommentLine K
  /\ ApprovedLine K <> CommentLine K.
Proof.
  unfold distinctMarkers. rewrite !NoDup_cons, !not_elem_of_cons.
  intros ((? & ? & ? & _) & (? & ? & _) & (? & _) & _). repeat split; congruence.
Qed.

Lemma markerOf_ne a :
  distinctMarkers K -> markerOf K a <> DeleteKeyLine K /\ markerOf K a <> CommentLine K.
Proof. intros H. apply distinctMarkers_ne in H. destruct a; simpl; tauto. Qed.

Lemma storedAt_state s s' fullKey e : s = s' -> storedAt s fullKey e -> storedAt s' fullKey e.
Proof. by intros ->. Qed.

Lemma bind_Return {A B} (m : M A) (k : A -> M B) w b w' :
  bind m k w = (Return b, w') ->
  exists a w1, m w = (Return a, w1) /\ k a w1 = (Return b, w').
Proof. unfold bind. destruct (m w) as [[a|e] w1]; [eauto | done]. Qed.

End EditTheorem.

(** When one of [updateValue], [updateApproved], [updateComment],
    [updateTranslation] returns, the entry it stored at its full key
    holds in the fields it wrote the [safeValue] of its argument, and
    that string has no white space at its ends and no line feed. *)
Lemma edits_store_normalized K fnName o w w' :
  distinctMarkers K -> isEdit fnName = true ->
  call K fnName o w = (Return tt, w') ->
  exists fileName key e,
    Opt.fileName o = Some fileName /\ Opt.key o = Some key
    /\ storedAt (state w') (FullKey K fileName key) e
    /\ written K fnName o (state w) (FullKey K fileName key) e.
Proof.
  intros HK Hed Hcall.
  destruct (distinctMarkers_ne K HK) as (Hnd & Had & Hcd & Hnc & Hac).
  destruct fnName; try discriminate Hed; simpl in Hcall.
  - (* updateValue *)
    apply wrapped_Return in Hcall as [_ Hb]; [|done]. unfold updateValue_body in Hb.
    apply bind_Return in Hb as (k & w1 & Hv & Hb).
    apply validateKey_Return in Hv as (Hkey & -> & Hsep).
    apply bind_Return in Hb as ([] & w2 & Ha & Hb).
    injection Hb as <-.
    apply appendUpdate_Return in Ha as (name & Hname & Hlf & Hst & _); [|done|done].
    eexists name, k, _. split; [done|]. split; [done|]. split; [exact Hst|]. simpl. repeat split.
    + rewrite (proj2 (N.eqb_neq _ _) Hnc). done.
    + apply edgeFree_safeValue.
    + done.
  - (* updateApproved *)
    apply wrapped_Return in Hcall as [_ Hb]; [|done]. unfold updateApproved_body in Hb.
    apply bind_Return in Hb as (k & w1 & Hv & Hb).
    apply validateKey_Return in Hv as (Hkey & -> & Hsep).
    apply bind_Return in Hb as (s & w1 & [= <- <-] & Hb).
    apply bind_Return in Hb as ([] & w2 & Ha & Hb).
    injection Hb as <-.
    destruct (markerOf_ne K (default false (Opt.approved o)) HK) as [Hmd Hmc].
    apply appendUpdate_Return in Ha as (name & Hname & Hlf & Hst & _); [|done|done].
    rewrite Hname in *. simpl in *.
    eexists name, k, _. split; [done|]. split; [done|]. split; [exact Hst|]. simpl. repeat split.
    + rewrite (proj2 (N.eqb_neq _ _) Hmc). done.
    + apply edgeFree_safeValue.
    + done.
  - (* updateComment *)
    apply wrapped_Return in Hcall as [_ Hb]; [|done]. unfold updateComment_body in Hb.
    apply bind_Return in Hb as (k & w1 & Hv & Hb).
    apply validateKey_Return in Hv as (Hkey & -> & Hsep).
    apply bind_Return in Hb as ([] & w2 & Ha & Hb).
    injection Hb as <-.
    apply appendUpdate_Return in Ha as (name & Hname & Hlf & Hst & _); [|done|done].
    eexists name, k, _. split; [done|]. split; [done|]. split; [exact Hst|]. simpl. repeat split.
    + rewrite N.eqb_refl. done.
    + apply edgeFree_safeValue.
    + done.
  - (* updateTranslation *)
    apply wrapped_Return in Hcall as [_ Hb]; [|done]. unfold updateTranslation_body in Hb.
    apply bind_Return in Hb as (k & w1 & Hv & Hb).
    apply validateKey_Return in Hv as (Hkey & -> & Hsep).
    apply bind_Return in Hb as ([] & w2 & Ha1 & Hb).
    apply bind_Return in Hb as ([] & w3 & Ha2 & Hb).
    injection Hb as <-.
    destruct (markerOf_ne K (default false (Opt.approved o)) HK) as [Hmd Hmc].
    apply appendUpdate_Return in Ha1 as (name & Hname & Hlf1 & _ & Haft); [|done|done].
    apply appendUpdate_Return in Ha2 as (name' & Hname' & Hlf2 & Hst & _); [|done|done].
    assert (name' = name) as -> by congruence.
    eexists name, k, _. split; [done|]. split; [done|]. split; [exact Hst|]. simpl. repeat split.
    + rewrite (proj2 (N.eqb_neq _ _) Hmc). done.
    + apply edgeFree_safeValue.
    + done.
    + rewrite (proj2 (N.eqb_neq _ _) Hmc). simpl. simpl in Haft.
      rewrite N.eqb_refl in Haft. destruct Haft as [-> | ->]; simpl; auto.
    + apply edgeFree_safeValue.
    + done.
Qed.

Section WholeEntry.
Context (K : Constants).

Lemma normalizedEntry_new k : normalizedEntry (Tr.new k).
Proof. split; intros x; discriminate. Qed.

Lemma normalizedEntry_setValue v a e :
  normalized v -> normalizedEntry e -> normalizedEntry (Tr.setValue v a e).
Proof.
  intros Hv [_ Hc]. split; simpl; [|exact Hc]. by intros x [= <-].
Qed.

Lemma normalizedEntry_setComment c e :
  normalized c -> normalizedEntry e -> normalizedEntry (Tr.setComment c e).
Proof.
  intros Hv [Hc _]. split; simpl; [exact Hc|]. by intros x [= <-].
Qed.

(** [_appendUpdate] with a normalized payload keeps the log normalized
    and stores a normalized entry. *)
Lemma appendUpdate_normalized fileName m key payload w w' :
  KeyValueSeparator K ∉ key -> m <> DeleteKeyLine K -> JS.edgeFree payload = true ->
  normalizedLog (state w) ->
  appendUpdate K fileName (m :: key ++ KeyValueSeparator K :: payload) w = (Return tt, w') ->
  normalizedLog (state w')
  /\ exists name e, fileName = Some name /\ storedAt (state w') (FullKey K name key) e
                    /\ normalizedEntry e.
Proof.
  intros Hk Hm Hedge Hlog Hret.
  destruct (appendUpdate_Return K _ _ _ _ _ _ Hk Hm Hret) as (name & -> & Hlf & Hst & _).
  cbv zeta in Hst.
  assert (Hpay : normalized payload) by (by split).
  set (e0 := default (Tr.new key) (after (updates (state w)) !! FullKey K name key)) in *.
  assert (He0 : normalizedEntry e0).
  { unfold e0. destruct (after (updates (state w)) !! FullKey K name key) as [x|] eqn:E; simpl.
    - by apply (Hlog _ _ E).
    - apply normalizedEntry_new. }
  set (e := if (m =? CommentLine K)%N then Tr.setComment payload e0
            else Tr.setValue payload (m =? ApprovedLine K)%N e0) in *.
  assert (He : normalizedEntry e).
  { unfold e. destruct (m =? CommentLine K)%N;
      [by apply normalizedEntry_setComment | by apply normalizedEntry_setValue]. }
  split; [|by exists name, e].
  clear Hst. revert Hret. unfold appendUpdate. munfold.
  destruct (updateState K _ _ w) as [[[]|e1] w1] eqn:E1; [|done].
  apply updateState_Return in E1 as (p & Hp & _ & ->).
  apply parse_updateLine in Hp; [|done]. subst p.
  destruct (optimizeUpdates K _) as [[[]|e2] w2] eqn:E2; [|done].
  simpl. intros [= <-]. simpl.
  intros fk x Hx.
  destruct (optimize_after K _ _ fk E2) as [H|H]; rewrite H in Hx; [done|].
  simpl in Hx. unfold applyLine in Hx. simpl in Hx.
  rewrite (proj2 (N.eqb_neq m (DeleteKeyLine K)) Hm) in Hx.
  unfold resolveTranslation in Hx. simpl in Hx.
  destruct (decide (fk = FullKey K name key)) as [->|Hne].
  - rewrite lookup_insert_eq in Hx. injection Hx as <-. exact He.
  - rewrite lookup_insert_ne in Hx by done. by apply (Hlog _ _ Hx).
Qed.

End WholeEntry.

(** When the entries of the log are normalized, an edit operation that
    returns leaves them so, and every field of the entry it stores is
    normalized. *)
Lemma edits_keep_log_normalized K fnName o w w' :
  distinctMarkers K -> isEdit fnName = true -> normalizedLog (state w) ->
  call K fnName o w = (Return tt, w') ->
  normalizedLog (state w')
  /\ exists fileName key e,
       Opt.fileName o = Some fileName /\ Opt.key o = Some key
       /\ storedAt (state w') (FullKey K fileName key) e /\ normalizedEntry e.
Proof.
  intros HK Hed Hlog Hcall.
  destruct (distinctMarkers_ne K HK) as (Hnd & Had & Hcd & Hnc & Hac).
  destruct fnName; try discriminate Hed; simpl in Hcall.
  - apply wrapped_Return in Hcall as [_ Hb]; [|done]. unfold updateValue_body in Hb.
    apply bind_Return in Hb as (k & w1 & Hv & Hb).
    apply validateKey_Return in Hv as (Hkey & -> & Hsep).
    apply bind_Return in Hb as ([] & w2 & Ha & Hb). injection Hb as <-.
    apply appendUpdate_normalized in Ha as (Hlog' & name & e & Hn & Hst & He);
      [|done|done|apply edgeFree_safeValue|done].
    split; [exact Hlog'|]. by exists name, k, e.
  - apply wrapped_Return in Hcall as [_ Hb]; [|done]. unfold updateApproved_body in Hb.
    apply bind_Return in Hb as (k & w1 & Hv & Hb).
    apply validateKey_Return in Hv as (Hkey & -> & Hsep).
    apply bind_Return in Hb as (s & w1 & [= <- <-] & Hb).
    apply bind_Return in Hb as ([] & w2 & Ha & Hb). injection Hb as <-.
    destruct (markerOf_ne K (default false (Opt.approved o)) HK) as [Hmd Hmc].
    apply appendUpdate_normalized in Ha as (Hlog' & name & e & Hn & Hst & He);
      [|done|done|apply edgeFree_safeValue|done].
    split; [exact Hlog'|]. by exists name, k, e.
  - apply wrapped_Return in Hcall as [_ Hb]; [|done]. unfold updateComment_body in Hb.
    apply bind_Return in Hb as (k & w1 & Hv & Hb).
    apply validateKey_Return in Hv as (Hkey & -> & Hsep).
    apply bind_Return in Hb as ([] & w2 & Ha & Hb). injection Hb as <-.
    apply appendUpdate_normalized in Ha as (Hlog' & name & e & Hn & Hst & He);
      [|done|done|apply edgeFree_safeValue|done].
    split; [exact Hlog'|]. by exists name, k, e.
  - apply wrapped_Return in Hcall as [_ Hb]; [|done]. unfold updateTranslation_body in Hb.
    apply bind_Return in Hb as (k & w1 & Hv & Hb).
    apply validateKey_Return in Hv as (Hkey & -> & Hsep).
    apply bind_Return in Hb as ([] & w2 & Ha1 & Hb).
    apply bind_Return in Hb as ([] & w3 & Ha2 & Hb). injection Hb as <-.
    destruct (markerOf_ne K (default false (Opt.approved o)) HK) as [Hmd Hmc].
    apply appendUpdate_normalized in Ha1 as (Hlog1 & _);
      [|done|done|apply edgeFree_safeValue|done].
    apply appendUpdate_normalized in Ha2 as (Hlog' & name & e & Hn & Hst & He);
      [|done|done|apply edgeFree_safeValue|done].
    split; [exact Hlog'|]. by exists name, k, e.
Qed.

(** [load] takes the payload of an update line as it is written: a
    comment replayed from the log with spaces around it stays in the
    entry when [updateValue] then sets the value of the same key. *)
Example replayed_comment_is_kept_as_written :
  let w := (load sample Opt.none (initialize paddedLogDisk)).2 in
  let r := updateValue sample
             (options (Some (JS.lit "app.en")) (Some (JS.lit "k")) (Some (JS.lit " x "))) w in
  r.1 = Return tt
  /\ (Tr.value <$> updated (state r.2) !! FullKey sample (JS.lit "app.en") (JS.lit "k"))
     = Some (Some (JS.lit "x"))
  /\ (Tr.comment <$> updated (state r.2) !! FullKey sample (JS.lit "app.en") (JS.lit "k"))
     = Some (Some (JS.lit " c ")).
Proof. vm_compute. done. Qed.

(** ** Errors captured by load *)

Section LoadFacts.
Context (K : Constants).

Lemma readLines_app fileName l1 l2 : forall n sets ups w,
  [] ∉ l1 ->
  readLines K fileName n (l1 ++ l2) sets ups w =
    match readLines K fileName n l1 sets ups w with
    | (Return r, w') => readLines K fileName (n + List.length l1) l2 r.1 r.2 w'
    | (Throw e, w') => (Throw e, w')
    end.
Proof.
  induction l1 as [|line l1 IH]; intros n sets ups w Hne; simpl.
  - by rewrite Nat.add_0_r.
  - apply not_elem_of_cons in Hne as [Hl Hne]. destruct line as [|c line]; [done|].
    replace (n + S (List.length l1))%nat with (S n + List.length l1)%nat by lia.
    destruct (bool_decide _); [by apply IH|].
    unfold bind. destruct (readBaseline K fileName (S n) (c :: line) sets w) as [[sets'|e] w'];
      [by apply IH | done].
Qed.

Lemma readBaseline_Return fileName n line sets sets' w w' p :
  parseLine K line 0 = inr p ->
  readBaseline K fileName n line sets w = (Return sets', w') ->
  valueKeys sets ⊆ valueKeys sets' /\ commentKeys sets ⊆ commentKeys sets'
  /\ pkey p ∈ kindKeys K p sets'.
Proof.
  intros Hp. unfold readBaseline, kindKeys. rewrite Hp. munfold.
  destruct (type p =? CommentLine K)%N; destruct (bool_decide _); try done.
  all: intros [= <- _]; simpl; split_and!;
    first [ reflexivity
          | by intros x Hx; apply elem_of_union; right
          | by apply elem_of_union; left; apply elem_of_singleton ].
Qed.

Lemma readBaseline_sets fileName n line sets sets' w w' :
  readBaseline K fileName n line sets w = (Return sets', w') ->
  valueKeys sets ⊆ valueKeys sets' /\ commentKeys sets ⊆ commentKeys sets'.
Proof.
  destruct (parseLine K line 0) as [c|p] eqn:Hp.
  - unfold readBaseline. by rewrite Hp.
  - intros H. by destruct (readBaseline_Return _ _ _ _ _ _ _ _ Hp H) as (? & ? & _).
Qed.

Lemma readLines_sets fileName lines : forall n sets ups w r w',
  readLines K fileName n lines sets ups w = (Return r, w') ->
  valueKeys sets ⊆ valueKeys r.1 /\ commentKeys sets ⊆ commentKeys r.1.
Proof.
  induction lines as [|line rest IH]; intros n sets ups w r w'; simpl.
  - by intros [= <- _].
  - destruct line as [|c line]; [by intros [= <- _]|].
    destruct (bool_decide _); [apply IH|].
    intros H. apply bind_Return in H as (sets1 & w1 & H1 & H2).
    apply readBaseline_sets in H1 as [? ?]. apply IH in H2 as [? ?].
    split; etrans; eassumption.
Qed.

(** A baseline line read without error leaves its key in the set of its kind. *)
Lemma readLines_seen fileName lines line p : forall n sets ups w r w',
  [] ∉ lines -> line ∈ lines -> line !! 0%nat <> Some (UpdateLine K) ->
  parseLine K line 0 = inr p ->
  readLines K fileName n lines sets ups w = (Return r, w') ->
  pkey p ∈ kindKeys K p r.1.
Proof.
  induction lines as [|x rest IH]; intros n sets ups w r w' Hne Hin Hup Hp; simpl.
  - by apply elem_of_nil in Hin.
  - apply not_elem_of_cons in Hne as [Hx Hne]. destruct x as [|c x]; [done|].
    apply elem_of_cons in Hin as [<- | Hin].
    + rewrite bool_decide_eq_false_2 by done.
      intros H. apply bind_Return in H as (sets1 & w1 & H1 & H2).
      apply (readBaseline_Return _ _ _ _ _ _ _ _ Hp) in H1 as (_ & _ & H1).
      apply readLines_sets in H2 as [Hv Hc]. unfold kindKeys in *.
      destruct (type p =? CommentLine K)%N; [by apply Hc | by apply Hv].
    + destruct (bool_decide _); [by apply IH|].
      intros H. apply bind_Return in H as (sets1 & w1 & H1 & H2). by eapply IH.
Qed.

Lemma readBaseline_duplicate fileName n line sets w p :
  parseLine K line 0 = inr p ->
  pkey p ∈ kindKeys K p sets ->
  readBaseline K fileName n line sets w =
    (Throw (StateErr {| cause := DuplicateKeyError (type p :: pkey p);
                        location := Some (fileName, n) |}),
     withState (resolveTranslation K (FullKey K fileName (pkey p)) p TOriginal (state w)) w).
Proof.
  intros Hp Hin. unfold readBaseline, kindKeys in *. rewrite Hp. munfold.
  destruct (type p =? CommentLine K)%N; by rewrite bool_decide_eq_true_2.
Qed.

Lemma loadFiles_app pre post : forall keys w,
  loadFiles K (pre ++ post) keys w =
    match loadFiles K pre keys w with
    | (Return ks, w') => loadFiles K post ks w'
    | (Throw e, w') => (Throw e, w')
    end.
Proof.
  induction pre as [|file pre IH]; intros keys w; simpl; [done|].
  unfold bind. destruct (readLines K _ _ _ _ _ w) as [[r|e] w1]; [|done].
  destruct (forOf _ _ w1) as [[[]|e] w2]; [apply IH | done].
Qed.

(** [load] when reading the files throws an error that carries
    [stateError]. *)
Lemma load_captures o w se w1 :
  loadFiles K (findI18nFiles K (disk w)) [] (withState resetState w) = (Throw (StateErr se), w1) ->
  load K o w =
    (Return tt,
     {| state := setLoaded true (setError (Some se) (state w1)); disk := disk w1;
        trace := trace w1 ++ [TriggerChangeEv; AutoExportEv]; exporter := exporter w1 |}).
Proof.
  intros H. unfold load, wrapped, load_body, validateAction, triggerChange, autoExport.
  munfold. simpl. unfold withState in H. simpl in H. rewrite H. simpl.
  by rewrite <- app_assoc.
Qed.

Lemma keeps_unloaded_readLines fileName lines : forall n sets ups,
  keeps unloaded (readLines K fileName n lines sets ups).
Proof.
  induction lines as [|line rest IH]; intros n sets ups; simpl; [apply keeps_ret|].
  destruct line; [apply keeps_ret|].
  destruct (bool_decide _); [apply IH|].
  apply keeps_bind; [|intros ?; apply IH].
  unfold readBaseline. destruct (parseLine _ _ _); [apply keeps_throw|].
  apply keeps_bind; [by apply keeps_modify | intros _].
  destruct (_ =? _)%N; destruct (bool_decide _);
    first [apply keeps_throw | apply keeps_ret].
Qed.

Lemma keeps_unloaded_loadFiles files : forall keys,
  keeps unloaded (loadFiles K files keys).
Proof.
  induction files as [|file rest IH]; intros keys; simpl; [apply keeps_ret|].
  apply keeps_bind; [apply keeps_unloaded_readLines|].
  intros r. apply keeps_bind; [|intros _; apply IH].
  apply keeps_forOf. intros line w [Hl He]. rewrite updateState_run.
  destruct (0 <=? _); [done|]. destruct (parseLine _ _ _); [done|].
  split; simpl; by rewrite ?applyLine_loaded, ?applyLine_error.
Qed.

Lemma load_clears o w ks w1 :
  loadFiles K (findI18nFiles K (disk w)) [] (withState resetState w) = (Return ks, w1) ->
  error (state (load K o w).2) = None.
Proof.
  intros H.
  pose proof (keeps_unloaded_loadFiles (findI18nFiles K (disk w)) [] (withState resetState w)
                (conj eq_refl eq_refl)) as Hk.
  rewrite H in Hk. simpl in Hk. destruct Hk as [Hl He].
  unfold load, wrapped, load_body, validateAction, triggerChange, autoExport.
  munfold. simpl. unfold withState in H. simpl in H. rewrite H.
  unfold optimizeUpdates. rewrite changeUpdates_run.
  destruct (bool_decide (size (updateKeys (state w1)) = 0%nat)); [done|].
  cbv zeta.
  destruct (foldl_loaded_error (optimizeKey K) (elements (updateKeys (state w1))) (state w1)
              (optimizeKey_frame K)) as [Hl' He'].
  fold (forEachKey (optimizeKey K) (updateKeys (state w1)) (state w1)) in Hl', He'.
  destruct (bool_decide _).
  - rewrite save_notLoaded by (simpl; congruence). simpl. congruence.
  - simpl. congruence.
Qed.

Lemma gate_rejects fn o w se :
  gated fn = true -> loaded (state w) = true -> error (state w) = Some se ->
  call K fn o w = (Throw (NotResolvedError se), w).
Proof.
  intros Hg Hl He.
  destruct fn; try discriminate Hg; simpl;
    unfold addFile, deleteFile, addKey, copyKey, renameKey, deleteKey, updateValue,
      updateApproved, updateComment, updateTranslation, revert, save_public,
      wrapped, validateAction; munfold; by rewrite Hl, He.
Qed.

End LoadFacts.

(** Claim C6.  [load] reads the files [pre] and the lines [before]
    of a file without error, and the next line, [dup], is a baseline
    line of the same kind (comment or value) and key as a baseline line
    [first] among [before].  Then [load] returns, [state.error] holds
    the duplicate-key error with the file name and the line number,
    [state.loaded] is true, every gated function throws the
    not-resolved error that wraps it and changes nothing, whatever the
    files become, and a [load] that reads its files without error
    leaves [state.error] unset. *)
Theorem duplicate_key_captured K o w pre fileName before dup rest post keys w1 r w2 first p0 p :
  findI18nFiles K (disk w) = pre ++ (fileName, before ++ dup :: rest) :: post ->
  loadFiles K pre [] (withState resetState w) = (Return keys, w1) ->
  readLines K fileName 0 before
    {| seenKeys := keys; valueKeys := ∅; commentKeys := ∅ |} [] w1 = (Return r, w2) ->
  [] ∉ before ->
  first ∈ before -> first !! 0%nat <> Some (UpdateLine K) -> parseLine K first 0 = inr p0 ->
  dup !! 0%nat <> Some (UpdateLine K) -> parseLine K dup 0 = inr p ->
  pkey p0 = pkey p ->
  (type p0 =? CommentLine K)%N = (type p =? CommentLine K)%N ->
  let se := {| cause := DuplicateKeyError (type p :: pkey p);
               location := Some (fileName, S (List.length before)) |} in
  exists w',
    load K o w = (Return tt, w')
    /\ error (state w') = Some se
    /\ loaded (state w') = true
    /\ (forall fnName o', gated fnName = true ->
          call K fnName o' w' = (Throw (NotResolvedError se), w'))
    /\ (forall d o' ks w3,
          loadFiles K (findI18nFiles K d) [] (withState resetState (runStep K (Outside d) w'))
            = (Return ks, w3) ->
          error (state (load K o' (runStep K (Outside d) w')).2) = None).
Proof.
  intros Hfiles Hpre Hbefore Hne Hin Hfu Hp0 Hdu Hp Hkey Hkind se.
  assert (Hseen : pkey p ∈ kindKeys K p r.1).
  { pose proof (readLines_seen K _ _ _ _ _ _ _ _ _ _ Hne Hin Hfu Hp0 Hbefore) as H.
    unfold kindKeys in *. by rewrite <- Hkey, <- Hkind. }
  assert (Hload : exists w3,
    loadFiles K (findI18nFiles K (disk w)) [] (withState resetState w) = (Throw (StateErr se), w3)).
  { rewrite Hfiles, loadFiles_app, Hpre. simpl. unfold bind.
    rewrite readLines_app, Hbefore by done. simpl.
    destruct dup as [|c dup]; [done|].
    rewrite bool_decide_eq_false_2 by done. unfold bind.
    rewrite (readBaseline_duplicate K _ _ _ _ _ p Hp Hseen). eauto. }
  destruct Hload as [w3 Hload].
  eexists. split; [apply (load_captures K o w se w3 Hload)|]. simpl.
  split; [done|]. split; [done|]. split.
  - intros fnName o' Hg. by apply gate_rejects.
  - intros d o' ks w4 H. by apply (load_clears K o' _ ks w4).
Qed.

(** ** load and save on files that follow a sheet *)

Section SheetFacts.
Context (K : Constants) (sh : Sheet).

Lemma parse_baseline m key payload :
  isLineType K m = true -> m <> KeyValueSeparator K -> KeyValueSeparator K ∉ key ->
  parseLine K (m :: key ++ KeyValueSeparator K :: payload) 0
  = inr {| type := m; pkey := key; pvalue := payload |}.
Proof.
  intros Hm Hsep Hk. unfold parseLine. simpl. rewrite Hm. simpl.
  unfold JS.indexOf. simpl.
  rewrite (proj2 (N.eqb_neq m (KeyValueSeparator K)) Hsep).
  rewrite find_first by done. cbn [fmap option_fmap option_map].
  destruct (Z.of_nat _ <=? Z.of_nat 0) eqn:E; [apply Z.leb_le in E; lia|]. f_equal. f_equal.
  - unfold JS.substring. rewrite Nat2Z.id.
    replace (S (List.length key) - 1)%nat with (List.length key) by lia.
    change (drop 1 (m :: key ++ KeyValueSeparator K :: payload))
      with (key ++ KeyValueSeparator K :: payload).
    by rewrite take_app_length.
  - unfold JS.substringFrom. rewrite Nat2Z.id.
    replace (S (List.length key) + 1)%nat with (S (S (List.length key))) by lia.
    change (drop (S (S (List.length key))) (m :: key ++ KeyValueSeparator K :: payload))
      with (drop (S (List.length key)) (key ++ KeyValueSeparator K :: payload)).
    rewrite drop_app_ge by lia.
    by replace (S (List.length key) - List.length key)%nat with 1%nat by lia.
Qed.

Lemma FullKey_inj n n' k k' :
  FullKeySeparator K ∉ n -> FullKeySeparator K ∉ n' ->
  FullKey K n k = FullKey K n' k' -> n = n' /\ k = k'.
Proof.
  unfold FullKey, buildFK. revert n'. induction n as [|x n IH]; intros [|y n'] Hn Hn'; simpl.
  - by intros [= ->].
  - intros [= <- _]. exfalso. apply Hn'. by left.
  - intros [= -> _]. exfalso. apply Hn. by left.
  - apply not_elem_of_cons in Hn as [_ Hn]. apply not_elem_of_cons in Hn' as [_ Hn'].
    intros [= -> H]. destruct (IH n' Hn Hn' H) as [-> ->]. done.
Qed.

Lemma FullKey_inj_key n k k' : FullKey K n k = FullKey K n k' -> k = k'.
Proof. unfold FullKey, buildFK. intros H. apply app_inv_head in H. by injection H. Qed.

Lemma plainMarkers_facts :
  plainMarkers K ->
  distinctMarkers K
  /\ CommentLine K <> UpdateLine K /\ CommentLine K <> KeyValueSeparator K
  /\ (forall a, markerOf K a <> UpdateLine K /\ markerOf K a <> KeyValueSeparator K
                /\ markerOf K a <> CommentLine K
                /\ (markerOf K a =? ApprovedLine K)%N = a).
Proof.
  intros [Hd Hf]. split; [done|].
  apply Forall_cons in Hf as [[? ?] Hf]. apply Forall_cons in Hf as [[? ?] Hf].
  apply Forall_cons in Hf as [[? ?] _].
  destruct (distinctMarkers_ne K Hd) as (? & ? & ? & ? & ?).
  assert (NotApprovedLine K <> ApprovedLine K).
  { unfold distinctMarkers in Hd. rewrite !NoDup_cons, !not_elem_of_cons in Hd.
    destruct Hd as (_ & (? & _) & _). congruence. }
  repeat split; try done; destruct a; simpl; try done.
  - apply N.eqb_refl.
  - by apply N.eqb_neq.
Qed.

Lemma isLineType_comment : isLineType K (CommentLine K) = true.
Proof. unfold isLineType. by rewrite N.eqb_refl. Qed.

Lemma isLineType_marker a : isLineType K (markerOf K a) = true.
Proof.
  unfold isLineType. destruct a; simpl; rewrite N.eqb_refl; by rewrite ?orb_true_r.
Qed.

Lemma setAdd_idem k l : setAdd k (setAdd k l) = setAdd k l.
Proof.
  unfold setAdd. destruct (bool_decide (k ∈ l)) eqn:E.
  - by rewrite E.
  - rewrite bool_decide_eq_true_2; [done|]. apply elem_of_app. right. by left.
Qed.

(** Reading the lines of one key. *)
Lemma readLines_key fileName k rest n sets ups w :
  plainMarkers K -> KeyValueSeparator K ∉ k ->
  k ∉ valueKeys sets -> k ∉ commentKeys sets ->
  original (state w) !! FullKey K fileName k = None ->
  readLines K fileName n (sheetKeyLines K sh fileName k ++ rest) sets ups w
  = readLines K fileName (n + List.length (sheetKeyLines K sh fileName k)) rest
      (readKey sh k sets) ups
      (withState (putEntry (FullKey K fileName k) (sheetEntry sh fileName k) (state w)) w).
Proof.
  intros HK Hk Hv Hc Ho.
  destruct (plainMarkers_facts HK) as (Hd & Hcu & Hcs & Hm).
  destruct (Hm (approvedOf sh fileName k)) as (Hmu & Hms & Hmc & Hma).
  unfold sheetKeyLines, readKey, sheetEntry. destruct (commented sh k) eqn:Hcm; simpl.
  - rewrite bool_decide_eq_false_2 by (intros [= ?]; done).
    unfold bind at 1. unfold readBaseline at 1.
    rewrite parse_baseline by (done || apply isLineType_comment). simpl.
    munfold. simpl. rewrite N.eqb_refl. rewrite bool_decide_eq_false_2 by done.
    rewrite bool_decide_eq_false_2 by (intros [= ?]; done).
    unfold readBaseline. rewrite parse_baseline by (done || apply isLineType_marker). simpl.
    munfold. simpl. rewrite (proj2 (N.eqb_neq _ _) Hmc).
    rewrite bool_decide_eq_false_2 by done.
    rewrite setAdd_idem. replace (n + 2)%nat with (S (S n)) by lia.
    f_equal. unfold resolveTranslation, putEntry. simpl. rewrite Ho. simpl.
    rewrite (proj2 (N.eqb_neq _ _) Hmc), N.eqb_refl. rewrite lookup_insert_eq. simpl.
    rewrite Hma. unfold withState, setUpdated, setOriginal. simpl.
    by rewrite !insert_insert_eq.
  - rewrite bool_decide_eq_false_2 by (intros [= ?]; done).
    unfold bind at 1. unfold readBaseline at 1.
    rewrite parse_baseline by (done || apply isLineType_marker). simpl.
    munfold. simpl. rewrite (proj2 (N.eqb_neq _ _) Hmc).
    rewrite bool_decide_eq_false_2 by done.
    replace (n + 1)%nat with (S n) by lia.
    f_equal. unfold resolveTranslation, putEntry. simpl. rewrite Ho. simpl.
    rewrite (proj2 (N.eqb_neq _ _) Hmc). rewrite Hma. done.
Qed.


Lemma readLines_sheet fileName ks : forall n sets ups w,
  plainMarkers K -> NoDup ks ->
  (forall k, k ∈ ks ->
     (KeyValueSeparator K ∉ k) /\ (k ∉ valueKeys sets) /\ (k ∉ commentKeys sets)
     /\ original (state w) !! FullKey K fileName k = None) ->
  exists n',
  readLines K fileName n (flat_map (sheetKeyLines K sh fileName) ks) sets ups w
  = (Return (foldl (fun st k => readKey sh k st) sets ks, ups),
     withState (foldl (fun s k => putEntry (FullKey K fileName k) (sheetEntry sh fileName k) s)
                  (state w) ks) w)
  /\ n' = n.
Proof.
  induction ks as [|k ks IH]; intros n sets ups w HK Hnd Hpre; simpl.
  - exists n. by destruct w.
  - apply NoDup_cons in Hnd as [Hk Hnd].
    destruct (Hpre k) as (Hsep & Hv & Hc & Ho); [by left|].
    rewrite readLines_key by done.
    edestruct (IH (n + List.length (sheetKeyLines K sh fileName k))%nat (readKey sh k sets) ups
                 (withState (putEntry (FullKey K fileName k) (sheetEntry sh fileName k) (state w)) w)
                 HK Hnd) as (n' & -> & _).
    + intros k' Hk'. destruct (Hpre k') as (? & ? & ? & ?); [by right|].
      assert (k' <> k) by (intros ->; done).
      split; [done|]. unfold readKey. simpl.
      split; [by rewrite elem_of_union, elem_of_singleton; intros [?|?]|]. split.
      * destruct (commented sh k); [|done].
        by rewrite elem_of_union, elem_of_singleton; intros [?|?].
      * rewrite lookup_insert_ne; [done|]. intros E. by apply FullKey_inj_key in E.
    + exists n. done.
Qed.

Lemma seenKeys_readKeys ks : forall sets,
  seenKeys (foldl (fun st k => readKey sh k st) sets ks) = addKeys (seenKeys sets) ks.
Proof. induction ks as [|k ks IH]; intros sets; simpl; [done|]. by rewrite IH. Qed.

Lemma addKeys_fresh ks : forall l, NoDup (l ++ ks) -> addKeys l ks = l ++ ks.
Proof.
  induction ks as [|k ks IH]; intros l Hnd; simpl; [by rewrite app_nil_r|].
  unfold setAdd. rewrite bool_decide_eq_false_2.
  - rewrite IH; rewrite <- app_assoc; done.
  - apply NoDup_app in Hnd as (_ & H & _). intros Hin. apply (H k Hin). by left.
Qed.

Lemma addKeys_known ks : forall l, (forall k, k ∈ ks -> k ∈ l) -> addKeys l ks = l.
Proof.
  induction ks as [|k ks IH]; intros l H; simpl; [done|].
  unfold setAdd. rewrite bool_decide_eq_true_2 by (apply H; by left).
  apply IH. intros k' Hk'. apply H. by right.
Qed.

Lemma updates_putSheet fileName s : updates (putSheet K sh fileName s) = updates s.
Proof.
  unfold putSheet. generalize (sheetKeys sh). intros ks. revert s.
  induction ks as [|k ks IH]; intros s; simpl; [done|]. by rewrite IH.
Qed.

Lemma original_putSheet_other fileName s fullKey :
  (forall k, fullKey <> FullKey K fileName k) ->
  original (putSheet K sh fileName s) !! fullKey = original s !! fullKey.
Proof.
  intros H. unfold putSheet. generalize (sheetKeys sh). intros ks. revert s.
  induction ks as [|k ks IH]; intros s; simpl; [done|].
  rewrite IH. simpl. rewrite lookup_insert_ne; [done|]. intros E. by apply (H k).
Qed.

Lemma loadFiles_sheet names : forall keys w,
  plainMarkers K -> NoDup names -> (forall n, n ∈ names -> FullKeySeparator K ∉ n) ->
  NoDup (sheetKeys sh) -> (forall k, k ∈ sheetKeys sh -> KeyValueSeparator K ∉ k) ->
  (forall n k, n ∈ names -> k ∈ sheetKeys sh -> original (state w) !! FullKey K n k = None) ->
  loadFiles K (map (fun n => (n, sheetLines K sh n)) names) keys w
  = (Return (foldl (fun l (_ : list N) => addKeys l (sheetKeys sh)) keys names),
     withState (foldl (fun s n => putSheet K sh n s) (state w) names) w).
Proof.
  induction names as [|n names IH]; intros keys w HK Hnd Hsep Hks Hksep Hpre; simpl.
  - by destruct w.
  - apply NoDup_cons in Hnd as [Hn Hnd]. unfold bind at 1. unfold sheetLines.
    edestruct (readLines_sheet n (sheetKeys sh) 0%nat
                 {| seenKeys := keys; valueKeys := ∅; commentKeys := ∅ |} [] w HK Hks)
      as (n' & -> & _).
    { intros k Hk. split; [by apply Hksep|].
      split; [apply not_elem_of_empty|]. split; [apply not_elem_of_empty|].
      apply Hpre; [by left | done]. }
    simpl. unfold bind, ret. simpl. rewrite seenKeys_readKeys. simpl.
    fold (putSheet K sh n (state w)).
    rewrite (IH _ (withState (putSheet K sh n (state w)) w)); try done.
    + intros n0 Hn0. apply Hsep. by right.
    + intros n0 k Hn0 Hk. simpl. rewrite original_putSheet_other.
      * apply Hpre; [by right | done].
      * intros k' E. apply FullKey_inj in E as [-> _]; [done | | ].
        -- apply Hsep. by right.
        -- apply Hsep. by left.
Qed.

Lemma keys_of_sheet names :
  NoDup (sheetKeys sh) ->
  foldl (fun l (_ : list N) => addKeys l (sheetKeys sh)) [] names
  = match names with [] => [] | _ => sheetKeys sh end.
Proof.
  intros Hnd. destruct names as [|n names]; simpl; [done|].
  rewrite addKeys_fresh by done. simpl.
  induction names as [|n' names IH]; simpl; [done|].
  rewrite addKeys_known by done. exact IH.
Qed.

Lemma putEntry_keeps_entry n k n' k' s :
  FullKeySeparator K ∉ n -> FullKeySeparator K ∉ n' ->
  updated s !! FullKey K n k = Some (sheetEntry sh n k) ->
  updated (putEntry (FullKey K n' k') (sheetEntry sh n' k') s) !! FullKey K n k
  = Some (sheetEntry sh n k).
Proof.
  intros Hn Hn' H. simpl. destruct (decide (FullKey K n' k' = FullKey K n k)) as [E|E].
  - rewrite E, lookup_insert_eq. apply FullKey_inj in E as [-> ->]; done.
  - by rewrite lookup_insert_ne.
Qed.

Lemma putSheet_keeps_entry n k n' s :
  FullKeySeparator K ∉ n -> FullKeySeparator K ∉ n' ->
  updated s !! FullKey K n k = Some (sheetEntry sh n k) ->
  updated (putSheet K sh n' s) !! FullKey K n k = Some (sheetEntry sh n k).
Proof.
  intros Hn Hn'. unfold putSheet. generalize (sheetKeys sh). intros ks. revert s.
  induction ks as [|k' ks IH]; intros s H; simpl; [done|].
  apply IH. by apply putEntry_keeps_entry.
Qed.

Lemma putSheet_entry n k s :
  FullKeySeparator K ∉ n ->
  k ∈ sheetKeys sh \/ updated s !! FullKey K n k = Some (sheetEntry sh n k) ->
  updated (putSheet K sh n s) !! FullKey K n k = Some (sheetEntry sh n k).
Proof.
  intros Hn. unfold putSheet. generalize (sheetKeys sh). intros ks. revert s.
  induction ks as [|k' ks IH]; intros s Hk; simpl.
  - destruct Hk as [Hk|Hk]; [by apply elem_of_nil in Hk | done].
  - apply IH. destruct Hk as [Hk|Hk].
    + apply elem_of_cons in Hk as [->|Hk]; [right|by left].
      simpl. by rewrite lookup_insert_eq.
    + right. by apply putEntry_keeps_entry.
Qed.

Lemma putSheets_entry names : forall s n k,
  (forall n', n' ∈ names -> FullKeySeparator K ∉ n') -> FullKeySeparator K ∉ n ->
  n ∈ names \/ updated s !! FullKey K n k = Some (sheetEntry sh n k) ->
  k ∈ sheetKeys sh ->
  updated (foldl (fun s n => putSheet K sh n s) s names) !! FullKey K n k
  = Some (sheetEntry sh n k).
Proof.
  induction names as [|n' names IH]; intros s n k Hsep Hn Hin Hk; simpl.
  - destruct Hin as [Hin|Hin]; [by apply elem_of_nil in Hin | done].
  - apply IH; [intros; apply Hsep; by right | done | | done].
    destruct Hin as [Hin|Hin].
    + apply elem_of_cons in Hin as [->|Hin]; [right|by left].
      apply putSheet_entry; [done | by left].
    + right. apply putSheet_keeps_entry; [done | apply Hsep; by left | done].
Qed.

Lemma updates_putSheets names : forall s,
  updates (foldl (fun s n => putSheet K sh n s) s names) = updates s.
Proof.
  induction names as [|n names IH]; intros s; simpl; [done|].
  by rewrite IH, updates_putSheet.
Qed.

End SheetFacts.

Section SaveSheet.
Context (K : Constants) (sh : Sheet).

Lemma files_of_sheet (l : list (list N * list (list N))) (g : list N -> list (list N)) :
  (forall f, f ∈ l -> f.2 = g f.1) -> l = map (fun n => (n, g n)) l.*1.
Proof.
  induction l as [|[n c] l IH]; intros H; [done|].
  change ((n, c) :: l = (n, g n) :: map (fun n => (n, g n)) l.*1). f_equal.
  - f_equal. apply (H (n, c)). by left.
  - apply IH. intros. apply H. by right.
Qed.

Lemma flat_map_agree {A B} (f g : A -> list B) (l : list A) :
  (forall x, x ∈ l -> f x = g x) -> flat_map f l = flat_map g l.
Proof.
  induction l as [|x l IH]; intros H; simpl; [done|].
  rewrite H by (by left). rewrite IH; [done|]. intros. apply H. by right.
Qed.

Lemma existsb_agree {A} (f g : A -> bool) (l : list A) :
  (forall x, x ∈ l -> f x = g x) -> existsb f l = existsb g l.
Proof.
  induction l as [|x l IH]; intros H; simpl; [done|].
  rewrite H by (by left). rewrite IH; [done|]. intros. apply H. by right.
Qed.

Lemma existsb_none {A} (l : list A) : existsb (fun _ => false) l = false.
Proof. induction l; simpl; done. Qed.

Lemma existsb_some {A} (f : A -> bool) (l : list A) x :
  x ∈ l -> f x = true -> existsb f l = true.
Proof.
  intros Hin Hf. apply existsb_exists. exists x. split; [|done].
  by apply list_elem_of_In.
Qed.

Lemma map_fixed {A} (f : A -> A) (l : list A) :
  (forall x, x ∈ l -> f x = x) -> map f l = l.
Proof.
  induction l as [|x l IH]; intros H; simpl; [done|].
  rewrite H by (by left). rewrite IH; [done|]. intros. apply H. by right.
Qed.

Lemma error_putSheets names : forall s,
  error (foldl (fun s n => putSheet K sh n s) s names) = error s.
Proof.
  induction names as [|n names IH]; intros s; simpl; [done|]. rewrite IH.
  unfold putSheet. generalize (sheetKeys sh). intros ks. revert s. clear.
  induction ks as [|k ks IH]; intros s; simpl; [done|]. by rewrite IH.
Qed.

(** The lines [save] writes for a key are those of the sheet. *)
Lemma saveKeyLines_sheet s names n k :
  (forall f, f ∈ names -> updated s !! FullKey K f k = Some (sheetEntry sh f k)) ->
  n ∈ names ->
  (exists f, f ∈ names
     /\ nonBlank (Some (if commented sh k then commentOf sh f k else valueOf sh f k)) = true) ->
  saveKeyLines K s names n k = sheetKeyLines K sh n k.
Proof.
  intros Hup Hn (f & Hf & Hnb). unfold saveKeyLines, sheetKeyLines.
  rewrite (existsb_agree _ (fun f => nonBlank (Tr.comment (sheetEntry sh f k))) names)
    by (intros x Hx; by rewrite (Hup x Hx)).
  rewrite (existsb_agree (fun f => nonBlank (updated s !! FullKey K f k ≫= Tr.value))
             (fun f => nonBlank (Tr.value (sheetEntry sh f k))) names)
    by (intros x Hx; by rewrite (Hup x Hx)).
  rewrite (Hup n Hn). simpl. destruct (commented sh k) eqn:Hc.
  - rewrite (existsb_some _ names f Hf Hnb). simpl. done.
  - rewrite existsb_none. simpl.
    rewrite (existsb_some _ names f Hf Hnb). done.
Qed.

End SaveSheet.

(** Claim C8, amended.  When the locale files follow a sheet (the
    form [save] writes), [load] returns with an empty log and a [save]
    right after it leaves every file of the directory as it was. *)
Theorem load_then_save_canonical K sh o o' w :
  plainMarkers K -> canonical K sh (disk w) ->
  exists w1 w2,
    load K o w = (Return tt, w1)
    /\ length (updates (state w1)) = 0%nat
    /\ save_public K o' w1 = (Return tt, w2)
    /\ disk w2 = disk w.
Proof.
  intros HK [Hnames Hnsep Hkeys Hksep Hlines Hshown].
  set (names := (findI18nFiles K (disk w)).*1) in *.
  assert (Hfiles : findI18nFiles K (disk w) = map (fun n => (n, sheetLines K sh n)) names).
  { by apply files_of_sheet. }
  set (S := foldl (fun s n => putSheet K sh n s) resetState names).
  set (ks := match names with [] => [] | _ => sheetKeys sh end).
  assert (Hload : load K o w =
    (Return tt, {| state := setLoaded true (setKeys (fun _ => ks) S); disk := disk w;
                   trace := trace w ++ [TriggerChangeEv; AutoExportEv];
                   exporter := exporter w |})).
  { unfold load, wrapped, load_body, validateAction, triggerChange, autoExport.
    munfold. simpl. rewrite Hfiles.
    rewrite loadFiles_sheet; try done.
    rewrite keys_of_sheet by done. fold ks. simpl. fold S.
    unfold optimizeUpdates. rewrite changeUpdates_run. simpl.
    assert (HS : updateKeys S = ∅).
    { unfold updateKeys, S. by rewrite updates_putSheets. }
    rewrite bool_decide_eq_true_2 by (by rewrite HS). simpl.
    by rewrite <- app_assoc. }
  eexists _, _. split; [exact Hload|]. split.
  { simpl. unfold S. by rewrite updates_putSheets. }
  unfold save_public, wrapped. munfold.
  rewrite gate_pass; [| done | simpl; unfold S; by rewrite error_putSheets].
  unfold save_body, triggerChange, autoExport. munfold. simpl. split; [reflexivity|].
  simpl. apply map_fixed. intros f Hf.
  destruct (FileNameRegExp K f.1) eqn:Hre; [|done].
  assert (Hfin : f ∈ findI18nFiles K (disk w)).
  { unfold findI18nFiles. apply list_elem_of_filter. done. }
  assert (Hn : f.1 ∈ names).
  { unfold names. apply list_elem_of_fmap. by exists f. }
  destruct f as [n c]. simpl in *. f_equal. pose proof (Hlines (n, c) Hfin) as Hc.
  simpl in Hc. rewrite Hc. unfold saveFile, sheetLines. simpl.
  assert (ks = sheetKeys sh) as ->.
  { unfold ks. destruct names; [by apply elem_of_nil in Hn | done]. }
  apply flat_map_agree. intros k Hk. apply saveKeyLines_sheet; [|done|by apply Hshown].
  intros f Hf'. simpl. apply putSheets_entry; auto.
Qed.

(** ** The key operations; examples *)

Section KeyOperations.
Context (K : Constants).

Lemma validateKey_valid key w :
  key <> [] -> KeyValueSeparator K ∉ key ->
  validateKey K (Some key) w = (Return key, w).
Proof.
  intros Hne Hsep. unfold validateKey.
  rewrite bool_decide_eq_false_2 by done. rewrite indexOf_absent by done.
  destruct key; [done|]. done.
Qed.

(** [addKey] for a valid key on a loaded engine: the two failures of
    the specification, and what happens for a new key when there are
    locale files. *)
Lemma addKey_outcome o w key :
  loaded (state w) = true -> error (state w) = None ->
  Opt.key o = Some key -> key <> [] -> KeyValueSeparator K ∉ key ->
  addKey K o w =
    if bool_decide (key ∈ keys (state w)) then (Throw (KeyExistError key), w)
    else if bool_decide (findI18nFiles K (disk w) = []) then (Throw NoI18nFilesError, w)
    else (Throw (InvalidKeyError None),
          withState (setKeys (SortedArray.insert (SortedArray.lowerBound key (keys (state w))) key)
                       (state w)) w).
Proof.
  intros Hl He Hk Hne Hsep. unfold addKey, wrapped. munfold.
  rewrite (gate_pass fn_addKey w Hl He). unfold addKey_body. rewrite Hk. munfold.
  rewrite validateKey_valid by done. simpl. unfold SortedArray.sortedIndexOf.
  destruct (bool_decide (key ∈ keys (state w))); [done|].
  destruct (Z.of_nat _ =? -1) eqn:E; [apply Z.eqb_eq in E; lia|]. rewrite Nat2Z.id.
  destruct (findI18nFiles K (disk w)) as [|f fs] eqn:Ef; simpl; [done|].
  unfold updateValue, wrapped. munfold.
  rewrite gate_pass by done. done.
Qed.

(** [renameKey] never returns normally for two different keys: the
    call [this.deleteKey({ fromKey })] reaches [_validateKey] with no
    key. *)
Lemma renameKey_never_returns o w :
  Opt.fromKey o <> Opt.toKey o -> (renameKey K o w).1 <> Return tt.
Proof.
  intros Hne. unfold renameKey, wrapped, bind.
  destruct (validateAction fn_renameKey w) as [[[]|e] w0]; [|done].
  unfold renameKey_body. rewrite bool_decide_eq_false_2 by done. unfold bind.
  destruct (validateKey K (Opt.fromKey o) w0) as [[fromKey|e] w1]; [|done].
  destruct (validateKey K (Opt.toKey o) w1) as [[toKey|e] w2]; [|done].
  destruct (copyKey K (fromTo fromKey toKey) w2) as [[[]|e] w3]; [|done].
  unfold deleteKey, wrapped, bind.
  destruct (validateAction fn_deleteKey w3) as [[[]|e] w4]; done.
Qed.

End KeyOperations.

(** Claim C9, at the failing input.  On the loaded example, [addKey]
    for the new key [bye] puts the key in the registry and then throws
    the invalid-key error of [updateValue]; no line is appended to any
    file. *)
Theorem addKey_new_key_throws :
  let r := addKey sample (options None (Some (JS.lit "bye")) None) exampleWorld in
  r.1 = Throw (InvalidKeyError None)
  /\ keys (state r.2) = [JS.lit "bye"; JS.lit "hello"]
  /\ disk r.2 = exampleDisk.
Proof. vm_compute. done. Qed.

(** Claim C7, at the failing input.  On the loaded example,
    [renameKey] from [hello] to [hi] throws the invalid-key error and
    leaves both keys registered, while [copyKey] followed by
    [deleteKey] of [hello] removes [hello] from the registry and throws
    the invalid-line error of the delete line. *)
Theorem renameKey_is_not_copy_then_delete :
  let r := renameKey sample (fromTo (JS.lit "hello") (JS.lit "hi")) exampleWorld in
  let c := copyKey sample (fromTo (JS.lit "hello") (JS.lit "hi")) exampleWorld in
  let d := deleteKey sample (options None (Some (JS.lit "hello")) None) c.2 in
  r.1 = Throw (InvalidKeyError None)
  /\ keys (state r.2) = [JS.lit "hello"; JS.lit "hi"]
  /\ c.1 = Return tt
  /\ d.1 = Throw (StateErr {| cause := InvalidLineError (JS.lit "~!hello"); location := None |})
  /\ keys (state d.2) = [JS.lit "hi"].
Proof. vm_compute. done. Qed.

(** Claim C1, counterexample: a leading space does not come back. *)
Lemma roundtrip_loses_leading_space :
  unsafeValue sample (Some (safeValue sample (Some (JS.lit " a")))) <> JS.lit " a".
Proof. vm_compute. discriminate. Qed.

(** Claim C3, counterexample: with an edit of [app.en] still in the
    log, [updateValue] then [revert] on [app.fr] runs no [save]. *)
Lemma revert_with_other_edit_pending_does_not_save :
  let w2 := runSteps sample
              [Call fn_load Opt.none;
               Call fn_updateValue (options (Some (JS.lit "app.en")) (Some (JS.lit "hello"))
                                      (Some (JS.lit "Hello")));
               Call fn_updateValue (options (Some (JS.lit "app.fr")) (Some (JS.lit "hello"))
                                      (Some (JS.lit "Salut")))]
              (initialize exampleDisk) in
  let r := revert sample (options (Some (JS.lit "app.fr")) (Some (JS.lit "hello")) None) w2 in
  r.1 = Return tt /\ trace r.2 = trace w2 /\ (SaveEv ∉ trace r.2).
Proof.
  vm_compute. split; [done|]. split; [done|].
  intros H. apply list_elem_of_In in H. simpl in H. intuition discriminate.
Qed.

(** Claim C4, counterexample: [load] returns with a captured error
    after two update lines of one key; [updates.length] is 2 and the
    log has one full key. *)
Lemma length_after_failed_load :
  let w := runSteps sample [Call fn_load Opt.none] (initialize brokenLogDisk) in
  length (updates (state w)) <> size (updateKeys (state w)).
Proof. vm_compute. discriminate. Qed.

(** Claim C8, counterexample: a file with a comment line and no value
    line gains a value line. *)
Lemma load_save_rewrites_comment_only_file :
  disk (runSteps sample [Call fn_load Opt.none; Call fn_save Opt.none]
          (initialize commentOnlyDisk))
  <> commentOnlyDisk.
Proof. vm_compute. discriminate. Qed.

(** The scenario of section 8 of the specification: after
    [updateValue] and [revert] on [app.fr] the files are the loaded
    ones and the baseline holds the entry; [save] has left the working
    map empty. *)
Example revert_scenario_empties_working_map :
  let w := runSteps sample
             [Call fn_load Opt.none;
              Call fn_updateValue (options (Some (JS.lit "app.fr")) (Some (JS.lit "hello"))
                                     (Some (JS.lit "Salut")));
              Call fn_revert (options (Some (JS.lit "app.fr")) (Some (JS.lit "hello")) None)]
             (initialize exampleDisk) in
  disk w = exampleDisk
  /\ original (state w) !! FullKey sample (JS.lit "app.fr") (JS.lit "hello")
     = Some (Tr.setValue (JS.lit "Hi") true (Tr.new (JS.lit "hello")))
  /\ updated (state w) = ∅
  /\ updates (state w) = emptyUpdates.
Proof. vm_compute. done. Qed.

(** An edit that restores the baseline: [save] rewrites the files and
    [_appendUpdate] then appends its update line to the file. *)
Example appended_line_follows_compaction :
  disk (appendUpdate sample (Some (JS.lit "app.fr")) (JS.lit "+hello=Hi") exampleWorld).2
  = [(JS.lit "app.en", [JS.lit "+hello=Hi"]);
     (JS.lit "app.fr", [JS.lit "+hello=Hi"; JS.lit "~+hello=Hi"])].
Proof. vm_compute. reflexivity. Qed.

(** The first half of that scenario: [updateValue] appends the update
    line to [app.fr] and the working entry holds the new value, not
    approved. *)
Example updateValue_scenario :
  let w := runSteps sample
             [Call fn_load Opt.none;
              Call fn_updateValue (options (Some (JS.lit "app.fr")) (Some (JS.lit "hello"))
                                     (Some (JS.lit "Salut")))]
             (initialize exampleDisk) in
  disk w = [(JS.lit "app.en", [JS.lit "+hello=Hi"]);
            (JS.lit "app.fr", [JS.lit "+hello=Hi"; JS.lit "~-hello=Salut"])]
  /\ updated (state w) !! FullKey sample (JS.lit "app.fr") (JS.lit "hello")
     = Some (Tr.setValue (JS.lit "Salut") false (Tr.new (JS.lit "hello")))
  /\ length (updates (state w)) = 1%nat.
Proof. vm_compute. done. Qed.

(** ** Instances of the theorems *)

(** Claim C1, witness. *)
Lemma safeValue_roundtrip_example :
  unsafeValue sample (Some (safeValue sample (Some (JS.lit "two" ++ JS.LF :: JS.lit "lines"))))
  = JS.lit "two" ++ JS.LF :: JS.lit "lines".
Proof.
  apply (safeValue_roundtrip sample); [vm_compute; reflexivity | absent_by_computation].
Defined.

(** [compaction_trigger] on the example. *)
Lemma compaction_trigger_example :
  (exists tl,
     trace (appendUpdate sample (Some (JS.lit "app.fr")) (JS.lit "+hello=Hi") exampleWorld).2
     = trace exampleWorld ++ SaveEv :: tl)
  /\ updates (state (appendUpdate sample (Some (JS.lit "app.fr")) (JS.lit "+hello=Hi")
                      exampleWorld).2) = emptyUpdates.
Proof.
  apply (compaction_trigger sample exampleWorld (Some (JS.lit "app.fr")) (JS.lit "+hello=Hi")
           (updateState sample (JS.lit "app.fr") (JS.lit "~+hello=Hi") exampleWorld).2).
  - vm_compute; reflexivity.
  - vm_compute; reflexivity.
  - vm_compute; reflexivity.
  - vm_compute; discriminate.
  - vm_compute; reflexivity.
Defined.

(** Claim C3, witness. *)
Lemma revert_after_updateValue_example :
  exists w2,
    revert sample (options (Some (JS.lit "app.fr")) (Some (JS.lit "hello")) None)
      (updateValue sample
         (options (Some (JS.lit "app.fr")) (Some (JS.lit "hello")) (Some (JS.lit "Salut")))
         exampleWorld).2 = (Return tt, w2)
    /\ original (state w2) !! FullKey sample (JS.lit "app.fr") (JS.lit "hello")
       = original (state exampleWorld) !! FullKey sample (JS.lit "app.fr") (JS.lit "hello").
Proof.
  destruct (revert_after_updateValue sample
              (options (Some (JS.lit "app.fr")) (Some (JS.lit "hello")) (Some (JS.lit "Salut")))
              (options (Some (JS.lit "app.fr")) (Some (JS.lit "hello")) None)
              exampleWorld
              (updateValue sample
                 (options (Some (JS.lit "app.fr")) (Some (JS.lit "hello"))
                    (Some (JS.lit "Salut"))) exampleWorld).2
              (JS.lit "app.fr") (JS.lit "hello"))
    as (w2 & Hr & _ & _ & Ho & _).
  - reflexivity.
  - reflexivity.
  - reflexivity.
  - reflexivity.
  - absent_by_computation.
  - absent_by_computation.
  - vm_compute; reflexivity.
  - vm_compute; reflexivity.
  - exists w2. split; [exact Hr|]. rewrite Ho. vm_compute. reflexivity.
Defined.

(** Claim C4, witness. *)
Lemma updates_length_example :
  let w := runSteps sample
             [Call fn_load Opt.none;
              Call fn_updateValue (options (Some (JS.lit "app.fr")) (Some (JS.lit "hello"))
                                     (Some (JS.lit "Salut")))]
             (initialize exampleDisk) in
  length (updates (state w)) = size (updateKeys (state w)).
Proof.
  apply (updates_length_when_no_error sample exampleDisk false). vm_compute; reflexivity.
Defined.

(** Claim C5, witness. *)
Lemma optimizer_deletes_example :
  let w := (updateState sample (JS.lit "app.fr") (JS.lit "~+hello=Hi") exampleWorld).2 in
  (JS.lit "app.fr:hello" ∉ dom (before (updates (state (optimizeUpdates sample w).2))))
  /\ (JS.lit "app.fr:hello" ∉ dom (after (updates (state (optimizeUpdates sample w).2)))).
Proof.
  intros w.
  apply (optimizer_deletes_unchanged_key sample w (JS.lit "app.fr:hello")
           (Tr.setValue (JS.lit "Hi") true (Tr.new (JS.lit "hello")))
           (Tr.setValue (JS.lit "Hi") true (Tr.new (JS.lit "hello")))).
  - vm_compute; reflexivity.
  - vm_compute; reflexivity.
  - vm_compute; reflexivity.
  - vm_compute; reflexivity.
Defined.

(** Claim C6, witness. *)
Lemma duplicate_key_example :
  exists w',
    load sample Opt.none (initialize duplicateDisk) = (Return tt, w')
    /\ error (state w')
       = Some {| cause := DuplicateKeyError (JS.lit "+k");
                 location := Some (JS.lit "app.en", 2%nat) |}
    /\ loaded (state w') = true.
Proof.
  edestruct (duplicate_key_captured sample Opt.none (initialize duplicateDisk)
               [] (JS.lit "app.en") [JS.lit "+k=a"] (JS.lit "+k=b") [] [] []
               (withState resetState (initialize duplicateDisk))
               ({| seenKeys := [JS.lit "k"]; valueKeys := {[JS.lit "k"]}; commentKeys := ∅ |}, [])
               (readLines sample (JS.lit "app.en") 0 [JS.lit "+k=a"]
                  {| seenKeys := []; valueKeys := ∅; commentKeys := ∅ |} []
                  (withState resetState (initialize duplicateDisk))).2
               (JS.lit "+k=a")
               {| type := 43%N; pkey := JS.lit "k"; pvalue := JS.lit "a" |}
               {| type := 43%N; pkey := JS.lit "k"; pvalue := JS.lit "b" |})
    as (w' & Hl & He & Hd & _).
  - vm_compute; reflexivity.
  - vm_compute; reflexivity.
  - vm_compute; reflexivity.
  - absent_by_computation.
  - by left.
  - vm_compute; discriminate.
  - vm_compute; reflexivity.
  - vm_compute; discriminate.
  - vm_compute; reflexivity.
  - reflexivity.
  - reflexivity.
  - exists w'. split; [exact Hl|]. split; [exact He | exact Hd].
Defined.

Lemma plainMarkers_sample : plainMarkers sample.
Proof.
  split.
  - unfold distinctMarkers. apply (bool_decide_unpack _). vm_compute. exact I.
  - repeat constructor; vm_compute; discriminate.
Qed.

Lemma canonical_example : canonical sample exampleSheet exampleDisk.
Proof.
  split.
  - apply (bool_decide_unpack _). vm_compute. exact I.
  - apply Forall_forall. repeat constructor; absent_by_computation.
  - apply (bool_decide_unpack _). vm_compute. exact I.
  - apply Forall_forall. repeat constructor; absent_by_computation.
  - apply Forall_forall. repeat constructor.
  - apply Forall_forall. repeat constructor.
    exists (JS.lit "app.en"). split; [by left | vm_compute; reflexivity].
Qed.

(** Claim C8, witness. *)
Lemma load_then_save_example :
  exists w1 w2,
    load sample Opt.none (initialize exampleDisk) = (Return tt, w1)
    /\ length (updates (state w1)) = 0%nat
    /\ save_public sample Opt.none w1 = (Return tt, w2)
    /\ disk w2 = exampleDisk.
Proof.
  apply (load_then_save_canonical sample exampleSheet Opt.none Opt.none (initialize exampleDisk)).
  - exact plainMarkers_sample.
  - exact canonical_example.
Defined.

(** [edits_store_normalized] on the example. *)
Lemma edits_store_normalized_example :
  exists fileName key e,
    Some (JS.lit "app.fr") = Some fileName /\ Some (JS.lit "hello") = Some key
    /\ storedAt
         (state (updateValue sample
                   (options (Some (JS.lit "app.fr")) (Some (JS.lit "hello"))
                      (Some (JS.lit "  Salut  "))) exampleWorld).2)
         (FullKey sample fileName key) e
    /\ Tr.value e = Some (JS.lit "Salut").
Proof.
  destruct (edits_store_normalized sample fn_updateValue
              (options (Some (JS.lit "app.fr")) (Some (JS.lit "hello"))
                 (Some (JS.lit "  Salut  ")))
              exampleWorld
              (updateValue sample
                 (options (Some (JS.lit "app.fr")) (Some (JS.lit "hello"))
                    (Some (JS.lit "  Salut  "))) exampleWorld).2)
    as (fileName & key & e & Hf & Hk & Hs & Hv & _).
  - apply (bool_decide_unpack _). vm_compute. exact I.
  - reflexivity.
  - vm_compute; reflexivity.
  - exists fileName, key, e. split; [exact Hf|]. split; [exact Hk|]. split; [exact Hs|].
    rewrite Hv. vm_compute. reflexivity.
Defined.

(** ** Edits that return: the line on disk and the entry stored *)

Section AppendReturns.
Context (K : Constants).

Lemma appendTo_last fileName line d :
  exists lines, (fileName, lines ++ [line]) ∈ appendTo fileName line d.
Proof.
  induction d as [|f d [lines IH]]; simpl.
  - exists []. apply list_elem_of_singleton. done.
  - case_bool_decide as Hf.
    + exists f.2. rewrite Hf. apply elem_of_cons. by left.
    + exists lines. apply elem_of_cons. by right.
Qed.

Lemma optimizeUpdates_returns w :
  opened (state w) -> exists w', optimizeUpdates K w = (Return tt, w').
Proof.
  intros [Hl He]. unfold optimizeUpdates. rewrite changeUpdates_run.
  case_bool_decide; [by eexists|]. cbv zeta.
  destruct (foldl_loaded_error (optimizeKey K) (elements (updateKeys (state w))) (state w)
              (optimizeKey_frame K)) as [Hl' He'].
  fold (forEachKey (optimizeKey K) (updateKeys (state w)) (state w)) in Hl', He'.
  case_bool_decide; [|by eexists].
  rewrite save_run; simpl; [by eexists|congruence|congruence].
Qed.

Lemma parse_updateLine_ok m key payload :
  isLineType K m = true -> UpdateLine K <> KeyValueSeparator K ->
  m <> KeyValueSeparator K -> KeyValueSeparator K ∉ key ->
  parseLine K (UpdateLine K :: m :: key ++ KeyValueSeparator K :: payload) 1
  = inr {| type := m; pkey := key; pvalue := payload |}.
Proof.
  intros Hm Hu Hs Hk.
  destruct (parseLine K _ 1) as [c|p] eqn:Ep; [|by rewrite (parse_updateLine K _ _ _ _ Hk Ep)].
  exfalso. revert Ep. unfold parseLine. cbn [lookup list_lookup]. rewrite Hm. cbn [negb].
  unfold JS.indexOf.
  change (UpdateLine K :: m :: key ++ KeyValueSeparator K :: payload)
    with ((UpdateLine K :: m :: key) ++ KeyValueSeparator K :: payload).
  rewrite (find_first (KeyValueSeparator K) (UpdateLine K :: m :: key) payload).
  - destruct (_ <=? _) eqn:E; [|done]. apply Z.leb_le in E. simpl in E. lia.
  - intros [?|[?|?]%elem_of_cons]%elem_of_cons; congruence.
Qed.

(** [_appendUpdate] returns on a loaded engine without captured error
    when the line has a marker, a key without separator and no line
    feed, and the file name is given. *)
Lemma appendUpdate_returns name m key payload w :
  opened (state w) -> isLineType K m = true ->
  UpdateLine K <> KeyValueSeparator K -> m <> KeyValueSeparator K ->
  KeyValueSeparator K ∉ key ->
  JS.LF ∉ UpdateLine K :: m :: key ++ KeyValueSeparator K :: payload ->
  exists w',
    appendUpdate K (Some name) (m :: key ++ KeyValueSeparator K :: payload) w = (Return tt, w')
    /\ opened (state w')
    /\ exists lines,
         (name, lines ++ [UpdateLine K :: m :: key ++ KeyValueSeparator K :: payload]) ∈ disk w'.
Proof.
  intros Hop Hm Hu Hs Hk Hlf.
  pose proof (keeps_opened_appendUpdate K (Some name)
                (m :: key ++ KeyValueSeparator K :: payload) w Hop) as Hop'.
  revert Hop'. unfold appendUpdate. munfold. rewrite updateState_run.
  rewrite indexOf_absent by done. cbn [Z.leb Z.compare].
  rewrite parse_updateLine_ok by done.
  set (w1 := withState _ w).
  assert (Hop1 : opened (state w1)).
  { destruct Hop. split; unfold w1; simpl; by rewrite ?applyLine_loaded, ?applyLine_error. }
  destruct (optimizeUpdates_returns w1 Hop1) as [w2 ->]. simpl. intros Hop'.
  eexists. split; [done|]. split; [done|]. simpl. apply appendTo_last.
Qed.

Lemma storedAt_unique s fullKey e e' :
  storedAt s fullKey e -> storedAt s fullKey e' -> e = e'.
Proof.
  intros [H|[H0 H]] [H'|[H0' H']]; try congruence.
  - rewrite H0' in H. by rewrite lookup_empty in H.
  - rewrite H0 in H'. by rewrite lookup_empty in H'.
Qed.

End AppendReturns.

Lemma plainFormat_facts K :
  plainFormat K ->
  plainMarkers K /\ distinctMarkers K
  /\ UpdateLine K <> KeyValueSeparator K
  /\ CommentLine K <> KeyValueSeparator K
  /\ (forall a, markerOf K a <> KeyValueSeparator K)
  /\ NewLineSymbol K <> JS.LF
  /\ forall m key payload,
       m = CommentLine K \/ (exists a, m = markerOf K a) ->
       (JS.LF ∉ key) -> (JS.LF ∉ payload) ->
       JS.LF ∉ UpdateLine K :: m :: key ++ KeyValueSeparator K :: payload.
Proof.
  intros (Hp & Hd & Hu & Hlf).
  destruct (plainMarkers_facts K Hp) as (Hdm & _ & Hc & Hm).
  apply Forall_cons in Hlf as [Hl1 Hlf]. apply Forall_cons in Hlf as [Hl2 Hlf].
  apply Forall_cons in Hlf as [Hl3 Hlf]. apply Forall_cons in Hlf as [Hl4 Hlf].
  apply Forall_cons in Hlf as [Hl5 Hlf]. apply Forall_cons in Hlf as [Hl6 Hlf].
  apply Forall_cons in Hlf as [Hl7 _].
  split; [done|]. split; [done|]. split; [done|]. split; [done|].
  split; [intros a; apply Hm|]. split; [done|].
  intros m key payload Hmk Hk Hpay Hin.
  apply elem_of_cons in Hin as [Hin|Hin]; [congruence|].
  apply elem_of_cons in Hin as [Hin|Hin].
  { destruct Hmk as [->|[[] ->]]; simpl in Hin; congruence. }
  apply elem_of_app in Hin as [Hin|Hin]; [done|].
  apply elem_of_cons in Hin as [Hin|Hin]; [congruence|done].
Qed.

(** ** The update line of a compacting edit *)

(** An edit applied by [_appendUpdate] to a named file on a loaded
    engine without captured error, when the log has a full key after
    [_updateState] and none after the traversal of the optimizer:
    [save] runs and the log in memory is left empty, and then the
    update line is appended: it is the last line of the file. *)
Lemma compaction_is_followed_by_append K w name line w1 :
  loaded (state w) = true -> error (state w) = None ->
  updateState K name (UpdateLine K :: line) w = (Return tt, w1) ->
  updateKeys (state w1) <> ∅ ->
  updateKeys (forEachKey (optimizeKey K) (updateKeys (state w1)) (state w1)) = ∅ ->
  exists w2,
    appendUpdate K (Some name) line w = (Return tt, w2)
    /\ updates (state w2) = emptyUpdates
    /\ trace w2 = trace w ++ [SaveEv; TriggerChangeEv; AutoExportEv;
                              AppendLineEv name (UpdateLine K :: line)]
    /\ exists lines, (name, lines ++ [UpdateLine K :: line]) ∈ disk w2.
Proof.
  intros Hl He Hup Hne Hemp.
  destruct (updateState_Return K _ _ _ _ Hup) as (p & Hp & Hlf & ->).
  unfold appendUpdate. change (toString (Some name)) with name. munfold.
  rewrite Hup. unfold optimizeUpdates.
  rewrite changeUpdates_run. simpl in *.
  rewrite bool_decide_eq_false_2 by (by rewrite size_updateKeys_0).
  rewrite (bool_decide_eq_true_2 (size _ = 0%nat)) by (by rewrite size_updateKeys_0).
  rewrite save_run.
  2: { simpl. rewrite forEachKey_optimizeKey. simpl. by rewrite applyLine_loaded. }
  2: { simpl. rewrite forEachKey_optimizeKey. simpl. by rewrite applyLine_error. }
  simpl. eexists. split; [done|]. simpl. split; [done|].
  split; [by rewrite <- !app_assoc|]. apply appendTo_last.
Qed.

(** Claim C2, at the failing input.  On the loaded example,
    [updateApproved] of [hello] in [app.fr] with the approval the
    baseline has: the edit equals the baseline, [save] runs and the log
    in memory is left empty; then [_appendUpdate] appends the update
    line, so that [app.fr] ends with [~+hello=Hi], and the next [load]
    of these files throws the not-loaded error. *)
Theorem compaction_leaves_update_line :
  let r := updateApproved sample (approve (JS.lit "app.fr") (JS.lit "hello")) exampleWorld in
  r.1 = Return tt
  /\ trace r.2 = trace exampleWorld
                 ++ [SaveEv; TriggerChangeEv; AutoExportEv;
                     AppendLineEv (JS.lit "app.fr") (JS.lit "~+hello=Hi"); TriggerChangeEv]
  /\ updates (state r.2) = emptyUpdates
  /\ disk r.2 = [(JS.lit "app.en", [JS.lit "+hello=Hi"]);
                 (JS.lit "app.fr", [JS.lit "+hello=Hi"; JS.lit "~+hello=Hi"])]
  /\ (load sample Opt.none r.2).1 = Throw NotLoadedError.
Proof. vm_compute. done. Qed.

(** ** What the edit operations store *)

(** The four edit operations return on a loaded engine without captured
    error, for a given file name and a key that is not empty and holds
    neither the separator nor a line feed. *)
Lemma edits_return K fnName o w name key :
  plainFormat K -> isEdit fnName = true -> opened (state w) ->
  Opt.fileName o = Some name -> Opt.key o = Some key ->
  key <> [] -> KeyValueSeparator K ∉ key -> JS.LF ∉ key ->
  exists w', call K fnName o w = (Return tt, w').
Proof.
  intros HK Hed Hop Hf Hk Hne Hsep Hlf.
  destruct (plainFormat_facts K HK) as (_ & _ & Hu & Hc & Hm & Hnl & Hline).
  pose proof Hop as [Hl He].
  assert (Hsafe : forall v, JS.LF ∉ safeValue K v).
  { intros v. unfold safeValue, JS.replaceAll. intros Hin.
    apply list_elem_of_fmap in Hin as (x & Hx & _).
    destruct (N.eqb_spec x JS.LF) as [E|E]; congruence. }
  destruct fnName; try discriminate Hed; simpl.
  - unfold updateValue, wrapped. munfold. rewrite (gate_pass fn_updateValue w Hl He).
    unfold updateValue_body. rewrite Hk, Hf. munfold. rewrite validateKey_valid by done.
    destruct (appendUpdate_returns K name (NotApprovedLine K) key
                (safeValue K (Opt.value o)) w Hop) as (w1 & -> & _);
      [apply (isLineType_marker K false) | done | apply (Hm false) | done | |].
    + apply Hline; [right; by exists false | done | apply Hsafe].
    + by eexists.
  - unfold updateApproved, wrapped. munfold. rewrite (gate_pass fn_updateApproved w Hl He).
    unfold updateApproved_body. rewrite Hk, Hf. munfold. rewrite validateKey_valid by done.
    destruct (appendUpdate_returns K name (markerOf K (default false (Opt.approved o))) key
                (safeValue K (updated (state w) !! FullKey K (toString (Some name)) key
                                ≫= Tr.value)) w Hop) as (w1 & -> & _);
      [apply isLineType_marker | done | apply Hm | done | |].
    + apply Hline; [right; by eexists | done | apply Hsafe].
    + by eexists.
  - unfold updateComment, wrapped. munfold. rewrite (gate_pass fn_updateComment w Hl He).
    unfold updateComment_body. rewrite Hk, Hf. munfold. rewrite validateKey_valid by done.
    destruct (appendUpdate_returns K name (CommentLine K) key
                (safeValue K (Opt.comment o)) w Hop) as (w1 & -> & _);
      [apply isLineType_comment | done | done | done | |].
    + apply Hline; [by left | done | apply Hsafe].
    + by eexists.
  - unfold updateTranslation, wrapped. munfold.
    rewrite (gate_pass fn_updateTranslation w Hl He).
    unfold updateTranslation_body. rewrite Hk, Hf. munfold.
    rewrite validateKey_valid by done.
    destruct (appendUpdate_returns K name (CommentLine K) key
                (safeValue K (Opt.comment o)) w Hop) as (w1 & -> & Hop1 & _);
      [apply isLineType_comment | done | done | done | |].
    { apply Hline; [by left | done | apply Hsafe]. }
    destruct (appendUpdate_returns K name (markerOf K (default false (Opt.approved o))) key
                (safeValue K (Opt.value o)) w1 Hop1) as (w2 & -> & _);
      [apply isLineType_marker | done | apply Hm | done | |].
    + apply Hline; [right; by eexists | done | apply Hsafe].
    + by eexists.
Qed.

(** Claim C10, amended.  On a loaded engine without captured error
    whose log holds normalized entries, for a given file name and a key
    that is not empty and holds neither the separator nor a line feed,
    each of [updateValue], [updateApproved], [updateComment] and
    [updateTranslation] returns; the entry it stores at its full key
    holds in the fields it writes the [safeValue] of its argument (the
    argument trimmed, every line feed replaced by the placeholder); no
    field of that entry has white space at its ends or a line feed;
    and the log still holds normalized entries. *)
Theorem edits_return_normalized_entry K fnName o w name key :
  plainFormat K -> isEdit fnName = true ->
  opened (state w) -> normalizedLog (state w) ->
  Opt.fileName o = Some name -> Opt.key o = Some key ->
  key <> [] -> KeyValueSeparator K ∉ key -> JS.LF ∉ key ->
  exists w' e,
    call K fnName o w = (Return tt, w')
    /\ storedAt (state w') (FullKey K name key) e
    /\ written K fnName o (state w) (FullKey K name key) e
    /\ normalizedEntry e
    /\ normalizedLog (state w').
Proof.
  intros HK Hed Hop Hlog Hf Hk Hne Hsep Hlf.
  destruct (edits_return K fnName o w name key HK Hed Hop Hf Hk Hne Hsep Hlf) as [w' Hcall].
  destruct HK as ([Hdm _] & _).
  destruct (edits_store_normalized K fnName o w w' Hdm Hed Hcall)
    as (n1 & k1 & e & Hn1 & Hk1 & Hst & Hw).
  destruct (edits_keep_log_normalized K fnName o w w' Hdm Hed Hlog Hcall)
    as (Hlog' & n2 & k2 & e' & Hn2 & Hk2 & Hst' & Hne').
  assert (n1 = name) by congruence. assert (k1 = key) by congruence.
  assert (n2 = name) by congruence. assert (k2 = key) by congruence. subst.
  rewrite <- (storedAt_unique _ _ _ _ Hst Hst') in Hne'.
  by exists w', e.
Qed.

(** Claim C10, witness: a value with spaces around it and a line feed
    in it. *)
Lemma edits_return_normalized_entry_example :
  after (updates (state annotatedWorld)) <> ∅
  /\ exists w' e,
       updateValue sample
         (options (Some (JS.lit "app.fr")) (Some (JS.lit "hello"))
            (Some (JS.lit "  two" ++ JS.LF :: JS.lit "lines ")))
         annotatedWorld = (Return tt, w')
       /\ storedAt (state w') (FullKey sample (JS.lit "app.fr") (JS.lit "hello")) e
       /\ Tr.value e = Some (JS.lit "two" ++ 8629%N :: JS.lit "lines")
       /\ normalizedEntry e.
Proof.
  split; [apply (bool_decide_unpack _); vm_compute; exact I|].
  destruct (edits_return_normalized_entry sample fn_updateValue
              (options (Some (JS.lit "app.fr")) (Some (JS.lit "hello"))
                 (Some (JS.lit "  two" ++ JS.LF :: JS.lit "lines ")))
              annotatedWorld (JS.lit "app.fr") (JS.lit "hello"))
    as (w' & e & Hcall & Hst & [Hv _] & Hne & _).
  - apply (bool_decide_unpack _). vm_compute. exact I.
  - reflexivity.
  - split; vm_compute; reflexivity.
  - apply (edits_keep_log_normalized sample fn_updateComment
             (annotate (JS.lit "app.fr") (JS.lit "hello") (JS.lit " note ")) exampleWorld).
    + apply (bool_decide_unpack _). vm_compute. exact I.
    + reflexivity.
    + intros fullKey e.
      replace (after (updates (state exampleWorld))) with (∅ : gmap (list N) Tr.t)
        by (vm_compute; reflexivity).
      rewrite lookup_empty. discriminate.
    + vm_compute. reflexivity.
  - reflexivity.
  - reflexivity.
  - discriminate.
  - absent_by_computation.
  - absent_by_computation.
  - exists w', e. split; [exact Hcall|]. split; [exact Hst|]. split; [|exact Hne].
    rewrite Hv. vm_compute. reflexivity.
Defined.

(** Claim C10, counterexample: the comment that [load] replayed from
    an update line written with spaces around it is a field of the
    entry that [updateValue] stores. *)
Lemma stored_comment_keeps_spaces :
  let w := (load sample Opt.none (initialize paddedLogDisk)).2 in
  let r := updateValue sample
             (options (Some (JS.lit "app.en")) (Some (JS.lit "k")) (Some (JS.lit " x "))) w in
  r.1 = Return tt
  /\ exists e,
       updated (state r.2) !! FullKey sample (JS.lit "app.en") (JS.lit "k") = Some e
       /\ Tr.comment e = Some (JS.lit " c ")
       /\ JS.edgeFree (JS.lit " c ") = false.
Proof.
  vm_compute. split; [reflexivity|]. eexists. split; [reflexivity|]. split; reflexivity.
Qed.

(** * Further properties *)

(** ** The line codec *)

Section Codec.
Context (K : Constants).

Lemma replaceAll_twice c d s : JS.replaceAll c d (JS.replaceAll c d s) = JS.replaceAll c d s.
Proof.
  unfold JS.replaceAll. rewrite map_map. apply map_ext. intros x.
  destruct (N.eqb_spec x c) as [->|Hx].
  - destruct (N.eqb_spec d c); done.
  - by rewrite (proj2 (N.eqb_neq x c) Hx).
Qed.

Lemma trim_absent c s : c ∉ s -> c ∉ JS.trim s.
Proof.
  intros H Hin. apply H. unfold JS.trim in Hin.
  destruct (trimEnd_prefix (JS.trimStart s)) as [k1 H1].
  destruct (trimStart_suffix s) as [k2 H2].
  rewrite H2, H1. apply elem_of_app. right. apply elem_of_app. by left.
Qed.

End Codec.

(** Property X1.
    [safeValue$] is idempotent: on a string it has produced it changes
    nothing, whatever the placeholder is. *)
Theorem safeValue_idempotent K v :
  safeValue K (Some (safeValue K v)) = safeValue K v.
Proof.
  unfold safeValue at 1. cbn [default].
  rewrite trim_edgeFree by apply edgeFree_safeValue.
  unfold safeValue. apply replaceAll_twice.
Qed.

(** Property X2.
    When the placeholder is not the line feed, a string produced by
    [safeValue$] holds no line feed: it fits on one line. *)
Theorem safeValue_one_line K v :
  NewLineSymbol K <> JS.LF -> JS.LF ∉ safeValue K v.
Proof.
  intros Hne. unfold safeValue, JS.replaceAll. intros Hin.
  apply list_elem_of_fmap in Hin as (x & Hx & _).
  destruct (N.eqb_spec x JS.LF) as [E|E]; congruence.
Qed.

(** Property X2, instance. *)
Lemma safeValue_one_line_example :
  NewLineSymbol sample <> JS.LF
  /\ (JS.LF ∉ safeValue sample (Some (JS.lit "two" ++ JS.LF :: JS.lit "lines"))).
Proof. split; [done|]. apply (safeValue_one_line sample). done. Defined.

(** Property X3.
    Decoding what [safeValue$] encoded gives the string trimmed, for
    every string without the placeholder. *)
Theorem unsafeValue_safeValue_trim K v :
  NewLineSymbol K ∉ v ->
  unsafeValue K (Some (safeValue K (Some v))) = JS.trim v.
Proof.
  intros Hv. unfold unsafeValue, safeValue. cbn [default].
  apply replaceAll_inverse, trim_absent, Hv.
Qed.

(** Property X3, instance. *)
Lemma unsafeValue_safeValue_trim_example :
  unsafeValue sample (Some (safeValue sample (Some (JS.lit "  a" ++ JS.LF :: JS.lit "b "))))
  = JS.lit "a" ++ JS.LF :: JS.lit "b".
Proof.
  rewrite (unsafeValue_safeValue_trim sample); [reflexivity|]. absent_by_computation.
Defined.

(** Property X4.
    [splitFK$] undoes [buildFK$] when neither the file name nor the key
    holds the full-key separator. *)
Theorem splitFK_buildFK K fileName key :
  FullKeySeparator K ∉ fileName -> FullKeySeparator K ∉ key ->
  splitFK K (buildFK K fileName key) = [fileName; key].
Proof.
  intros Hf Hk. unfold splitFK, buildFK.
  rewrite split_first by done. by rewrite split_absent.
Qed.

(** Property X4, instance. *)
Lemma splitFK_buildFK_example :
  splitFK sample (buildFK sample (JS.lit "app.en") (JS.lit "hello"))
  = [JS.lit "app.en"; JS.lit "hello"].
Proof. apply (splitFK_buildFK sample); absent_by_computation. Defined.

Section Parse.
Context (K : Constants).

Lemma find_Some c s i :
  JS.find c s = Some i -> s = take i s ++ c :: drop (S i) s /\ c ∉ take i s.
Proof.
  revert i. induction s as [|x s IH]; intros i; simpl; [done|].
  destruct (N.eqb_spec x c) as [->|Hx].
  - intros [= <-]. simpl. rewrite drop_0. split; [done|]. apply not_elem_of_nil.
  - destruct (JS.find c s) as [j|]; [|done]. simpl. intros [= <-].
    destruct (IH j eq_refl) as [H1 H2]. simpl. split; [by rewrite <- H1|].
    intros [?|?]%elem_of_cons; [congruence|done].
Qed.

End Parse.

(** Property X5.
    A value line and a comment line written by [valueLine$] and
    [commentLine$] for a key without the separator are parsed back by
    [_parseLine] into their marker, the key and the encoded payload. *)
Theorem parseLine_written_line K approved key value comment :
  plainMarkers K -> KeyValueSeparator K ∉ key ->
  parseLine K (valueLine K approved key value) 0
  = inr {| type := markerOf K approved; pkey := key; pvalue := safeValue K value |}
  /\ parseLine K (commentLine K key comment) 0
     = inr {| type := CommentLine K; pkey := key; pvalue := safeValue K comment |}.
Proof.
  intros HK Hkey. destruct (plainMarkers_facts K HK) as (_ & _ & Hc & Hm).
  destruct (Hm approved) as (_ & Hs & _). split.
  - apply (parse_baseline K (markerOf K approved)); [apply isLineType_marker|done|done].
  - apply (parse_baseline K (CommentLine K)); [apply isLineType_comment|done|done].
Qed.

(** Property X5, instance. *)
Lemma parseLine_written_line_example :
  parseLine sample (valueLine sample true (JS.lit "hello") (Some (JS.lit " Hi "))) 0
  = inr {| type := 43%N; pkey := JS.lit "hello"; pvalue := JS.lit "Hi" |}
  /\ parseLine sample (commentLine sample (JS.lit "hello") None) 0
     = inr {| type := 35%N; pkey := JS.lit "hello"; pvalue := [] |}.
Proof.
  apply (parseLine_written_line sample true (JS.lit "hello") (Some (JS.lit " Hi ")) None).
  - exact plainMarkers_sample.
  - absent_by_computation.
Defined.

(** Property X6.
    What [_parseLine] accepts it can rebuild: the line is the
    characters before the type index, the marker, the key, the
    separator and the value; the marker is one of the four, and the
    separator occurs neither before the key nor in it. *)
Theorem parseLine_rebuilds_line K line typeIndex p :
  parseLine K line typeIndex = inr p ->
  line = take typeIndex line ++ type p :: pkey p ++ KeyValueSeparator K :: pvalue p
  /\ List.length (take typeIndex line) = typeIndex
  /\ isLineType K (type p) = true
  /\ (KeyValueSeparator K ∉ take typeIndex line)
  /\ type p <> KeyValueSeparator K
  /\ (KeyValueSeparator K ∉ pkey p).
Proof.
  unfold parseLine. destruct (line !! typeIndex) as [ty|] eqn:Ety; [|done].
  destruct (isLineType K ty) eqn:Ity; [|done]. simpl.
  unfold JS.indexOf. destruct (JS.find (KeyValueSeparator K) line) as [i|] eqn:Ef;
    [|destruct (-1 <=? Z.of_nat typeIndex) eqn:E; [done | apply Z.leb_gt in E; lia]].
  destruct (Z.of_nat i <=? Z.of_nat typeIndex) eqn:Ei; [done|].
  apply Z.leb_gt in Ei. intros [= <-]. simpl. rewrite Nat2Z.id.
  destruct (find_Some _ _ _ Ef) as [Hl Hnot].
  assert (Hlen : (typeIndex < List.length line)%nat) by (by apply lookup_lt_Some in Ety).
  assert (Hi : (i < List.length line)%nat).
  { apply (f_equal List.length) in Hl. rewrite length_app in Hl. simpl in Hl.
    rewrite length_take, length_drop in Hl. lia. }
  assert (Htake : take i line
                  = take typeIndex line ++ ty :: JS.substring (typeIndex + 1) i line).
  { unfold JS.substring.
    replace i with (typeIndex + (i - typeIndex))%nat at 1 by lia.
    rewrite <- take_take_drop. f_equal.
    rewrite (drop_S line ty typeIndex Ety).
    replace (i - typeIndex)%nat with (S (i - (typeIndex + 1))) by lia.
    rewrite firstn_cons. by rewrite Nat.add_1_r. }
  split; [|split; [|split; [|split; [|split]]]].
  - unfold JS.substringFrom. rewrite !Nat.add_1_r in *.
    rewrite Hl at 1. rewrite Htake. by rewrite <- app_assoc.
  - rewrite length_take. lia.
  - done.
  - intros Hin. apply Hnot. rewrite Htake. apply elem_of_app. by left.
  - intros ->. apply Hnot. rewrite Htake. apply elem_of_app. right. apply elem_of_cons. by left.
  - intros Hin. apply Hnot. rewrite Htake. apply elem_of_app. right. apply elem_of_cons.
    by right.
Qed.

(** Property X6, instance. *)
Lemma parseLine_rebuilds_line_example :
  JS.lit "~-hello=Salut"
  = take 1 (JS.lit "~-hello=Salut") ++ 45%N :: JS.lit "hello" ++ 61%N :: JS.lit "Salut".
Proof.
  apply (parseLine_rebuilds_line sample (JS.lit "~-hello=Salut") 1
           {| type := 45%N; pkey := JS.lit "hello"; pvalue := JS.lit "Salut" |}).
  reflexivity.
Defined.

(** ** The validation gate and the key operations *)

(** Property X7.
    Before the first [load], every public function but [load],
    [connect] and [export] throws the not-loaded error and changes
    nothing. *)
Theorem gated_call_before_load K fnName o w :
  gated fnName = true -> loaded (state w) = false ->
  call K fnName o w = (Throw NotLoadedError, w).
Proof.
  intros Hg Hl.
  destruct fnName; try discriminate Hg; simpl;
    unfold save_public, addFile, deleteFile, addKey, copyKey, renameKey, deleteKey,
      updateValue, updateApproved, updateComment, updateTranslation, revert, wrapped,
      validateAction; munfold; by rewrite Hl.
Qed.

(** Property X7, instance. *)
Lemma gated_call_before_load_example :
  call sample fn_save Opt.none (initialize exampleDisk)
  = (Throw NotLoadedError, initialize exampleDisk).
Proof. apply (gated_call_before_load sample fn_save); reflexivity. Defined.

Section DeleteKey.
Context (K : Constants).

Lemma withState_same w : withState (state w) w = w.
Proof. by destruct w. Qed.

Lemma setKeys_same s : setKeys (fun _ => keys s) s = s.
Proof. by destruct s. Qed.

Lemma updateState_delete_line fileName key w :
  UpdateLine K <> KeyValueSeparator K -> DeleteKeyLine K <> KeyValueSeparator K ->
  KeyValueSeparator K ∉ key ->
  updateState K fileName (UpdateLine K :: DeleteKeyLine K :: key) w
  = (Throw (StateErr {| cause := InvalidLineError (UpdateLine K :: DeleteKeyLine K :: key);
                        location := None |}), w).
Proof.
  intros Hu Hd Hk. rewrite updateState_run.
  destruct (0 <=? _); [done|].
  unfold parseLine. cbn [lookup list_lookup].
  destruct (isLineType K (DeleteKeyLine K)); [|done]. cbn [negb].
  rewrite indexOf_absent; [done|].
  intros [?|[?|?]%elem_of_cons]%elem_of_cons; congruence.
Qed.

End DeleteKey.

(** Property X8.
    [deleteKey] for a valid key on a loaded engine without captured
    error.  A key that is not registered: nothing happens.  A
    registered key: it is taken out of the registry; with no locale
    file the change is notified, and with a locale file the first
    update line, which has no key/value separator, is refused by
    [_updateState] with the invalid-line error, and nothing is written. *)
Theorem deleteKey_outcome K o w key :
  opened (state w) -> Opt.key o = Some key -> key <> [] -> KeyValueSeparator K ∉ key ->
  UpdateLine K <> KeyValueSeparator K -> DeleteKeyLine K <> KeyValueSeparator K ->
  deleteKey K o w =
    if bool_decide (key ∈ keys (state w)) then
      let w1 := withState (setKeys (SortedArray.removeFirst key) (state w)) w in
      if bool_decide (findI18nFiles K (disk w) = [])
      then (Return tt, {| state := state w1; disk := disk w;
                          trace := trace w ++ [TriggerChangeEv]; exporter := exporter w |})
      else (Throw (StateErr {| cause := InvalidLineError
                                          (UpdateLine K :: DeleteKeyLine K :: key);
                               location := None |}), w1)
    else (Return tt, w).
Proof.
  intros [Hl He] Hk Hne Hsep Hu Hd. unfold deleteKey, wrapped. munfold.
  rewrite (gate_pass fn_deleteKey w Hl He). unfold deleteKey_body. rewrite Hk. munfold.
  rewrite validateKey_valid by done. simpl. unfold SortedArray.remove.
  destruct (bool_decide (key ∈ keys (state w))); simpl.
  - destruct (findI18nFiles K (disk w)) as [|f fs] eqn:Ef; simpl; [done|].
    unfold appendUpdate. munfold. by rewrite updateState_delete_line.
  - f_equal. destruct w as [s d t x]. simpl. by rewrite setKeys_same.
Qed.

(** Property X8, instance. *)
Lemma deleteKey_outcome_example :
  deleteKey sample (options None (Some (JS.lit "hello")) None) exampleWorld
  = (Throw (StateErr {| cause := InvalidLineError (JS.lit "~!hello"); location := None |}),
     withState (setKeys (fun _ => []) (state exampleWorld)) exampleWorld).
Proof.
  rewrite (deleteKey_outcome sample _ exampleWorld (JS.lit "hello")); try done.
  absent_by_computation.
Defined.

(** ** save and the working map *)

Section SaveFacts.
Context (K : Constants).

Lemma save_public_run o w :
  opened (state w) -> save_public K o w = (Return tt, saved K w).
Proof. intros [Hl He]. apply (save_run K w Hl He). Qed.

Lemma saveKeyLines_blank s files fileName key :
  updated s = ∅ -> saveKeyLines K s files fileName key = [].
Proof.
  intros Hu. unfold saveKeyLines. rewrite Hu.
  rewrite (existsb_agree _ (fun _ => false)), existsb_none
    by (intros; by rewrite lookup_empty).
  rewrite (existsb_agree _ (fun _ => false)), existsb_none
    by (intros; by rewrite lookup_empty).
  done.
Qed.

Lemma saveFile_blank s files fileName :
  updated s = ∅ -> saveFile K s files fileName = [].
Proof.
  intros Hu. unfold saveFile. induction (keys s) as [|k ks IH]; [done|].
  simpl. by rewrite saveKeyLines_blank, IH.
Qed.

Lemma savedDisk_names s d : (savedDisk K s d).*1 = d.*1.
Proof.
  unfold savedDisk. generalize (findI18nFiles K d).*1. intros files.
  induction d as [|f d IH]; [done|]. cbn [map fmap list_fmap] in *. rewrite IH. f_equal.
  by destruct (FileNameRegExp K f.1).
Qed.

Lemma savedDisk_blank s d f :
  updated s = ∅ -> f ∈ savedDisk K s d -> FileNameRegExp K f.1 = true -> f.2 = [].
Proof.
  intros Hu Hin Hf. unfold savedDisk in Hin.
  apply list_elem_of_fmap in Hin as (g & -> & _).
  destruct (FileNameRegExp K g.1) eqn:E; simpl in *; [|congruence].
  by apply saveFile_blank.
Qed.

End SaveFacts.

(** Property X9.
    [save] moves the working map into the baseline and leaves the
    working map empty, so a second [save] right after it writes no line:
    both calls return, the directory keeps its file names, and every
    locale file is left empty. *)
Theorem save_twice_empties_locale_files K o o' w :
  opened (state w) ->
  exists w1 w2,
    save_public K o w = (Return tt, w1)
    /\ original (state w1) = updated (state w) /\ updated (state w1) = ∅
    /\ save_public K o' w1 = (Return tt, w2)
    /\ (disk w2).*1 = (disk w).*1
    /\ forall f, f ∈ disk w2 -> FileNameRegExp K f.1 = true -> f.2 = [].
Proof.
  intros Hop. exists (saved K w), (saved K (saved K w)).
  assert (Hop1 : opened (state (saved K w))) by (destruct Hop; by split).
  split; [by apply save_public_run|]. split; [done|]. split; [done|].
  split; [by apply save_public_run|]. split.
  - simpl. by rewrite !savedDisk_names.
  - intros f Hin Hf. simpl in Hin. by apply (savedDisk_blank K _ _ f) in Hin.
Qed.

(** Property X9, instance. *)
Lemma save_twice_example :
  exists w1 w2,
    save_public sample Opt.none exampleWorld = (Return tt, w1)
    /\ original (state w1) = updated (state exampleWorld) /\ updated (state w1) = ∅
    /\ save_public sample Opt.none w1 = (Return tt, w2)
    /\ (disk w2).*1 = (disk exampleWorld).*1
    /\ forall f, f ∈ disk w2 -> FileNameRegExp sample f.1 = true -> f.2 = [].
Proof. apply (save_twice_empties_locale_files sample). split; reflexivity. Defined.

(** ** The edit operations and the registry of keys *)

Section Registry.
Context (K : Constants).

Lemma parseLine_type line typeIndex p :
  parseLine K line typeIndex = inr p -> line !! typeIndex = Some (type p).
Proof.
  unfold parseLine. destruct (line !! typeIndex) as [ty|]; [|done].
  destruct (negb (isLineType K ty)); [done|].
  destruct (_ <=? _); [done|]. by intros [= <-].
Qed.

Lemma keys_applyLine fileName p s :
  type p <> DeleteKeyLine K -> keys (applyLine K fileName p s) = keys s.
Proof.
  intros Hne. unfold applyLine. cbv zeta.
  rewrite (proj2 (N.eqb_neq _ _) Hne). done.
Qed.

Lemma keys_forEachKey (fn : list N -> State -> State) ks s :
  (forall k s, keys (fn k s) = keys s) -> keys (forEachKey fn ks s) = keys s.
Proof.
  intros Hfn. unfold forEachKey. generalize (elements ks). intros l. revert s.
  induction l as [|x l IH]; intros s; [done|]. simpl. by rewrite IH, Hfn.
Qed.

Lemma keys_optimizeKey k s : keys (optimizeKey K k s) = keys s.
Proof.
  unfold optimizeKey. destruct (original s !! k), (updated s !! k); try done.
  by destruct (sameTranslation K _ _).
Qed.

Lemma keys_revertKey f key k s : keys (revertKey K f key k s) = keys s.
Proof.
  unfold revertKey. destruct (_ || _); [done|]. by destruct (original s !! k).
Qed.

Lemma keys_changeUpdates fn w :
  (forall k s, keys (fn k s) = keys s) ->
  keys (state (changeUpdates K fn w).2) = keys (state w).
Proof.
  intros Hfn. rewrite changeUpdates_run.
  destruct (bool_decide (size (updateKeys (state w)) = 0%nat)); [done|]. cbv zeta.
  destruct (bool_decide _).
  - destruct (save_cases K (withState
        (setUpdates (setLength (size (updateKeys (forEachKey fn (updateKeys (state w)) (state w)))))
           (forEachKey fn (updateKeys (state w)) (state w))) w)) as [->|[e ->]];
      simpl; by rewrite keys_forEachKey.
  - simpl. by rewrite keys_forEachKey.
Qed.

Lemma keys_appendUpdate fileName m rest w :
  m <> DeleteKeyLine K ->
  keys (state (appendUpdate K fileName (m :: rest) w).2) = keys (state w).
Proof.
  intros Hm. unfold appendUpdate. munfold. rewrite updateState_run.
  destruct (0 <=? _); [done|].
  destruct (parseLine K _ 1) as [c|p] eqn:Ep; [done|].
  apply parseLine_type in Ep. injection Ep as Ep.
  pose proof (keys_changeUpdates (optimizeKey K)
                (withState (applyLine K (toString fileName) p (state w)) w) keys_optimizeKey)
    as Hopt.
  fold (optimizeUpdates K) in Hopt.
  destruct (optimizeUpdates K _) as [[[]|e] w2]; simpl in Hopt.
  - rewrite <- (keys_applyLine (toString fileName) p (state w)) by congruence.
    rewrite <- Hopt. by destruct fileName.
  - rewrite <- (keys_applyLine (toString fileName) p (state w)) by congruence.
    by rewrite <- Hopt.
Qed.

Lemma keys_validateAction fn w : (validateAction fn w).2 = w.
Proof.
  unfold validateAction. destruct fn; try done; munfold;
    destruct (negb (loaded (state w))); try done; by destruct (error (state w)).
Qed.

Lemma keys_validateKey key w : (validateKey K key w).2 = w.
Proof.
  unfold validateKey. destruct key as [k|]; [|done]. by destruct (_ && _).
Qed.

End Registry.

(** Property X10.
    The four edit operations never change the registry of keys,
    whether they return or throw: an edit of a key that is not
    registered leaves it unregistered. *)
Theorem edits_leave_registry K fnName o w :
  distinctMarkers K -> isEdit fnName = true ->
  keys (state (call K fnName o w).2) = keys (state w).
Proof.
  intros HK Hed. destruct (distinctMarkers_ne K HK) as (Hnd & Had & Hcd & _).
  assert (Hm : forall a, markerOf K a <> DeleteKeyLine K) by (intros a; apply markerOf_ne, HK).
  destruct fnName; try discriminate Hed; simpl.
  - unfold updateValue, wrapped, bind.
    pose proof (keys_validateAction fn_updateValue w) as Hv.
    destruct (validateAction fn_updateValue w) as [[[]|e] w0]; simpl in Hv; subst w0; [|done].
    unfold updateValue_body, bind.
    pose proof (keys_validateKey K (Opt.key o) w) as Hk.
    destruct (validateKey K (Opt.key o) w) as [[k|e] w0]; simpl in Hk; subst w0; [|done].
    pose proof (keys_appendUpdate K (Opt.fileName o) (NotApprovedLine K)
                  (k ++ KeyValueSeparator K :: safeValue K (Opt.value o)) w Hnd) as Ha.
    destruct (appendUpdate K _ _ w) as [[[]|e] w1]; simpl in *; done.
  - unfold updateApproved, wrapped, bind.
    pose proof (keys_validateAction fn_updateApproved w) as Hv.
    destruct (validateAction fn_updateApproved w) as [[[]|e] w0]; simpl in Hv; subst w0; [|done].
    unfold updateApproved_body, bind.
    pose proof (keys_validateKey K (Opt.key o) w) as Hk.
    destruct (validateKey K (Opt.key o) w) as [[k|e] w0]; simpl in Hk; subst w0; [|done].
    unfold getState.
    pose proof (keys_appendUpdate K (Opt.fileName o) (markerOf K (default false (Opt.approved o)))
                  (k ++ KeyValueSeparator K
                     :: safeValue K (updated (state w) !! FullKey K (toString (Opt.fileName o)) k
                                       ≫= Tr.value)) w (Hm _)) as Ha.
    destruct (appendUpdate K _ _ w) as [[[]|e] w1]; simpl in *; done.
  - unfold updateComment, wrapped, bind.
    pose proof (keys_validateAction fn_updateComment w) as Hv.
    destruct (validateAction fn_updateComment w) as [[[]|e] w0]; simpl in Hv; subst w0; [|done].
    unfold updateComment_body, bind.
    pose proof (keys_validateKey K (Opt.key o) w) as Hk.
    destruct (validateKey K (Opt.key o) w) as [[k|e] w0]; simpl in Hk; subst w0; [|done].
    pose proof (keys_appendUpdate K (Opt.fileName o) (CommentLine K)
                  (k ++ KeyValueSeparator K :: safeValue K (Opt.comment o)) w Hcd) as Ha.
    destruct (appendUpdate K _ _ w) as [[[]|e] w1]; simpl in *; done.
  - unfold updateTranslation, wrapped, bind.
    pose proof (keys_validateAction fn_updateTranslation w) as Hv.
    destruct (validateAction fn_updateTranslation w) as [[[]|e] w0]; simpl in Hv; subst w0;
      [|done].
    unfold updateTranslation_body, bind.
    pose proof (keys_validateKey K (Opt.key o) w) as Hk.
    destruct (validateKey K (Opt.key o) w) as [[k|e] w0]; simpl in Hk; subst w0; [|done].
    pose proof (keys_appendUpdate K (Opt.fileName o) (CommentLine K)
                  (k ++ KeyValueSeparator K :: safeValue K (Opt.comment o)) w Hcd) as Ha.
    destruct (appendUpdate K _ _ w) as [[[]|e] w1]; simpl in *; [|done].
    pose proof (keys_appendUpdate K (Opt.fileName o) (markerOf K (default false (Opt.approved o)))
                  (k ++ KeyValueSeparator K :: safeValue K (Opt.value o)) w1 (Hm _)) as Hb.
    destruct (appendUpdate K _ _ w1) as [[[]|e] w2]; simpl in *; congruence.
Qed.

(** Property X10, instance. *)
Lemma edits_leave_registry_example :
  keys (state (call sample fn_updateValue
                 (options (Some (JS.lit "app.en")) (Some (JS.lit "bye")) (Some (JS.lit "Bye")))
                 exampleWorld).2)
  = [JS.lit "hello"].
Proof.
  rewrite (edits_leave_registry sample fn_updateValue).
  - reflexivity.
  - apply (bool_decide_unpack _). vm_compute. exact I.
  - reflexivity.
Defined.

(** ** What load returns and throws *)

Section LoadFacts.
Context (K : Constants).

Lemma stateOnly_ret {A} (a : A) : stateOnly (ret a).
Proof. intros w. exists (state w). by destruct w. Qed.

Lemma stateOnly_throw {A} e : stateOnly (throw (A:=A) e).
Proof. intros w. exists (state w). by destruct w. Qed.

Lemma stateOnly_modify f : stateOnly (modify f).
Proof. intros w. by exists (f (state w)). Qed.

Lemma stateOnly_bind {A B} (m : M A) (k : A -> M B) :
  stateOnly m -> (forall a, stateOnly (k a)) -> stateOnly (bind m k).
Proof.
  intros Hm Hk w. unfold bind. destruct (Hm w) as [s Hs].
  destruct (m w) as [[a|e] w1]; simpl in Hs; subst w1.
  - destruct (Hk a (withState s w)) as [s' Hs']. exists s'. by rewrite Hs'.
  - by exists s.
Qed.

Lemma stateOnly_forOf {A} (l : list A) (body : A -> M unit) :
  (forall x, stateOnly (body x)) -> stateOnly (forOf l body).
Proof.
  intros Hb. induction l as [|x l IH]; simpl; [apply stateOnly_ret|].
  apply stateOnly_bind; [apply Hb | intros _; apply IH].
Qed.

Lemma stateOnly_updateState fileName line : stateOnly (updateState K fileName line).
Proof.
  intros w. rewrite updateState_run. destruct (0 <=? _); [apply stateOnly_throw|].
  destruct (parseLine K line 1); [apply stateOnly_throw|]. by eexists.
Qed.

Lemma stateOnly_readLines fileName lines : forall n sets ups,
  stateOnly (readLines K fileName n lines sets ups).
Proof.
  induction lines as [|line rest IH]; intros n sets ups; simpl; [apply stateOnly_ret|].
  destruct line; [apply stateOnly_ret|].
  destruct (bool_decide _); [apply IH|].
  apply stateOnly_bind; [|intros ?; apply IH].
  unfold readBaseline. destruct (parseLine _ _ _); [apply stateOnly_throw|].
  apply stateOnly_bind; [apply stateOnly_modify | intros _].
  destruct (_ =? _)%N; destruct (bool_decide _);
    first [apply stateOnly_throw | apply stateOnly_ret].
Qed.

Lemma stateOnly_loadFiles files : forall ks, stateOnly (loadFiles K files ks).
Proof.
  induction files as [|f files IH]; intros ks; simpl; [apply stateOnly_ret|].
  apply stateOnly_bind; [apply stateOnly_readLines | intros r].
  apply stateOnly_bind; [|intros _; apply IH].
  apply stateOnly_forOf. intros line. apply stateOnly_updateState.
Qed.

Lemma keeps_unregistered_updateState fileName line :
  keeps unregistered (updateState K fileName line).
Proof.
  intros w Hw. rewrite updateState_run. destruct (0 <=? _); [done|].
  destruct (parseLine K line 1) as [c|p]; [done|]. simpl.
  unfold unregistered, applyLine in *. cbv zeta.
  destruct (type p =? DeleteKeyLine K)%N; simpl; [|done].
  rewrite Hw. unfold SortedArray.remove.
  rewrite bool_decide_eq_false_2; [done | apply not_elem_of_nil].
Qed.

Lemma keeps_unregistered_readLines fileName lines : forall n sets ups,
  keeps unregistered (readLines K fileName n lines sets ups).
Proof.
  induction lines as [|line rest IH]; intros n sets ups; simpl; [apply keeps_ret|].
  destruct line; [apply keeps_ret|].
  destruct (bool_decide _); [apply IH|].
  apply keeps_bind; [|intros ?; apply IH].
  unfold readBaseline. destruct (parseLine _ _ _); [apply keeps_throw|].
  apply keeps_bind; [by apply keeps_modify | intros _].
  destruct (_ =? _)%N; destruct (bool_decide _);
    first [apply keeps_throw | apply keeps_ret].
Qed.

Lemma keeps_unregistered_loadFiles files : forall ks,
  keeps unregistered (loadFiles K files ks).
Proof.
  induction files as [|f files IH]; intros ks; simpl; [apply keeps_ret|].
  apply keeps_bind; [apply keeps_unregistered_readLines | intros r].
  apply keeps_bind; [|intros _; apply IH].
  apply keeps_forOf. intros line. apply keeps_unregistered_updateState.
Qed.

End LoadFacts.

(** Property X11.
    [load] always leaves the engine loaded, and it never throws an
    error of a line: it returns, or it throws the not-loaded error. *)
Theorem load_outcome K o w :
  loaded (state (load K o w).2) = true
  /\ ((load K o w).1 = Return tt \/ (load K o w).1 = Throw NotLoadedError).
Proof.
  unfold load, wrapped, load_body, validateAction, triggerChange, autoExport.
  munfold. simpl.
  pose proof (keeps_unloaded_loadFiles K (findI18nFiles K (disk w)) []
                (withState resetState w) (conj eq_refl eq_refl)) as Hr.
  pose proof (throws_loadFiles K (findI18nFiles K (disk w)) [] (withState resetState w)) as Ht.
  unfold withState in *. simpl in *.
  destruct (loadFiles K _ _ _) as [[ks|e] w1] eqn:E; simpl in *.
  - destruct Hr as (Hl & He). unfold optimizeUpdates. rewrite changeUpdates_run.
    case_bool_decide as Hsz; simpl; [by split; [|left]|].
    destruct (foldl_loaded_error (optimizeKey K) (elements (updateKeys (state w1))) (state w1)
                (optimizeKey_frame K)) as [Hl' He'].
    fold (forEachKey (optimizeKey K) (updateKeys (state w1)) (state w1)) in Hl', He'.
    case_bool_decide as Hsz1.
    + rewrite save_notLoaded by (simpl; congruence). simpl. by split; [|right].
    + simpl. by split; [|left].
  - destruct (Ht e w1 eq_refl) as [se ->]. simpl. by split; [|left].
Qed.

(** Property X12.
    When the update lines that [load] replays leave a log in which
    every entry equals its baseline, the optimizer calls [save] while
    the engine is not loaded yet: [load] throws the not-loaded error.
    It leaves the engine loaded, without captured error, and with an
    empty registry of keys. *)
Theorem load_cancelled_log_throws K o w ks w1 :
  loadFiles K (findI18nFiles K (disk w)) [] (withState resetState w) = (Return ks, w1) ->
  updateKeys (state w1) <> ∅ ->
  updateKeys (optimized K (state w1)) = ∅ ->
  exists w',
    load K o w = (Throw NotLoadedError, w')
    /\ loaded (state w') = true /\ error (state w') = None /\ keys (state w') = []
    /\ disk w' = disk w.
Proof.
  intros H Hne Hopt.
  pose proof (keeps_unloaded_loadFiles K (findI18nFiles K (disk w)) []
                (withState resetState w) (conj eq_refl eq_refl)) as Hk.
  pose proof (keeps_unregistered_loadFiles K (findI18nFiles K (disk w)) []
                (withState resetState w) eq_refl) as Hu.
  assert (Hd : disk w1 = disk w).
  { destruct (stateOnly_loadFiles K (findI18nFiles K (disk w)) [] (withState resetState w))
      as [s Hs]. rewrite H in Hs. simpl in Hs. by rewrite Hs. }
  rewrite H in Hk, Hu. simpl in Hk, Hu. destruct Hk as [Hl He].
  unfold load, wrapped, load_body, validateAction, triggerChange, autoExport.
  munfold. simpl. unfold withState in H. simpl in H. rewrite H.
  unfold optimizeUpdates. rewrite changeUpdates_run.
  rewrite bool_decide_eq_false_2 by (by rewrite size_updateKeys_0).
  cbv zeta. rewrite forEachKey_optimizeKey.
  rewrite bool_decide_eq_true_2 by (by rewrite size_updateKeys_0).
  rewrite save_notLoaded by (simpl; congruence). simpl.
  eexists. split; [done|]. simpl. done.
Qed.

(** Property X12, instance. *)
Lemma load_cancelled_log_example :
  exists w',
    load sample Opt.none (initialize restoredDisk) = (Throw NotLoadedError, w')
    /\ loaded (state w') = true /\ error (state w') = None /\ keys (state w') = []
    /\ disk w' = restoredDisk.
Proof.
  apply (load_cancelled_log_throws sample Opt.none (initialize restoredDisk)
           [JS.lit "hello"]
           (loadFiles sample (findI18nFiles sample restoredDisk) []
              (withState resetState (initialize restoredDisk))).2).
  - vm_compute. reflexivity.
  - apply (bool_decide_unpack _). vm_compute. exact I.
  - vm_compute. reflexivity.
Defined.

(** ** revert without scope, and what an edit writes *)

Section RevertAll.
Context (K : Constants).

Lemma reverts_unscoped fileName key fullKey :
  truthy fileName = false -> truthy key = false -> reverts K fileName key fullKey = true.
Proof. intros Hf Hk. unfold reverts. by rewrite Hf, Hk. Qed.

Lemma updateKeys_reverted_all fileName key s :
  truthy fileName = false -> truthy key = false ->
  updateKeys (reverted K fileName key s) = ∅.
Proof.
  intros Hf Hk. apply elem_of_equiv_empty_L. intros k Hin.
  unfold updateKeys, reverted in Hin. simpl in Hin.
  apply elem_of_union in Hin as [Hin|Hin];
    apply elem_of_dom_dropKeys in Hin as [Hd Hp];
    rewrite reverts_unscoped in Hp by done; simpl in Hp;
    apply bool_decide_eq_false in Hp; apply Hp; unfold updateKeys;
    apply elem_of_union; [by left | by right].
Qed.

Lemma updates_of_empty_log s :
  lengthAgrees s -> updateKeys s = ∅ -> updates s = emptyUpdates.
Proof.
  unfold lengthAgrees. intros Hlen He. rewrite He, size_empty in Hlen.
  unfold updateKeys in He. apply empty_union_L in He as [Hb Ha].
  apply dom_empty_inv_L in Hb, Ha.
  destruct (updates s) as [n b a]. simpl in *. by subst.
Qed.

End RevertAll.

(** Property X13.
    [revert] called with neither a file name nor a key, on a loaded
    engine without captured error: it returns with an empty log and the
    same registry.  With an empty log it changes nothing; otherwise it
    runs [save] once, after which the working map is empty and the
    baseline holds, at every full key that was in the log, the entry it
    held before, and elsewhere the entry of the working map. *)
Theorem revert_all_discards_log K o w :
  ready (state w) -> truthy (Opt.fileName o) = false -> truthy (Opt.key o) = false ->
  exists w',
    revert K o w = (Return tt, w')
    /\ updates (state w') = emptyUpdates
    /\ keys (state w') = keys (state w)
    /\ (updateKeys (state w) = ∅ -> w' = w)
    /\ (updateKeys (state w) <> ∅ ->
        updated (state w') = ∅
        /\ trace w' = trace w ++ [SaveEv; TriggerChangeEv; AutoExportEv]
        /\ forall fullKey,
             original (state w') !! fullKey
             = if bool_decide (fullKey ∈ updateKeys (state w))
               then original (state w) !! fullKey
               else updated (state w) !! fullKey).
Proof.
  intros (Hl & He & Hlen) Hf Hk. unfold revert, wrapped. munfold.
  rewrite (gate_pass fn_revert w Hl He). unfold revert_body.
  rewrite changeUpdates_run. case_bool_decide as Hsz.
  - apply size_updateKeys_0 in Hsz. exists w. split; [done|].
    split; [by apply updates_of_empty_log|]. split; [done|]. split; [done|]. done.
  - rewrite size_updateKeys_0 in Hsz. cbv zeta. rewrite forEachKey_revertKey.
    rewrite bool_decide_eq_true_2
      by (by rewrite size_updateKeys_0, updateKeys_reverted_all).
    rewrite save_run by done. eexists. split; [done|]. simpl.
    split; [done|]. split; [done|]. split; [done|]. intros _.
    split; [done|]. split; [done|]. intros fullKey.
    rewrite lookup_restoreKeys. by rewrite reverts_unscoped.
Qed.


(** Property X13, instance. *)
Lemma revert_all_example :
  exists w',
    revert sample Opt.none annotatedWorld = (Return tt, w')
    /\ updates (state w') = emptyUpdates
    /\ keys (state w') = keys (state annotatedWorld).
Proof.
  destruct (revert_all_discards_log sample Opt.none annotatedWorld) as (w' & H1 & H2 & H3 & _).
  - split; [vm_compute; reflexivity|]. split; vm_compute; reflexivity.
  - reflexivity.
  - reflexivity.
  - exists w'. split; [exact H1|]. split; [exact H2 | exact H3].
Defined.

(** ** Keys that the validation lets through, and the refusals of copyKey *)

Section Refusals.
Context (K : Constants).

Lemma indexOf_present c s : c ∈ s -> 0 <= JS.indexOf c s.
Proof.
  intros Hin. unfold JS.indexOf. destruct (JS.find c s) eqn:E; [lia|].
  by apply find_None in E.
Qed.

Lemma updateState_line_feed fileName line w :
  JS.LF ∈ line ->
  updateState K fileName line w
  = (Throw (StateErr {| cause := InvalidLineError line; location := None |}), w).
Proof.
  intros Hin. rewrite updateState_run.
  apply indexOf_present in Hin. apply Z.leb_le in Hin. by rewrite Hin.
Qed.

Lemma appendUpdate_line_feed fileName m key payload w :
  JS.LF ∈ key ->
  appendUpdate K fileName (m :: key ++ payload) w
  = (Throw (StateErr {| cause := InvalidLineError (UpdateLine K :: m :: key ++ payload);
                        location := None |}), w).
Proof.
  intros Hin. unfold appendUpdate. munfold. rewrite updateState_line_feed; [done|].
  apply elem_of_cons. right. apply elem_of_cons. right. apply elem_of_app. by left.
Qed.

Lemma position_None key array : SortedArray.position key array = None <-> key ∉ array.
Proof.
  induction array as [|k r IH]; simpl.
  - split; [intros _; apply not_elem_of_nil | done].
  - case_bool_decide as E.
    + split; [done|]. intros H. exfalso. apply H. subst. apply elem_of_cons. by left.
    + rewrite not_elem_of_cons. destruct (SortedArray.position key r); simpl.
      * split; [done|]. intros [_ H]. by apply IH in H.
      * split; [|done]. intros _. split; [congruence | by apply IH].
Qed.

Lemma indexOf_sentinel key array : SortedArray.indexOf key array = -1 <-> key ∉ array.
Proof.
  unfold SortedArray.indexOf. rewrite <- position_None.
  destruct (SortedArray.position key array); split; intros H; try done; lia.
Qed.

Lemma sortedIndexOf_sentinel key array :
  SortedArray.sortedIndexOf key array = -1 <-> key ∈ array.
Proof.
  unfold SortedArray.sortedIndexOf. case_bool_decide; split; intros H'; try done; lia.
Qed.

End Refusals.

(** Property X14.
    A key with a line feed passes [_validateKey], which tests only for
    the empty key and the separator; the edit is then refused by
    [_updateState]: each of the four edit operations throws the
    invalid-line error, which carries [stateError], and changes
    nothing. *)
Theorem edit_key_with_line_feed_throws K fnName o w key :
  isEdit fnName = true -> opened (state w) ->
  Opt.key o = Some key -> KeyValueSeparator K ∉ key -> JS.LF ∈ key ->
  exists line,
    call K fnName o w
    = (Throw (StateErr {| cause := InvalidLineError line; location := None |}), w)
    /\ JS.LF ∈ line.
Proof.
  intros Hed [Hl He] Hk Hsep Hlf.
  assert (Hne : key <> []) by (intros ->; by apply not_elem_of_nil in Hlf).
  assert (Hin : forall m rest, JS.LF ∈ UpdateLine K :: m :: key ++ rest).
  { intros m rest. apply elem_of_cons. right. apply elem_of_cons. right.
    apply elem_of_app. by left. }
  destruct fnName; try discriminate Hed; simpl; eexists.
  - unfold updateValue, wrapped. munfold. rewrite (gate_pass fn_updateValue w Hl He).
    unfold updateValue_body. rewrite Hk. munfold. rewrite validateKey_valid by done.
    rewrite appendUpdate_line_feed by done. split; [reflexivity | apply Hin].
  - unfold updateApproved, wrapped. munfold. rewrite (gate_pass fn_updateApproved w Hl He).
    unfold updateApproved_body. rewrite Hk. munfold. rewrite validateKey_valid by done.
    rewrite appendUpdate_line_feed by done. split; [reflexivity | apply Hin].
  - unfold updateComment, wrapped. munfold. rewrite (gate_pass fn_updateComment w Hl He).
    unfold updateComment_body. rewrite Hk. munfold. rewrite validateKey_valid by done.
    rewrite appendUpdate_line_feed by done. split; [reflexivity | apply Hin].
  - unfold updateTranslation, wrapped. munfold.
    rewrite (gate_pass fn_updateTranslation w Hl He).
    unfold updateTranslation_body. rewrite Hk. munfold. rewrite validateKey_valid by done.
    rewrite appendUpdate_line_feed by done. split; [reflexivity | apply Hin].
Qed.

(** Property X14, instance. *)
Lemma edit_key_with_line_feed_example :
  exists line,
    call sample fn_updateValue
      (options (Some (JS.lit "app.en")) (Some (JS.lit "a" ++ JS.LF :: JS.lit "b"))
         (Some (JS.lit "v"))) exampleWorld
    = (Throw (StateErr {| cause := InvalidLineError line; location := None |}), exampleWorld)
    /\ JS.LF ∈ line.
Proof.
  apply (edit_key_with_line_feed_throws sample fn_updateValue _ exampleWorld
           (JS.lit "a" ++ JS.LF :: JS.lit "b")).
  - reflexivity.
  - split; vm_compute; reflexivity.
  - reflexivity.
  - absent_by_computation.
  - apply list_elem_of_In. vm_compute. tauto.
Defined.

(** Property X15.
    The refusals of [copyKey] on a loaded engine without captured
    error, in the order of the code.  Equal keys: it returns at once,
    whatever the keys are.  Two different valid keys: with no locale
    file it throws the no-files error; else with a source key that is
    not registered the key-not-exist error; else with a target key that
    is registered the key-exist error.  Nothing is changed in any of
    these cases. *)
Theorem copyKey_refusals K o w :
  opened (state w) ->
  (Opt.fromKey o = Opt.toKey o -> copyKey K o w = (Return tt, w))
  /\ forall fromKey toKey,
       Opt.fromKey o = Some fromKey -> Opt.toKey o = Some toKey -> fromKey <> toKey ->
       fromKey <> [] -> KeyValueSeparator K ∉ fromKey ->
       toKey <> [] -> KeyValueSeparator K ∉ toKey ->
       (findI18nFiles K (disk w) = [] -> copyKey K o w = (Throw NoI18nFilesError, w))
       /\ (findI18nFiles K (disk w) <> [] -> fromKey ∉ keys (state w) ->
           copyKey K o w = (Throw (KeyNotExistError fromKey), w))
       /\ (findI18nFiles K (disk w) <> [] -> fromKey ∈ keys (state w) ->
           toKey ∈ keys (state w) ->
           copyKey K o w = (Throw (KeyExistError toKey), w)).
Proof.
  intros [Hl He]. split.
  - intros Heq. unfold copyKey, wrapped. munfold. rewrite (gate_pass fn_copyKey w Hl He).
    unfold copyKey_body. by rewrite bool_decide_eq_true_2.
  - intros fromKey toKey Hf Ht Hne Hf1 Hf2 Ht1 Ht2.
    assert (Hsome : findI18nFiles K (disk w) <> [] ->
                    bool_decide (List.length (findI18nFiles K (disk w)).*1 = 0%nat) = false).
    { intros Hfiles. apply bool_decide_eq_false_2.
      destruct (findI18nFiles K (disk w)); [done | simpl; lia]. }
    split; [|split].
    + intros Hno. unfold copyKey, wrapped. munfold. rewrite (gate_pass fn_copyKey w Hl He).
      unfold copyKey_body. rewrite bool_decide_eq_false_2 by congruence.
      rewrite Hf, Ht. munfold. rewrite !validateKey_valid by done. simpl.
      by rewrite Hno.
    + intros Hfiles Hnot. unfold copyKey, wrapped. munfold.
      rewrite (gate_pass fn_copyKey w Hl He).
      unfold copyKey_body. rewrite bool_decide_eq_false_2 by congruence.
      rewrite Hf, Ht. munfold. rewrite !validateKey_valid by done. simpl.
      rewrite (Hsome Hfiles).
      by rewrite (proj2 (Z.eqb_eq _ _) (proj2 (indexOf_sentinel _ _) Hnot)).
    + intros Hfiles Hin Hin'. unfold copyKey, wrapped. munfold.
      rewrite (gate_pass fn_copyKey w Hl He).
      unfold copyKey_body. rewrite bool_decide_eq_false_2 by congruence.
      rewrite Hf, Ht. munfold. rewrite !validateKey_valid by done. simpl.
      rewrite (Hsome Hfiles).
      destruct (SortedArray.indexOf fromKey (keys (state w)) =? -1) eqn:E.
      { apply Z.eqb_eq, indexOf_sentinel in E. done. }
      by rewrite (proj2 (Z.eqb_eq _ _) (proj2 (sortedIndexOf_sentinel _ _) Hin')).
Qed.

(** Property X15, instance. *)
Lemma copyKey_refusals_example :
  copyKey sample (fromTo (JS.lit "bye") (JS.lit "hello")) exampleWorld
  = (Throw (KeyNotExistError (JS.lit "bye")), exampleWorld).
Proof.
  destruct (copyKey_refusals sample (fromTo (JS.lit "bye") (JS.lit "hello")) exampleWorld)
    as [_ H].
  - split; vm_compute; reflexivity.
  - destruct (H (JS.lit "bye") (JS.lit "hello")) as (_ & H2 & _);
      [reflexivity | reflexivity | discriminate | discriminate | absent_by_computation
      | discriminate | absent_by_computation |].
    apply H2; [discriminate|]. absent_by_computation.
Defined.

(** ** Paths *)

Lemma endsWith_nil c : endsWith [c] [] = false.
Proof. done. Qed.

Lemma endsWith_snoc c s x : endsWith [c] (s ++ [x]) = bool_decide (x = c).
Proof.
  unfold endsWith. rewrite length_app. simpl.
  replace (List.length s + 1 - 1)%nat with (List.length s) by lia.
  rewrite drop_app_length. apply bool_decide_ext. split; congruence.
Qed.

Lemma endWithSlash_fixed s : endsWith [slash] s = true -> endWithSlash (Some s) = s.
Proof. intros H. unfold endWithSlash. simpl. by rewrite H. Qed.

(** Property X16.
    The path [endWithSlash$] returns always ends with one slash put
    there or found there, and the function is idempotent; a path that
    ends with a backslash has that backslash replaced. *)
Theorem endWithSlash_closed path :
  endsWith [slash] (endWithSlash path) = true
  /\ endWithSlash (Some (endWithSlash path)) = endWithSlash path
  /\ forall p, path = Some (p ++ [backslash]) -> endWithSlash path = p ++ [slash].
Proof.
  assert (Hend : endsWith [slash] (endWithSlash path) = true).
  { unfold endWithSlash. cbv zeta.
    destruct (endsWith [slash] (default [] path)) eqn:E; [done|].
    destruct (endsWith [backslash] (default [] path));
      rewrite endsWith_snoc; by apply bool_decide_eq_true_2. }
  split; [done|]. split.
  - by apply endWithSlash_fixed.
  - intros p ->. unfold endWithSlash. simpl.
    rewrite !endsWith_snoc.
    rewrite bool_decide_eq_false_2 by discriminate.
    rewrite bool_decide_eq_true_2 by done.
    unfold JS.substring. rewrite length_app. simpl. rewrite drop_0.
    replace (List.length p + 1 - 1 - 0)%nat with (List.length p) by lia.
    by rewrite take_app_length.
Qed.

(** ** The refusals of addFile and deleteFile *)

(** Property X21.
    [addFile] and [deleteFile] on a loaded engine without captured
    error, in the order of the code.  With changes in the log both throw
    the unapplied-changes error.  With an empty log: [addFile] without a
    file name, or with the empty one, throws the invalid-file error for
    the empty name; with the name of a locale file of the directory it
    throws the invalid-file error for the existing name; [deleteFile]
    with a name that is not the name of a locale file returns.  Nothing
    is changed in any of these cases: no file is created or deleted and
    [save] does not run. *)
Theorem file_operations_refusals K o w :
  opened (state w) ->
  (length (updates (state w)) <> 0%nat ->
   addFile K o w = (Throw UnappliedChangesError, w)
   /\ deleteFile K o w = (Throw UnappliedChangesError, w))
  /\ (length (updates (state w)) = 0%nat ->
      (default [] (Opt.fileName o) = [] -> addFile K o w = (Throw InvalidFileEmpty, w))
      /\ (forall fileName,
            Opt.fileName o = Some fileName -> fileName <> [] ->
            fileName ∈ (findI18nFiles K (disk w)).*1 ->
            addFile K o w = (Throw (InvalidFileExists fileName), w))
      /\ (default [] (Opt.fileName o) ∉ (findI18nFiles K (disk w)).*1 ->
          deleteFile K o w = (Return tt, w))).
Proof.
  intros [Hl He]. split.
  - intros Hlen. split.
    + unfold addFile, wrapped. munfold. rewrite (gate_pass fn_addFile w Hl He).
      unfold addFile_body. munfold. by rewrite bool_decide_eq_false_2.
    + unfold deleteFile, wrapped. munfold. rewrite (gate_pass fn_deleteFile w Hl He).
      unfold deleteFile_body. munfold. by rewrite bool_decide_eq_false_2.
  - intros Hlen. split; [|split].
    + intros Hname. unfold addFile, wrapped. munfold.
      rewrite (gate_pass fn_addFile w Hl He).
      unfold addFile_body. munfold. rewrite bool_decide_eq_true_2 by done.
      by rewrite Hname.
    + intros fileName Hname Hne Hin. unfold addFile, wrapped. munfold.
      rewrite (gate_pass fn_addFile w Hl He).
      unfold addFile_body. munfold. rewrite bool_decide_eq_true_2 by done.
      rewrite Hname. simpl.
      destruct (Z.of_nat (List.length fileName) <=? 0) eqn:E.
      { apply Z.leb_le in E. destruct fileName; [done|simpl in E; lia]. }
      by rewrite bool_decide_eq_true_2.
    + intros Hnot. unfold deleteFile, wrapped. munfold.
      rewrite (gate_pass fn_deleteFile w Hl He).
      unfold deleteFile_body. munfold. rewrite bool_decide_eq_true_2 by done.
      simpl. by rewrite bool_decide_eq_false_2.
Qed.

(** Property X21, instance. *)
Lemma file_operations_refusals_example :
  addFile sample (approve (JS.lit "app.fr") (JS.lit "hello")) exampleWorld
  = (Throw (InvalidFileExists (JS.lit "app.fr")), exampleWorld)
  /\ addFile sample Opt.none annotatedWorld = (Throw UnappliedChangesError, annotatedWorld).
Proof.
  split.
  - destruct (file_operations_refusals sample (approve (JS.lit "app.fr") (JS.lit "hello"))
                exampleWorld) as [_ H].
    + split; vm_compute; reflexivity.
    + destruct H as (_ & H & _); [vm_compute; reflexivity|].
      apply (H (JS.lit "app.fr")); [reflexivity|discriminate|].
      apply list_elem_of_In. vm_compute. right. left. reflexivity.
  - destruct (file_operations_refusals sample Opt.none annotatedWorld) as [H _].
    + split; vm_compute; reflexivity.
    + destruct H as [H _]; [vm_compute; discriminate|]. exact H.
Defined.

(** * The word diff *)

(** ** The tokens of the word diff *)

Lemma concat_split s : forall prev cur, concat (Diff.split prev cur s) = cur ++ s.
Proof.
  induction s as [|c r IH]; intros prev cur; simpl; [by rewrite app_nil_r|].
  destruct (Diff.isSeparator c); simpl; [by rewrite IH|].
  destruct (_ && _); simpl; rewrite IH; [done|]. by rewrite <- app_assoc.
Qed.

Lemma mergeWords_cons t t1 rest1 :
  Diff.mergeWords t (t1 :: rest1) =
    match rest1 with
    | [] => [t; t1]
    | t2 :: rest2 =>
        if bool_decide (t1 = []) && negb (bool_decide (t2 = []))
           && Diff.extendedWordChars t && Diff.extendedWordChars t2
        then Diff.mergeWords (t ++ t2) rest2
        else t :: Diff.mergeWords t1 rest1
    end.
Proof. by destruct rest1. Qed.

Lemma concat_mergeWords n : forall rest t,
  (List.length rest <= n)%nat -> concat (Diff.mergeWords t rest) = t ++ concat rest.
Proof.
  induction n as [|n IH]; intros rest t Hn.
  - destruct rest; simpl in *; [by rewrite app_nil_r | lia].
  - destruct rest as [|t1 rest1]; [simpl; by rewrite app_nil_r|].
    rewrite mergeWords_cons. destruct rest1 as [|t2 rest2]; [done|].
    simpl in Hn.
    destruct (bool_decide (t1 = []) && negb (bool_decide (t2 = []))
              && Diff.extendedWordChars t && Diff.extendedWordChars t2) eqn:E.
    + apply andb_true_iff in E as [E _]. apply andb_true_iff in E as [E _].
      apply andb_true_iff in E as [E _]. apply bool_decide_eq_true in E. subst t1.
      rewrite IH by lia. rewrite !concat_cons. by rewrite <- app_assoc.
    + rewrite concat_cons. rewrite (IH (t2 :: rest2)) by (simpl; lia).
      by rewrite !concat_cons.
Qed.

Lemma concat_removeEmpty l : concat (Diff.removeEmpty l) = concat l.
Proof.
  unfold Diff.removeEmpty. induction l as [|t l IH]; [done|].
  rewrite filter_cons. destruct (decide (t <> [])) as [H|H]; simpl; [by rewrite IH|].
  rewrite IH. destruct t; [done|]. by destruct H.
Qed.

Lemma removeEmpty_nonempty l : Forall (fun t => t <> []) (Diff.removeEmpty l).
Proof.
  apply Forall_forall. intros t Ht. unfold Diff.removeEmpty in Ht.
  by apply list_elem_of_filter in Ht as [Ht _].
Qed.

(** The tokens of a string, put end to end, are the string. *)
Lemma tokens_join value :
  Diff.join (Diff.removeEmpty (Diff.tokenize value)) = value.
Proof.
  unfold Diff.join. rewrite concat_removeEmpty. unfold Diff.tokenize.
  pose proof (concat_split value None []) as Hs.
  destruct (Diff.split None [] value) as [|t rest]; [done|].
  rewrite (concat_mergeWords (List.length rest)) by done. exact Hs.
Qed.

(** Property X17.
    The tokens [wordDiff] cuts a string into, without the empty ones,
    give the string back when joined: the tokenizer loses no character
    and adds none; and none of the tokens compared is empty. *)
Theorem tokenize_join value :
  Diff.join (Diff.removeEmpty (Diff.tokenize value)) = value
  /\ Forall (fun t => t <> []) (Diff.removeEmpty (Diff.tokenize value)).
Proof.
  split; [apply tokens_join|apply removeEmpty_nonempty].
Qed.

(** ** The paths of the diff *)

Section DiffFacts.
Context (lc : list N -> list N) (o : Diff.Options).
Context (ns os : list (list N)).

Lemma commonRun_spec fuel : forall np op k,
  exists j : nat,
    Diff.commonRun lc o ns os fuel np op k = (np + Z.of_nat j, op + Z.of_nat j, (k + j)%nat)
    /\ (j <= fuel)%nat
    /\ (forall i : nat, (i < j)%nat ->
          Diff.sameNext lc o ns os (np + Z.of_nat i) (op + Z.of_nat i) = true)
    /\ (j = fuel \/ Diff.sameNext lc o ns os (np + Z.of_nat j) (op + Z.of_nat j) = false).
Proof.
  induction fuel as [|fuel IH]; intros np op k; simpl.
  - exists 0%nat. rewrite !Z.add_0_r, Nat.add_0_r. split; [done|]. split; [done|].
    split; [intros; lia | by left].
  - destruct (Diff.sameNext lc o ns os np op) eqn:E.
    + destruct (IH (np + 1) (op + 1) (S k)) as (j & Hr & Hj & Hall & Hstop).
      exists (S j). rewrite Hr. split; [f_equal; [f_equal|]; lia|]. split; [lia|]. split.
      * intros [|i] Hi; [by rewrite !Z.add_0_r|].
        replace (np + Z.of_nat (S i)) with (np + 1 + Z.of_nat i) by lia.
        replace (op + Z.of_nat (S i)) with (op + 1 + Z.of_nat i) by lia.
        apply Hall. lia.
      * destruct Hstop as [->|Hstop]; [by left|]. right.
        replace (np + Z.of_nat (S j)) with (np + 1 + Z.of_nat j) by lia.
        by replace (op + Z.of_nat (S j)) with (op + 1 + Z.of_nat j) by lia.
    + exists 0%nat. rewrite !Z.add_0_r, Nat.add_0_r. split; [done|]. split; [lia|].
      split; [intros; lia | by right].
Qed.

Lemma sameNext_true np op :
  Diff.ignoreCase o = false ->
  Diff.sameNext lc o ns os np op = true ->
  0 <= np + 1 /\ 0 <= op + 1
  /\ np + 1 < Diff.newLen ns /\ op + 1 < Diff.oldLen os
  /\ exists t, ns !! Z.to_nat (np + 1) = Some t /\ os !! Z.to_nat (op + 1) = Some t.
Proof.
  intros Hic. unfold Diff.sameNext, Diff.at_, Diff.equals. rewrite Hic.
  intros [[H1 H2]%andb_true_iff H3]%andb_true_iff.
  apply Z.ltb_lt in H1, H2.
  destruct (np + 1 <? 0) eqn:E1; [done|]. destruct (op + 1 <? 0) eqn:E2.
  { by destruct (ns !! _). }
  apply Z.ltb_ge in E1, E2.
  destruct (ns !! Z.to_nat (np + 1)) as [l|]; [|done].
  destruct (os !! Z.to_nat (op + 1)) as [r|]; [|done].
  apply bool_decide_eq_true in H3. subst r. by eauto 10.
Qed.

(** The tokens that the loop of [extractCommon] steps over are the same
    in the two strings. *)
Lemma common_slices np op (j : nat) :
  Diff.ignoreCase o = false -> -1 <= np -> -1 <= op ->
  np + 1 <= Diff.newLen ns -> op + 1 <= Diff.oldLen os ->
  (forall i : nat, (i < j)%nat ->
     Diff.sameNext lc o ns os (np + Z.of_nat i) (op + Z.of_nat i) = true) ->
  take j (drop (Z.to_nat (np + 1)) ns) = take j (drop (Z.to_nat (op + 1)) os)
  /\ np + Z.of_nat j + 1 <= Diff.newLen ns /\ op + Z.of_nat j + 1 <= Diff.oldLen os.
Proof.
  intros Hic Hnp Hop Hn Ho Hall. split.
  - apply list_eq. intros i. rewrite !lookup_take.
    destruct (decide (i < j)%nat) as [Hi|Hi]; [|done].
    rewrite !lookup_drop.
    destruct (sameNext_true _ _ Hic (Hall i Hi)) as (_ & _ & _ & _ & t & H1 & H2).
    replace (Z.to_nat (np + 1) + i)%nat with (Z.to_nat (np + Z.of_nat i + 1)) by lia.
    replace (Z.to_nat (op + 1) + i)%nat with (Z.to_nat (op + Z.of_nat i + 1)) by lia.
    by rewrite H1, H2.
  - destruct j as [|j]; [lia|].
    destruct (sameNext_true _ _ Hic (Hall j ltac:(lia))) as (_ & _ & H1 & H2 & _). lia.
Qed.

End DiffFacts.

(** *** Counting the tokens of components *)

Lemma sum_list_snoc l n : sum_list (l ++ [n]) = (sum_list l + n)%nat.
Proof. induction l as [|x l IH]; simpl; lia. Qed.

Lemma newCount_snoc cs c :
  newCount (cs ++ [c]) = (newCount cs + if Diff.removed c then 0 else Diff.count c)%nat.
Proof.
  unfold newCount. rewrite filter_app, fmap_app, filter_cons, filter_nil.
  destruct (decide (Diff.removed c = false)) as [E|E].
  - rewrite E. simpl. apply sum_list_snoc.
  - destruct (Diff.removed c); [|done]. simpl. rewrite app_nil_r. lia.
Qed.

Lemma oldCount_snoc cs c :
  oldCount (cs ++ [c]) = (oldCount cs + if Diff.added c then 0 else Diff.count c)%nat.
Proof.
  unfold oldCount. rewrite filter_app, fmap_app, filter_cons, filter_nil.
  destruct (decide (Diff.added c = false)) as [E|E].
  - rewrite E. simpl. apply sum_list_snoc.
  - destruct (Diff.added c); [|done]. simpl. rewrite app_nil_r. lia.
Qed.

Lemma newCount_cons c cs :
  newCount (c :: cs) = ((if Diff.removed c then 0 else Diff.count c) + newCount cs)%nat.
Proof.
  unfold newCount. rewrite filter_cons.
  destruct (decide (Diff.removed c = false)) as [E|E].
  - by rewrite E.
  - by destruct (Diff.removed c).
Qed.

Lemma oldCount_cons c cs :
  oldCount (c :: cs) = ((if Diff.added c then 0 else Diff.count c) + oldCount cs)%nat.
Proof.
  unfold oldCount. rewrite filter_cons.
  destruct (decide (Diff.added c = false)) as [E|E].
  - by rewrite E.
  - by destruct (Diff.added c).
Qed.

Lemma aligned_app ns os cs1 cs2 : forall np op,
  aligned ns os (cs1 ++ cs2) np op
  <-> aligned ns os cs1 np op
      /\ aligned ns os cs2 (np + newCount cs1) (op + oldCount cs1).
Proof.
  induction cs1 as [|c cs1 IH]; intros np op.
  - simpl. unfold newCount, oldCount. simpl. rewrite !Nat.add_0_r. tauto.
  - cbn [app aligned]. rewrite IH, newCount_cons, oldCount_cons.
    destruct (Diff.removed c), (Diff.added c); simpl;
      rewrite ?Nat.add_assoc, ?Nat.add_0_r; tauto.
Qed.

Lemma pushComponent_cases cs a r :
  (exists cs0 l, cs = cs0 ++ [l] /\ Diff.added l = a /\ Diff.removed l = r
     /\ Diff.pushComponent cs a r
        = cs0 ++ [{| Diff.count := Diff.count l + 1; Diff.added := a; Diff.removed := r;
                     Diff.value := None |}])
  \/ Diff.pushComponent cs a r
     = cs ++ [{| Diff.count := 1; Diff.added := a; Diff.removed := r; Diff.value := None |}].
Proof.
  unfold Diff.pushComponent. destruct (last cs) as [l|] eqn:El; [|by right].
  apply last_Some in El as [cs0 ->].
  destruct (bool_decide (Diff.added l = a)) eqn:Ea; simpl; [|by right].
  destruct (bool_decide (Diff.removed l = r)) eqn:Er; simpl; [|by right].
  apply bool_decide_eq_true in Ea, Er. left. exists cs0, l.
  split; [done|]. split; [done|]. split; [done|].
  rewrite length_app. simpl.
  rewrite insert_app_r_alt by lia.
  replace (List.length cs0 + 1 - 1 - List.length cs0)%nat with 0%nat by lia. done.
Qed.

(** [pushComponent] with one of the two flags: one more token on that
    side, and the components stay aligned. *)
Lemma pushComponent_spec ns os cs a r :
  a && r = false -> a || r = true ->
  aligned ns os cs 0 0 ->
  aligned ns os (Diff.pushComponent cs a r) 0 0
  /\ newCount (Diff.pushComponent cs a r) = (newCount cs + if r then 0 else 1)%nat
  /\ oldCount (Diff.pushComponent cs a r) = (oldCount cs + if a then 0 else 1)%nat.
Proof.
  intros Hx Hy Hal.
  destruct (pushComponent_cases cs a r) as [(cs0 & l & -> & Ha & Hr & ->)| ->].
  - apply aligned_app in Hal as [H0 Hl]. rewrite !newCount_snoc, !oldCount_snoc. simpl.
    rewrite Ha, Hr. split; [|split].
    + apply aligned_app. split; [done|]. simpl. rewrite Hx, Hy. done.
    + destruct r; lia.
    + destruct a; lia.
  - rewrite !newCount_snoc, !oldCount_snoc. simpl. split; [|done].
    apply aligned_app. split; [done|]. simpl. rewrite Hx, Hy. done.
Qed.

(** ** The paths kept by the diff are valid *)

Section Paths.
Context (lc : list N -> list N) (o : Diff.Options).
Context (ns os : list (list N)).
Context (Hic : Diff.ignoreCase o = false).

Lemma extractCommon_valid d p :
  validPath ns os d p ->
  validPath ns os d (Diff.extractCommon lc o ns os p d).1
  /\ (Diff.extractCommon lc o ns os p d).2
     = Diff.newPos (Diff.extractCommon lc o ns os p d).1 - d.
Proof.
  intros (Hal & Hn & Ho & Hbn & Hbo). unfold Diff.extractCommon. cbv zeta.
  destruct (commonRun_spec lc o ns os (Z.to_nat (Diff.newLen ns - 1 - Diff.newPos p))
              (Diff.newPos p) (Diff.newPos p - d) 0) as (j & -> & _ & Hall & _).
  simpl. split; [|lia].
  destruct (common_slices lc o ns os (Diff.newPos p) (Diff.newPos p - d) j Hic)
    as (Hsl & Hjn & Hjo); [lia|lia|done|done|done|].
  replace (Z.to_nat (Diff.newPos p + 1)) with (newCount (Diff.components p)) in Hsl by lia.
  replace (Z.to_nat (Diff.newPos p - d + 1)) with (oldCount (Diff.components p)) in Hsl by lia.
  unfold validPath. simpl. case_bool_decide as Hj.
  - subst j. simpl in *. split; [done|]. split; [lia|]. split; [lia|]. split; lia.
  - split; [|rewrite newCount_snoc, oldCount_snoc; simpl;
             unfold Diff.newLen, Diff.oldLen in *; repeat split; lia].
    apply aligned_app. split; [done|]. simpl. split; [done|]. split; [|done].
    intros _. exact Hsl.
Qed.

Lemma advance_valid bestPath d basePath :
  validPaths ns os bestPath -> validPath ns os d basePath ->
  validTurn lc o ns os (Diff.advance lc o ns os bestPath d basePath).
Proof.
  intros Hbp Hv. unfold Diff.advance.
  destruct (extractCommon_valid d basePath Hv) as [Hv' Hop].
  destruct (Diff.extractCommon lc o ns os basePath d) as [b op]. simpl in *. subst op.
  destruct (_ && _) eqn:E; simpl.
  - apply andb_true_iff in E as [E1 E2]. apply Z.leb_le in E1, E2.
    destruct Hv' as (Hal & Hn & Ho & Hbn & Hbo). unfold Diff.newLen, Diff.oldLen in *.
    exists (Diff.components b). split; [done|]. split; [done|]. split; lia.
  - intros d' p. rewrite lookup_insert. case_decide as Hd.
    + intros [= <-]. by subst d'.
    + apply Hbp.
Qed.

Lemma addStep_valid d a :
  validPath ns os (d - 1) a -> Diff.newPos a + 1 < Diff.newLen ns ->
  validPath ns os d (Diff.addStep a).
Proof.
  intros (Hal & Hn & Ho & Hbn & Hbo) Hlt.
  destruct (pushComponent_spec ns os (Diff.components a) true false)
    as (Hal' & Hn' & Ho'); [done|done|done|].
  unfold validPath, Diff.addStep, Diff.newLen in *. simpl. rewrite Hn', Ho'.
  split; [done|]. repeat split; lia.
Qed.

Lemma removeStep_valid d r :
  validPath ns os (d + 1) r ->
  0 <= Diff.newPos r - d -> Diff.newPos r - d < Diff.oldLen os ->
  validPath ns os d (Diff.removeStep r).
Proof.
  intros (Hal & Hn & Ho & Hbn & Hbo) H0 Hlt.
  destruct (pushComponent_spec ns os (Diff.components r) false true)
    as (Hal' & Hn' & Ho'); [done|done|done|].
  unfold validPath, Diff.removeStep, Diff.oldLen in *. simpl. rewrite Hn', Ho'.
  split; [done|]. repeat split; lia.
Qed.

(** The cases of one turn: no path to start from, and the entry of the
    diagonal is cleared; or a path to add to or to remove from, and the
    turn ends with [advance]. *)
Lemma execDiagonal_cases bestPath d :
  let kept := match bestPath !! (d - 1) with
              | Some _ => delete (d - 1) bestPath
              | None => bestPath
              end in
  (Diff.execDiagonal lc o ns os bestPath d = inr (delete d kept)
   /\ (forall a, bestPath !! (d - 1) = Some a -> Diff.newLen ns <= Diff.newPos a + 1)
   /\ (forall r, bestPath !! (d + 1) = Some r ->
         ~ (0 <= Diff.newPos r - d < Diff.oldLen os)))
  \/ (exists a, bestPath !! (d - 1) = Some a /\ Diff.newPos a + 1 < Diff.newLen ns
                /\ Diff.execDiagonal lc o ns os bestPath d
                   = Diff.advance lc o ns os kept d (Diff.addStep a))
  \/ (exists r, bestPath !! (d + 1) = Some r /\ 0 <= Diff.newPos r - d < Diff.oldLen os
                /\ Diff.execDiagonal lc o ns os bestPath d
                   = Diff.advance lc o ns os kept d (Diff.removeStep r)).
Proof.
  cbv zeta. unfold Diff.execDiagonal. cbv zeta.
  destruct (bestPath !! (d - 1)) as [a|] eqn:Ea; simpl;
    [destruct (Diff.newPos a + 1 <? Diff.newLen ns) eqn:Eadd; simpl|];
    (destruct (bestPath !! (d + 1)) as [r|] eqn:Er; simpl;
     [destruct ((0 <=? Diff.newPos r - d) && (Diff.newPos r - d <? Diff.oldLen os)) eqn:Erem;
      simpl|]).
  all: try (apply andb_true_iff in Erem as [E1 E2]; apply Z.leb_le in E1;
            apply Z.ltb_lt in E2).
  all: try (apply andb_false_iff in Erem; rewrite Z.leb_gt, Z.ltb_ge in Erem).
  all: try apply Z.ltb_lt in Eadd; try apply Z.ltb_ge in Eadd.
  all: try (destruct (Diff.newPos a <? Diff.newPos r)).
  all: first [ right; left; exists a; by repeat split
             | right; right; exists r; by repeat split
             | left; split; [done|]; split; [intros ? [= <-]; lia | intros ? [= <-]; lia]
             | left; split; [done|]; split; [intros ? [= <-]; lia | done]
             | left; split; [done|]; split; [done | intros ? [= <-]; lia]
             | left; split; [done|]; split; done ].
Qed.

Lemma execDiagonal_valid bestPath d :
  validPaths ns os bestPath ->
  validTurn lc o ns os (Diff.execDiagonal lc o ns os bestPath d).
Proof.
  intros Hbp.
  assert (Hk : validPaths ns os
                 match bestPath !! (d - 1) with
                 | Some _ => delete (d - 1) bestPath
                 | None => bestPath
                 end).
  { destruct (bestPath !! (d - 1)) as [a0|]; [|done].
    intros d' p [_ H]%lookup_delete_Some. by apply Hbp. }
  destruct (execDiagonal_cases bestPath d)
    as [(-> & _ & _)|[(a & Ha & Hlt & ->)|(r & Hr & [H0 Hlt] & ->)]].
  - intros d' p [_ H]%lookup_delete_Some. by apply Hk.
  - apply advance_valid; [done|]. apply addStep_valid; [|done]. by apply Hbp.
  - apply advance_valid; [done|]. apply removeStep_valid; [|done|done]. by apply Hbp.
Qed.

Lemma execDiagonals_valid ds : forall bestPath,
  validPaths ns os bestPath ->
  validTurn lc o ns os (Diff.execDiagonals lc o ns os ds bestPath).
Proof.
  induction ds as [|d ds IH]; intros bestPath Hbp; simpl; [done|].
  pose proof (execDiagonal_valid bestPath d Hbp) as Hd.
  destruct (Diff.execDiagonal lc o ns os bestPath d) as [r|bp']; [done|]. by apply IH.
Qed.

Lemma editLoop_valid fuel : forall editLength bestPath values,
  validPaths ns os bestPath ->
  Diff.editLoop lc o ns os fuel editLength bestPath = Some values ->
  exists cs, values = Diff.buildValues lc o ns os cs /\ completeScript ns os cs.
Proof.
  induction fuel as [|fuel IH]; intros e bestPath values Hbp; simpl; [done|].
  pose proof (execDiagonals_valid (Diff.diagonals e) bestPath Hbp) as Hd.
  destruct (Diff.execDiagonals lc o ns os (Diff.diagonals e) bestPath) as [r|bp'].
  - by intros [= <-].
  - by apply IH.
Qed.

End Paths.

(** ** The values of the components *)

Lemma newText_app a b : newText (a ++ b) = newText a ++ newText b.
Proof. unfold newText. by rewrite filter_app, fmap_app, concat_app. Qed.

Lemma oldText_app a b : oldText (a ++ b) = oldText a ++ oldText b.
Proof. unfold oldText. by rewrite filter_app, fmap_app, concat_app. Qed.

Lemma newText_one c :
  newText [c] = if Diff.removed c then [] else default [] (Diff.value c).
Proof.
  unfold newText. rewrite filter_cons, filter_nil.
  destruct (decide (Diff.removed c = false)) as [E|E].
  - rewrite E. simpl. by rewrite app_nil_r.
  - by destruct (Diff.removed c).
Qed.

Lemma oldText_one c :
  oldText [c] = if Diff.added c then [] else default [] (Diff.value c).
Proof.
  unfold oldText. rewrite filter_cons, filter_nil.
  destruct (decide (Diff.added c = false)) as [E|E].
  - rewrite E. simpl. by rewrite app_nil_r.
  - by destruct (Diff.added c).
Qed.

Lemma concat_take_take {A} (l : list (list A)) n m p :
  concat (take n (drop p l)) ++ concat (take m (drop (p + n) l))
  = concat (take (n + m) (drop p l)).
Proof. rewrite <- concat_app, <- drop_drop. by rewrite take_take_drop. Qed.

Lemma newText_snoc cs c :
  newText (cs ++ [c]) = newText cs ++ if Diff.removed c then [] else default [] (Diff.value c).
Proof. by rewrite newText_app, newText_one. Qed.

Lemma oldText_snoc cs c :
  oldText (cs ++ [c]) = oldText cs ++ if Diff.added c then [] else default [] (Diff.value c).
Proof. by rewrite oldText_app, oldText_one. Qed.

Lemma newText_swap init c previous :
  Diff.removed c = true -> newText (init ++ [c; previous]) = newText (init ++ [previous]).
Proof.
  intros Hr. change [c; previous] with ([c] ++ [previous]).
  rewrite !newText_app, (newText_one c), Hr. done.
Qed.

Lemma oldText_swap init c previous :
  Diff.added previous = true ->
  oldText (init ++ [c; previous]) = oldText (init ++ [previous]) ++ oldText [c].
Proof.
  intros Ha. change [c; previous] with ([c] ++ [previous]).
  rewrite !oldText_app, (oldText_one previous), Ha. by rewrite !app_nil_r.
Qed.

Lemma buildLoop_cons ns os c cs done np op :
  Diff.buildLoop ns os (c :: cs) done np op =
    if negb (Diff.removed c) then
      Diff.buildLoop ns os cs
        (done ++ [{| Diff.count := Diff.count c; Diff.added := Diff.added c;
                     Diff.removed := Diff.removed c;
                     Diff.value := Some (Diff.join (take (Diff.count c) (drop np ns))) |}])
        (np + Diff.count c) (if negb (Diff.added c) then op + Diff.count c else op)
    else
      Diff.buildLoop ns os cs
        (match last done with
         | Some previous =>
             if Diff.added previous
             then take (List.length done - 1) done
                  ++ [{| Diff.count := Diff.count c; Diff.added := Diff.added c;
                         Diff.removed := Diff.removed c;
                         Diff.value := Some (Diff.join (take (Diff.count c) (drop op os))) |};
                      previous]
             else done ++ [{| Diff.count := Diff.count c; Diff.added := Diff.added c;
                              Diff.removed := Diff.removed c;
                              Diff.value :=
                                Some (Diff.join (take (Diff.count c) (drop op os))) |}]
         | None => done ++ [{| Diff.count := Diff.count c; Diff.added := Diff.added c;
                               Diff.removed := Diff.removed c;
                               Diff.value :=
                                 Some (Diff.join (take (Diff.count c) (drop op os))) |}]
         end)
        np (op + Diff.count c).
Proof. done. Qed.

Section Values.
Context (lc : list N -> list N) (o : Diff.Options).
Context (ns os : list (list N)).

Lemma buildLoop_newText cs : forall done np op,
  newText (Diff.buildLoop ns os cs done np op)
  = newText done ++ concat (take (newCount cs) (drop np ns)).
Proof.
  induction cs as [|c cs IH]; intros done np op.
  - unfold newCount. simpl. by rewrite app_nil_r.
  - rewrite buildLoop_cons, newCount_cons. destruct (Diff.removed c) eqn:Er; cbn [negb].
    + rewrite IH. f_equal.
      remember {| Diff.count := Diff.count c; Diff.added := Diff.added c;
                  Diff.removed := true;
                  Diff.value := Some (Diff.join (take (Diff.count c) (drop op os))) |}
        as valued eqn:Ev.
      assert (Hvr : Diff.removed valued = true) by (by subst valued).
      destruct (last done) as [previous|] eqn:El.
      * apply last_Some in El as [init ->].
        rewrite length_app. cbn [List.length].
        replace (List.length init + 1 - 1)%nat with (List.length init) by lia.
        rewrite take_app_length.
        destruct (Diff.added previous).
        -- by apply newText_swap.
        -- by rewrite newText_snoc, Hvr, app_nil_r.
      * by rewrite newText_snoc, Hvr, app_nil_r.
    + rewrite IH, newText_snoc. cbn [Diff.removed Diff.value default]. rewrite ?Er.
      rewrite <- app_assoc. f_equal. apply concat_take_take.
Qed.

Lemma buildLoop_oldText cs : forall done np op,
  aligned ns os cs np op ->
  oldText (Diff.buildLoop ns os cs done np op)
  = oldText done ++ concat (take (oldCount cs) (drop op os)).
Proof.
  induction cs as [|c cs IH]; intros done np op Hal.
  - unfold oldCount. simpl. by rewrite app_nil_r.
  - destruct Hal as (Hx & Hc & Hal). rewrite buildLoop_cons, oldCount_cons.
    destruct (Diff.removed c) eqn:Er; cbn [negb].
    + assert (Ea : Diff.added c = false) by (by destruct (Diff.added c)).
      rewrite Ea in *. rewrite IH by done.
      rewrite <- concat_take_take, app_assoc. f_equal.
      remember {| Diff.count := Diff.count c; Diff.added := false;
                  Diff.removed := true;
                  Diff.value := Some (Diff.join (take (Diff.count c) (drop op os))) |}
        as valued eqn:Ev.
      assert (Hva : Diff.added valued = false) by (by subst valued).
      assert (Hvv : default [] (Diff.value valued) = concat (take (Diff.count c) (drop op os)))
        by (by subst valued).
      destruct (last done) as [previous|] eqn:El.
      * apply last_Some in El as [init ->].
        rewrite length_app. cbn [List.length].
        replace (List.length init + 1 - 1)%nat with (List.length init) by lia.
        rewrite take_app_length.
        destruct (Diff.added previous) eqn:Ep.
        -- rewrite oldText_swap by done. by rewrite oldText_one, Hva, Hvv.
        -- by rewrite oldText_snoc, Hva, Hvv.
      * by rewrite oldText_snoc, Hva, Hvv.
    + destruct (Diff.added c) eqn:Ea; cbn [negb] in *.
      all: rewrite IH by done; rewrite oldText_snoc; cbn [Diff.added Diff.value default].
      * by rewrite app_nil_r.
      * rewrite <- app_assoc. f_equal. rewrite <- concat_take_take. f_equal.
        unfold Diff.join. by rewrite Hc.
Qed.

End Values.

Section Sound.
Context (lc : list N -> list N) (o : Diff.Options).
Context (ns os : list (list N)).
Context (Hic : Diff.ignoreCase o = false).

Lemma buildLoop_valued cs : forall acc np op,
  Forall (fun c => is_Some (Diff.value c)) acc ->
  Forall (fun c => is_Some (Diff.value c)) (Diff.buildLoop ns os cs acc np op).
Proof.
  induction cs as [|c cs IH]; intros acc np op Hd; [done|].
  rewrite buildLoop_cons. destruct (negb (Diff.removed c)).
  - apply IH. apply Forall_app. split; [done|]. apply Forall_singleton. by eexists.
  - apply IH. destruct (last acc) as [previous|] eqn:El.
    + apply last_Some in El as [init ->].
      rewrite length_app. cbn [List.length].
      replace (List.length init + 1 - 1)%nat with (List.length init) by lia.
      rewrite take_app_length. apply Forall_app in Hd as [Hi Hp].
      destruct (Diff.added previous).
      * apply Forall_app. split; [done|]. apply Forall_cons. split; [by eexists | done].
      * apply Forall_app. split; [by apply Forall_app|]. apply Forall_singleton. by eexists.
    + apply Forall_app. split; [done|]. apply Forall_singleton. by eexists.
Qed.

Lemma last_two {A} (l : list A) x y :
  last l = Some x -> last (take (List.length l - 1) l) = Some y ->
  exists init, l = init ++ [y; x] /\ take (List.length l - 2) l = init.
Proof.
  intros [l1 ->]%last_Some. rewrite length_app. simpl.
  replace (List.length l1 + 1 - 1)%nat with (List.length l1) by lia.
  rewrite take_app_length. intros [init ->]%last_Some.
  exists init. rewrite <- app_assoc. split; [done|].
  rewrite length_app. simpl.
  replace (List.length init + 1 + 1 - 2)%nat with (List.length init) by lia.
  by rewrite take_app_length.
Qed.

(** [buildValues] on a complete script: the values of the components
    that are not removed make the new string, those of the components
    that are not added make the old string, and every component has its
    value. *)
Lemma buildValues_texts cs :
  completeScript ns os cs ->
  newText (Diff.buildValues lc o ns os cs) = concat ns
  /\ oldText (Diff.buildValues lc o ns os cs) = concat os
  /\ Forall (fun c => is_Some (Diff.value c)) (Diff.buildValues lc o ns os cs).
Proof.
  intros (Hal & Hn & Ho). unfold Diff.buildValues. cbv zeta.
  pose proof (buildLoop_newText ns os cs [] 0 0) as HN.
  pose proof (buildLoop_oldText ns os cs [] 0 0 Hal) as HO.
  pose proof (buildLoop_valued cs [] 0 0 (Forall_nil_2 _)) as HV.
  rewrite Hn, drop_0, firstn_all in HN. rewrite Ho, drop_0, firstn_all in HO.
  change (newText []) with (@nil N) in HN. change (oldText []) with (@nil N) in HO.
  simpl in HN, HO.
  set (comps := Diff.buildLoop ns os cs [] 0 0) in *.
  destruct (last comps) as [l|] eqn:El; [|done].
  destruct (last (take (List.length comps - 1) comps)) as [previous|] eqn:Ep; [|done].
  destruct ((Diff.added l || Diff.removed l) && _) eqn:E; [|done].
  destruct (last_two comps l previous El Ep) as (init & Hc & ->).
  apply andb_true_iff in E as [_ E].
  destruct (Diff.value l) as [v|] eqn:Evl; [|done].
  unfold Diff.equals in E. rewrite Hic in E. apply bool_decide_eq_true in E. subst v.
  rewrite Hc in HN, HO, HV.
  change [previous; l] with ([previous] ++ [l]) in HN, HO, HV.
  rewrite app_assoc in HN, HO, HV.
  rewrite newText_snoc, Evl in HN. rewrite oldText_snoc, Evl in HO.
  assert (HN' : newText (init ++ [previous]) = concat ns)
    by (destruct (Diff.removed l); by rewrite app_nil_r in HN).
  assert (HO' : oldText (init ++ [previous]) = concat os)
    by (destruct (Diff.added l); by rewrite app_nil_r in HO).
  rewrite newText_snoc in HN'. rewrite oldText_snoc in HO'.
  rewrite newText_snoc, oldText_snoc. cbn [Diff.removed Diff.added Diff.value default].
  rewrite app_nil_r.
  split; [done|]. split; [done|].
  apply Forall_app in HV as [HV _]. apply Forall_app in HV as [HV _].
  apply Forall_app. split; [done|]. apply Forall_singleton. by eexists.
Qed.

Lemma validPath_start : validPath ns os 0 {| Diff.newPos := -1; Diff.components := [] |}.
Proof. unfold validPath. simpl. repeat split; lia. Qed.

(** The components [diff] returns for two lists of tokens. *)
Lemma diffTokens_sound values :
  Diff.diffTokens lc o ns os = Some values ->
  newText values = concat ns /\ oldText values = concat os
  /\ Forall (fun c => is_Some (Diff.value c)) values.
Proof.
  unfold Diff.diffTokens. cbv zeta.
  destruct (extractCommon_valid lc o ns os Hic 0 _ validPath_start) as [Hv Hop].
  destruct (Diff.extractCommon lc o ns os _ 0) as [path0 op] eqn:Ex. simpl in Hv, Hop.
  destruct ((Diff.newLen ns <=? Diff.newPos path0 + 1) && (Diff.oldLen os <=? op + 1)) eqn:E.
  - intros [= <-].
    apply andb_true_iff in E as [E1 E2]. apply Z.leb_le in E1, E2.
    destruct Hv as (Hal & Hn & Ho & Hbn & Hbo). unfold Diff.newLen, Diff.oldLen in *.
    assert (Hc : completeScript ns os (Diff.components path0)).
    { split; [done|]. split; lia. }
    destruct (buildValues_texts _ Hc) as (HN & HO & _).
    assert (Heq : concat ns = concat os).
    { revert Ex Hc. unfold Diff.extractCommon. cbv zeta.
      destruct (Diff.commonRun _ _ _ _ _ _ _ _) as [[np' op'] k]. intros [= <- <-].
      clear. simpl. intros (Hal & Hn & Ho). case_bool_decide as Hk.
      - unfold newCount, oldCount in *. simpl in *.
        destruct ns, os; simpl in *; try lia. done.
      - destruct Hal as (_ & Hs & _).
        unfold newCount, oldCount in *. simpl in *. rewrite Nat.add_0_r in *.
        specialize (Hs eq_refl). rewrite !drop_0 in Hs.
        rewrite Hn in Hs at 1. rewrite Ho in Hs. rewrite !firstn_all in Hs. by subst. }
    unfold newText, oldText. simpl. rewrite !app_nil_r. unfold Diff.join.
    split; [done|]. split; [done|]. apply Forall_singleton. by eexists.
  - intros Hloop. apply editLoop_valid in Hloop as (cs & -> & Hc); [|done|].
    + by apply buildValues_texts.
    + intros d p. rewrite lookup_singleton_Some. by intros [<- <-].
Qed.

End Sound.

(** Property X18.
    When [diffWords] returns components for options without
    [ignoreCase], they tell the two strings apart in full: the values
    of the components that are not removed, put end to end, are the
    new string, the values of the components that are not added are
    the old string, and every component has its value. *)
Theorem diffWords_sound lc oldStr newStr o values :
  Diff.ignoreCase o = false ->
  Diff.diffWords lc oldStr newStr o = Some values ->
  newText values = newStr /\ oldText values = oldStr
  /\ Forall (fun c => is_Some (Diff.value c)) values.
Proof.
  intros Hic Hd. unfold Diff.diffWords in Hd.
  apply diffTokens_sound in Hd as (HN & HO & HV); [|done].
  pose proof (tokens_join newStr) as Hn. pose proof (tokens_join oldStr) as Ho.
  unfold Diff.join in Hn, Ho. rewrite Hn in HN. rewrite Ho in HO. done.
Qed.

(** Property X18, instance. *)
Lemma diffWords_sound_example :
  exists values,
    Diff.diffWords id (JS.lit "the quick fox") (JS.lit "the slow fox jumps") Diff.noOptions
    = Some values
    /\ newText values = JS.lit "the slow fox jumps"
    /\ oldText values = JS.lit "the quick fox".
Proof.
  destruct (Diff.diffWords id (JS.lit "the quick fox") (JS.lit "the slow fox jumps")
              Diff.noOptions) as [values|] eqn:E; [|vm_compute in E; discriminate].
  exists values. split; [reflexivity|].
  destruct (diffWords_sound id _ _ Diff.noOptions values eq_refl E) as (H1 & H2 & _).
  split; [exact H1 | exact H2].
Defined.

(** ** The diff always ends with a result *)

Section Ends.
Context (lc : list N -> list N) (o : Diff.Options).
Context (ns os : list (list N)).



End Ends.

Section Rounds.

Context (lc : list N -> list N) (o : Diff.Options).
Context (ns os : list (list N)).








End Rounds.




